(** * tigate: the maintainer's control plane, checked against its description

    A shallow embedding of the Go sources:
    - [schemastore.versionedTableInfoStore] (getTableInfo, gc, doApplyDDL),
    - [operator.Controller] (operator_controller.go),
    - [coordinator.Supervisor.Schedule],
    - the barrier block event and the replication DB, whose code lives in
      packages that are not part of the source tree at hand.

    Go's [int] and [int64] are [Z], [uint64] is [N]; a Go map is a [gmap];
    a slice is a [list].  Mutexes are left out: every function below is the
    body that runs with the lock held. *)

From stdpp Require Import base numbers option list sorting gmap strings.

Local Open Scope string_scope.
Local Open Scope list_scope.
Local Open Scope nat_scope.

(** ** Logging, panics and early exits

    [log.Info/Warn/Error] append to a log; [log.Panic] and [log.Fatal] stop
    the function.  A computation is the log written so far together with
    either the reason it stopped or its result. *)

Inductive Level := LInfo | LWarn | LError.

Record LogEntry := mkLog { log_level : Level; log_msg : string }.

Inductive Abort :=
  | Panic (msg : string)
  | Fatal (msg : string).

Definition M (A : Type) : Type := (list LogEntry * (Abort + A))%type.

#[global] Instance M_ret : MRet M := λ A a, ([], inr a).

#[global] Instance M_bind : MBind M := λ A B k m,
  match m with
  | (l, inl e) => (l, inl e)
  | (l, inr a) => let '(l', r) := k a in (l ++ l', r)
  end.

Definition ret {A} (a : A) : M A := mret a.

Definition logAt (lv : Level) (msg : string) : M unit := ([mkLog lv msg], inr tt).
Definition logPanic {A} (msg : string) : M A := ([], inl (Panic msg)).
Definition logFatal {A} (msg : string) : M A := ([], inl (Fatal msg)).

Definition outcome {A} (m : M A) : Abort + A := m.2.
Definition logs {A} (m : M A) : list LogEntry := m.1.

(** ** sort.Search

    Go's library routine, as it is written there:
    [i, j := 0, n; for i < j { h := (i+j)/2; if !f(h) { i = h+1 } else { j = h } }; return i].
    The loop runs at most [j - i] times, which is the fuel [Search] hands it. *)

Fixpoint searchLoop (fuel : nat) (f : nat → bool) (i j : nat) : nat :=
  match fuel with
  | O => i
  | S fuel' =>
      if decide (i < j) then
        let h := (i + j) / 2 in
        if negb (f h) then searchLoop fuel' f (h + 1) j
        else searchLoop fuel' f i h
      else i
  end.

Definition Search (n : nat) (f : nat → bool) : nat := searchLoop n f 0 n.

(** ** schemastore: the versioned table-info store *)

Module SchemaStore.

(** model.ActionType of the upstream parser, restricted to the cases
    [doApplyDDL] tells apart. *)
Inductive ActionType :=
  | ActionCreateTable
  | ActionRenameTable
  | ActionAddColumn
  | ActionDropColumn
  | ActionDropTable
  | ActionTruncateTable
  | ActionOther.

Definition MaxUint64 : N := 18446744073709551615%N.

Section Store.

(** [common.TableInfo], the upstream [model.TableInfo] it wraps, and the two
    functions of package common that [doApplyDDL] calls. *)
Variable TableInfo : Type.
Variable RawTableInfo : Type.
Variable WrapTableInfo : Z → string → N → RawTableInfo → TableInfo.
Variable InitPreSQLs : TableInfo → TableInfo.

Record tableInfoItem := mkItem {
  version : N;
  info : TableInfo;
}.

Record PersistedDDLEvent := mkDDL {
  ev_Type : ActionType;
  ev_TableID : Z;
  ev_SchemaID : Z;
  ev_SchemaName : string;
  ev_Query : string;
  ev_SchemaVersion : Z;
  ev_FinishedTs : N;
  ev_TableInfo : RawTableInfo;
}.

Record versionedTableInfoStore := mkStore {
  tableID : Z;
  infos : list tableInfoItem;   (* ordered by ts *)
  deleteVersion : N;
  initialized : bool;
  pendingDDLs : list PersistedDDLEvent;
}.

Definition set_infos (v : versionedTableInfoStore) (l : list tableInfoItem) :=
  mkStore (tableID v) l (deleteVersion v) (initialized v) (pendingDDLs v).
Definition set_deleteVersion (v : versionedTableInfoStore) (d : N) :=
  mkStore (tableID v) (infos v) d (initialized v) (pendingDDLs v).
Definition set_initialized (v : versionedTableInfoStore) (b : bool) :=
  mkStore (tableID v) (infos v) (deleteVersion v) b (pendingDDLs v).
Definition set_pendingDDLs (v : versionedTableInfoStore) (p : list PersistedDDLEvent) :=
  mkStore (tableID v) (infos v) (deleteVersion v) (initialized v) p.

Definition newEmptyVersionedTableInfoStore (tid : Z) : versionedTableInfoStore :=
  mkStore tid [] MaxUint64 false [].

(** [v.infos[i].version > ts]; the index is always in range when [Search]
    asks. *)
Definition versionAfter (l : list tableInfoItem) (ts : N) (i : nat) : bool :=
  match l !! i with
  | Some it => bool_decide (ts < version it)%N
  | None => false
  end.

Definition errDeleted : string := "table info deleted".
Definition errNoVersion : string := "no version found".

(** getTableInfo: the table info with the largest version <= ts. *)
Definition getTableInfo (v : versionedTableInfoStore) (ts : N) : M (string + TableInfo) :=
  if negb (initialized v) then logPanic "should wait for table info initialized"
  else if bool_decide (deleteVersion v ≤ ts)%N then ret (inl errDeleted)
  else
    let target := Search (length (infos v)) (versionAfter (infos v) ts) in
    if decide (target = 0) then
      logAt LError "no version found";;
      ret (inl errNoVersion)
    else
      match infos v !! (target - 1) with
      | Some it => ret (inr (info it))
      | None => logPanic "index out of range"
      end.

(** gc: only keep one item with the largest version <= gcTs. *)
Definition gc (v : versionedTableInfoStore) (gcTs : N) : M versionedTableInfoStore :=
  if negb (initialized v) then ret v
  else if decide (length (infos v) = 0) then logFatal "no table info found"
  else
    let target := Search (length (infos v)) (versionAfter (infos v) gcTs) in
    if decide (target = 0) then ret v
    else ret (set_infos v (drop (target - 1) (infos v))).

Definition lastVersion (l : list tableInfoItem) : option N := version <$> last l.

Definition assertEmpty (l : list tableInfoItem) : M unit :=
  if decide (length l ≠ 0) then logPanic "shouldn't happen" else ret tt.

Definition assertNonEmpty (l : list tableInfoItem) : M unit :=
  if decide (length l = 0) then logPanic "shouldn't happen" else ret tt.

Definition assertNonDeleted (v : versionedTableInfoStore) : M unit :=
  if decide (deleteVersion v ≠ MaxUint64) then logPanic "shouldn't happen" else ret tt.

Definition appendInfo (v : versionedTableInfoStore) (event : PersistedDDLEvent) :=
  let i := InitPreSQLs (WrapTableInfo (ev_SchemaID event) (ev_SchemaName event)
                                      (ev_FinishedTs event) (ev_TableInfo event)) in
  set_infos v (infos v ++ [mkItem (ev_FinishedTs event) i]).

(** [uint64(event.FinishedTs) <= v.infos[len(v.infos)-1].version]; both uses
    stand behind a test that the slice is not empty. *)
Definition finishedNotAfterLast (v : versionedTableInfoStore) (event : PersistedDDLEvent) : bool :=
  match lastVersion (infos v) with
  | Some lv => bool_decide (ev_FinishedTs event ≤ lv)%N
  | None => false
  end.

Definition doApplyDDL (v : versionedTableInfoStore) (event : PersistedDDLEvent)
  : M versionedTableInfoStore :=
  if bool_decide (length (infos v) ≠ 0) && finishedNotAfterLast v event then
    logPanic "ddl job finished ts should be monotonically increasing"
  else if bool_decide (0 < length (infos v)) && finishedNotAfterLast v event then
    logAt LInfo "ignore job";;
    ret v
  else
    match ev_Type event with
    | ActionCreateTable =>
        if decide (length (infos v) = 1) then
          logAt LWarn "ignore create table job";;
          ret v
        else
          assertEmpty (infos v);;
          ret (appendInfo v event)
    | ActionRenameTable | ActionAddColumn | ActionDropColumn =>
        assertNonEmpty (infos v);;
        ret (appendInfo v event)
    | ActionDropTable | ActionTruncateTable =>
        ret (set_deleteVersion v (ev_FinishedTs event))
    | ActionOther => ret v
    end.

Definition addInitialTableInfo (v : versionedTableInfoStore) (ver : N) (i : TableInfo) :=
  set_infos v (infos v ++ [mkItem ver i]).

Definition applyDDLFromPersistStorage (v : versionedTableInfoStore) (event : PersistedDDLEvent)
  : M versionedTableInfoStore :=
  if initialized v then logPanic "should not happen" else doApplyDDL v event.

Definition applyDDL (v : versionedTableInfoStore) (event : PersistedDDLEvent)
  : M versionedTableInfoStore :=
  assertNonDeleted v;;
  if negb (initialized v) then ret (set_pendingDDLs v (pendingDDLs v ++ [event]))
  else doApplyDDL v event.

Definition setTableInfoInitialized (v : versionedTableInfoStore) : M versionedTableInfoStore :=
  v' ← foldl (λ acc job, w ← acc; doApplyDDL w job) (ret v) (pendingDDLs v);
  ret (set_initialized v' true).

(** "ordered by ts": versions never go down along the slice. *)
Definition ordered (l : list tableInfoItem) : Prop :=
  ∀ (i j : nat) a b, l !! i = Some a → l !! j = Some b → (i ≤ j)%nat → (version a ≤ version b)%N.

(** The same, checked on neighbours. *)
Fixpoint orderedb (l : list tableInfoItem) : bool :=
  match l with
  | a :: ((b :: _) as tl) => bool_decide (version a ≤ version b)%N && orderedb tl
  | _ => true
  end.

(** [r] splits [l] into the entries with version <= ts and those after. *)
Definition boundary (l : list tableInfoItem) (ts : N) (r : nat) : Prop :=
  r ≤ length l
  ∧ (∀ k it, k < r → l !! k = Some it → (version it ≤ ts)%N)
  ∧ (∀ k it, r ≤ k → l !! k = Some it → (ts < version it)%N).

End Store.

(** A store holding versions 5 and 8 of table 1, and a DDL that finished at
    ts 8, the version applied last. *)
Definition sampleStore : versionedTableInfoStore string unit :=
  mkStore string unit 1 [mkItem string 5%N "t1@5"; mkItem string 8%N "t1@8"] MaxUint64 true [].

Definition sampleWrap (schemaID : Z) (schemaName : string) (ts : N) (raw : unit) : string :=
  schemaName.

Definition staleDDL : PersistedDDLEvent unit :=
  mkDDL unit ActionAddColumn 1 1 "test" "alter table t1 add column c int" 3 8%N tt.

Definition nextDDL : PersistedDDLEvent unit :=
  mkDDL unit ActionAddColumn 1 1 "t1@9" "alter table t1 add column d int" 4 9%N tt.

End SchemaStore.

Arguments SchemaStore.version {_} _.
Arguments SchemaStore.info {_} _.
Arguments SchemaStore.mkItem {_} _ _.
Arguments SchemaStore.ev_Type {_} _.
Arguments SchemaStore.ev_FinishedTs {_} _.
Arguments SchemaStore.tableID {_ _} _.
Arguments SchemaStore.infos {_ _} _.
Arguments SchemaStore.deleteVersion {_ _} _.
Arguments SchemaStore.initialized {_ _} _.
Arguments SchemaStore.pendingDDLs {_ _} _.
Arguments SchemaStore.set_infos {_ _} _ _.
Arguments SchemaStore.set_deleteVersion {_ _} _ _.
Arguments SchemaStore.versionAfter {_} _ _ _.
Arguments SchemaStore.getTableInfo {_ _} _ _.
Arguments SchemaStore.gc {_ _} _ _.
Arguments SchemaStore.lastVersion {_} _.
Arguments SchemaStore.finishedNotAfterLast {_ _} _ _.
Arguments SchemaStore.mkDDL {_} _ _ _ _ _ _ _ _.
Arguments SchemaStore.mkStore {_ _} _ _ _ _ _.
Arguments SchemaStore.appendInfo {_ _} _ _ _ _.
Arguments SchemaStore.doApplyDDL {_ _} _ _ _ _.
Arguments SchemaStore.applyDDL {_ _} _ _ _ _.
Arguments SchemaStore.assertEmpty {_} _.
Arguments SchemaStore.assertNonEmpty {_} _.
Arguments SchemaStore.ordered {_} _.
Arguments SchemaStore.orderedb {_} _.
Arguments SchemaStore.boundary {_} _ _ _.

(** ** Identifiers and wire types (heartbeatpb)

    The messages are those of the .proto file; [UpdatedSchemas] and
    [SchemaIDChange] are read off the test that fills them in. *)

Record DispatcherID := mkDispatcherID { High : N; Low : N }.

#[global] Instance DispatcherID_eq_dec : EqDecision DispatcherID.
Proof. solve_decision. Defined.

#[global] Instance DispatcherID_countable : Countable DispatcherID.
Proof.
  refine (inj_countable' (λ d, (High d, Low d)) (λ p, mkDispatcherID p.1 p.2) _).
  by intros [].
Defined.

Inductive ComponentState := Unknown | Absent | Working | Stopped.
Inductive Action := Write | Pass.
Inductive InfluenceType := All | DB | Normal.
Inductive ScheduleAction := Create | Remove.

#[global] Instance InfluenceType_eq_dec : EqDecision InfluenceType.
Proof. solve_decision. Defined.
#[global] Instance Action_eq_dec : EqDecision Action.
Proof. solve_decision. Defined.

Record TableSpan := mkTableSpan { TableID : Z; StartKey : string; EndKey : string }.

Record Table := mkTable { tbl_TableID : Z; tbl_SchemaID : Z }.

Record InfluencedTables := mkInfluencedTables {
  it_InfluenceType : InfluenceType;
  it_TableIDs : list Z;        (* only exist when type is normal *)
  it_SchemaID : Z;             (* only exist when type is DB *)
}.

Record InfluencedDispatchers := mkInfluencedDispatchers {
  id_InfluenceType : InfluenceType;
  id_DispatcherIDs : list DispatcherID;          (* only exist when type is normal *)
  id_SchemaID : Z;                               (* only exist when type is DB *)
  id_ExcludeDispatcherId : option DispatcherID;  (* type all or db, in heartbeat response *)
}.

Record DispatcherAction := mkDispatcherAction { da_Action : Action; da_CommitTs : N }.

Record DispatcherStatus := mkDispatcherStatus {
  ds_InfluencedDispatchers : InfluencedDispatchers;
  ds_Action : option DispatcherAction;
  ds_Ack : option N;
}.

Record HeartBeatResponse := mkHeartBeatResponse {
  hb_ChangefeedID : string;
  hb_DispatcherStatuses : list DispatcherStatus;
}.

Record SchemaIDChange := mkSchemaIDChange {
  sc_TableID : Z; sc_OldSchemaID : Z; sc_NewSchemaID : Z;
}.

Record State := mkState {
  IsBlocked : bool;
  BlockTs : N;
  BlockTables : option InfluencedTables;
  NeedDroppedTables : option InfluencedTables;
  NeedAddedTables : list Table;
  UpdatedSchemas : list SchemaIDChange;
}.

(** ** The replication DB *)

Module Replica.

(** Modelled from the spec: replica.SpanReplication is missing from the tree;
    section 3 lists its attributes. *)
Record SpanReplication := mkSpanReplication {
  ID : DispatcherID;
  Span : TableSpan;
  ChangefeedID : string;
  schemaID : Z;
  nodeID : string;
  status : ComponentState;
  checkpointTs : N;
}.

(** Modelled from the spec: the mutable attributes of a span (schemaID; nodeID
    and status), updated under the DB lock. *)
Definition set_schemaID (s : SpanReplication) (sid : Z) : SpanReplication :=
  mkSpanReplication (ID s) (Span s) (ChangefeedID s) sid (nodeID s) (status s) (checkpointTs s).
Definition set_node (s : SpanReplication) (n : string) (st : ComponentState) : SpanReplication :=
  mkSpanReplication (ID s) (Span s) (ChangefeedID s) (schemaID s) n st (checkpointTs s).

(** Modelled from the spec: package replica (ReplicationDB and its methods)
    is missing from the tree.  Section 3 and 4.1 of the description give a
    primary map of all spans, the three disjoint sets absent / scheduling /
    working, and the reverse indexes by schema, by table and by node. *)
Record ReplicationDB := mkReplicationDB {
  allTasks : gmap DispatcherID SpanReplication;
  absent : gset DispatcherID;
  scheduling : gset DispatcherID;
  working : gset DispatcherID;
  schemaTasks : gmap Z (gset DispatcherID);
  tableTasks : gmap Z (gset DispatcherID);
  nodeTasks : gmap string (gset DispatcherID);
}.

(** Modelled from the spec: the empty store a new controller starts from. *)
Definition NewReplicaSetDB : ReplicationDB :=
  mkReplicationDB ∅ ∅ ∅ ∅ ∅ ∅ ∅.

(** Modelled from the spec: a reverse index maps a key (schema, table, node)
    to the set of dispatchers filed under it; an entry that becomes empty is
    dropped. *)
Section Index.
Context `{Countable K}.

Definition indexGet (k : K) (ix : gmap K (gset DispatcherID)) : gset DispatcherID :=
  default ∅ (ix !! k).

Definition indexAdd (k : K) (d : DispatcherID) (ix : gmap K (gset DispatcherID)) :=
  <[k := {[d]} ∪ indexGet k ix]> ix.

Definition indexDel (k : K) (d : DispatcherID) (ix : gmap K (gset DispatcherID)) :=
  let s := indexGet k ix ∖ {[d]} in
  if decide (s = ∅) then delete k ix else <[k := s]> ix.

End Index.

(** Modelled from the spec: the spans an index entry names, looked up in the
    primary map. *)
Definition spansOf (db : ReplicationDB) (ids : gset DispatcherID) : list SpanReplication :=
  omap (λ d, allTasks db !! d) (elements ids).

(** Modelled from the spec: [GetTaskByID] reads the primary map (nil when the
    span is unknown). *)
Definition GetTaskByID (db : ReplicationDB) (d : DispatcherID) : option SpanReplication :=
  allTasks db !! d.

(** Modelled from the spec: [GetAbsentSize] is the size of the absent set. *)
Definition GetAbsentSize (db : ReplicationDB) : nat := size (absent db).

(** Modelled from the spec: [GetTasksBySchemaID] reads the by-schema index. *)
Definition GetTasksBySchemaID (db : ReplicationDB) (sid : Z) : list SpanReplication :=
  spansOf db (indexGet sid (schemaTasks db)).

(** Modelled from the spec: [GetTasksByTableIDs] reads the by-table index, one
    table after the other. *)
Definition GetTasksByTableIDs (db : ReplicationDB) (tids : list Z) : list SpanReplication :=
  tids ≫= (λ t, spansOf db (indexGet t (tableTasks db))).

(** Modelled from the spec: every span of the primary map. *)
Definition GetAllTasks (db : ReplicationDB) : list SpanReplication :=
  (map_to_list (allTasks db)).*2.

(** Modelled from the spec: [AddAbsentReplicaSet(span)] inserts with state
    Absent (and so with no node). *)
Definition AddAbsentReplicaSet (s : SpanReplication) (db : ReplicationDB) : ReplicationDB :=
  let s := set_node s "" Absent in
  mkReplicationDB
    (<[ID s := s]> (allTasks db))
    ({[ID s]} ∪ absent db) (scheduling db) (working db)
    (indexAdd (schemaID s) (ID s) (schemaTasks db))
    (indexAdd (TableID (Span s)) (ID s) (tableTasks db))
    (nodeTasks db).

(** Modelled from the spec: a span leaves the primary map, the three sets
    and every reverse index. *)
Definition removeSpan (db : ReplicationDB) (s : SpanReplication) : ReplicationDB :=
  mkReplicationDB
    (delete (ID s) (allTasks db))
    (absent db ∖ {[ID s]}) (scheduling db ∖ {[ID s]}) (working db ∖ {[ID s]})
    (indexDel (schemaID s) (ID s) (schemaTasks db))
    (indexDel (TableID (Span s)) (ID s) (tableTasks db))
    (indexDel (nodeID s) (ID s) (nodeTasks db)).

(** Modelled from the spec: [TryRemoveAll / TryRemoveBySchemaID /
    TryRemoveByTableIDs] remove from all indexes and return the removed set,
    for the caller to attach remove operators to. *)
Definition tryRemove (victims : list SpanReplication) (db : ReplicationDB)
  : list SpanReplication * ReplicationDB :=
  (victims, foldl removeSpan db victims).

(** Modelled from the spec: [TryRemoveAll] takes out every span. *)
Definition TryRemoveAll (db : ReplicationDB) := tryRemove (GetAllTasks db) db.

(** Modelled from the spec: [TryRemoveBySchemaID(s)] takes out the spans filed
    under schema [s]. *)
Definition TryRemoveBySchemaID (sid : Z) (db : ReplicationDB) :=
  tryRemove (GetTasksBySchemaID db sid) db.

(** Modelled from the spec: [TryRemoveByTableIDs(ts...)] takes out the spans of
    the listed tables. *)
Definition TryRemoveByTableIDs (tids : list Z) (db : ReplicationDB) :=
  tryRemove (GetTasksByTableIDs db tids) db.

(** Modelled from the spec: [UpdateSchemaID(tableID, newSchemaID)] moves every
    span of the table to the new schema, in the span and in the by-schema
    index, in one step under the lock. *)
Definition reindexSchema (newSchemaID : Z) (db : ReplicationDB) (s : SpanReplication)
  : ReplicationDB :=
  mkReplicationDB
    (<[ID s := set_schemaID s newSchemaID]> (allTasks db))
    (absent db) (scheduling db) (working db)
    (indexAdd newSchemaID (ID s) (indexDel (schemaID s) (ID s) (schemaTasks db)))
    (tableTasks db) (nodeTasks db).

(** Modelled from the spec: [UpdateSchemaID(tableID, newSchemaID)], the
    reindexing above for every span of the table. *)
Definition UpdateSchemaID (tableID newSchemaID : Z) (db : ReplicationDB) : ReplicationDB :=
  foldl (reindexSchema newSchemaID) db (GetTasksByTableIDs db [tableID]).

(** Modelled from the spec: [BindSpanToNode(oldNode, newNode, span)] moves the
    span between node indexes and sets it scheduling. *)
Definition BindSpanToNode (oldNode newNode : string) (s : SpanReplication) (db : ReplicationDB)
  : ReplicationDB :=
  mkReplicationDB
    (<[ID s := set_node s newNode (status s)]> (allTasks db))
    (absent db ∖ {[ID s]}) ({[ID s]} ∪ scheduling db) (working db ∖ {[ID s]})
    (schemaTasks db) (tableTasks db)
    (indexAdd newNode (ID s) (indexDel oldNode (ID s) (nodeTasks db))).

(** Modelled from the spec: [MarkSpanReplicating(span)] is scheduling ->
    working. *)
Definition MarkSpanReplicating (s : SpanReplication) (db : ReplicationDB) : ReplicationDB :=
  mkReplicationDB
    (allTasks db)
    (absent db) (scheduling db ∖ {[ID s]}) ({[ID s]} ∪ working db)
    (schemaTasks db) (tableTasks db) (nodeTasks db).

(** Modelled from the spec: invariant 3 of section 3, "reverse indexes
    (by-schema, by-table) are consistent with the primary map", the primary
    map holding every span under its own ID. *)
Definition consistent (db : ReplicationDB) : Prop :=
  (∀ d s, allTasks db !! d = Some s → ID s = d)
  ∧ (∀ sid d, d ∈ indexGet sid (schemaTasks db) ↔
              ∃ s, allTasks db !! d = Some s ∧ schemaID s = sid)
  ∧ (∀ tid d, d ∈ indexGet tid (tableTasks db) ↔
              ∃ s, allTasks db !! d = Some s ∧ TableID (Span s) = tid).

End Replica.

(** ** operator.Controller (operator_controller.go) *)

Module Operator.
Import Replica.

(** Modelled from the spec: the Operator interface and its implementations
    are missing from the tree; section 3 names the kinds add, remove, move
    and split. *)
Inductive OperatorKind := AddDispatcher | RemoveDispatcher | MoveDispatcher | SplitDispatcher.

(** Modelled from the spec: an operator value carries what the controller
    reads from it, [ID()] and [String()], and its kind.  The methods the
    controller calls on it are recorded as events; what a method does to the
    replication DB the operator holds is a parameter of the controller
    functions. *)
Record Operator := mkOperator {
  op_kind : OperatorKind;
  op_ID : DispatcherID;
  op_String : string;
}.

(** Modelled from the spec: the methods of the capability set of section 9
    that operator_controller.go calls with an effect. *)
Inductive Method := Start | Schedule | PostFinish | OnTaskRemoved.

(** What a controller function does besides changing the controller: log
    lines and method calls, in order. *)
Inductive Event :=
  | Log (lv : Level) (msg : string)
  | Call (op : Operator) (m : Method).

#[global] Instance OperatorKind_eq_dec : EqDecision OperatorKind.
Proof. solve_decision. Defined.
#[global] Instance Operator_eq_dec : EqDecision Operator.
Proof. solve_decision. Defined.
#[global] Instance Method_eq_dec : EqDecision Method.
Proof. solve_decision. Defined.

(** Modelled from the spec: NewRemoveDispatcherOperator is missing from the
    tree; it builds the remove operator of a replica set, which owns the
    DispatcherID of its target. *)
Definition NewRemoveDispatcherOperator (replicaSet : SpanReplication) : Operator :=
  mkOperator RemoveDispatcher (ID replicaSet) "remove dispatcher".

(** Modelled from the spec: operatorWithTime, the queue entry
    (operator, nextRunAt); the time is in nanoseconds. *)
Record operatorWithTime := mkOperatorWithTime { op : Operator; time : Z }.

(** Modelled from the spec: operatorQueue (the container/heap instance) is
    missing from the tree; section 4.3 calls it a min-heap priority queue of
    (operator, nextRunAt).  The queue is kept sorted by time, so Pop takes
    the head. *)
Fixpoint heapPush (x : operatorWithTime) (q : list operatorWithTime) : list operatorWithTime :=
  match q with
  | [] => [x]
  | y :: q' => if decide (time x < time y)%Z then x :: q else y :: heapPush x q'
  end.

(** Modelled from the spec: heap.Pop on that queue. *)
Definition heapPop (q : list operatorWithTime)
  : option (operatorWithTime * list operatorWithTime) :=
  match q with
  | [] => None
  | x :: q' => Some (x, q')
  end.

(** time.Millisecond, in nanoseconds. *)
Definition Millisecond : Z := 1000000.

Record Controller := mkController {
  changefeedID : string;
  replicationDB : ReplicationDB;
  operators : gmap DispatcherID Operator;
  runningQueue : list operatorWithTime;
  batchSize : Z;
}.

Definition NewOperatorController (cf : string) (db : ReplicationDB) (batch : Z) : Controller :=
  mkController cf db ∅ [] batch.

Definition set_db (oc : Controller) (db : ReplicationDB) : Controller :=
  mkController (changefeedID oc) db (operators oc) (runningQueue oc) (batchSize oc).
Definition set_operators (oc : Controller) (ops : gmap DispatcherID Operator) : Controller :=
  mkController (changefeedID oc) (replicationDB oc) ops (runningQueue oc) (batchSize oc).
Definition set_queue (oc : Controller) (q : list operatorWithTime) : Controller :=
  mkController (changefeedID oc) (replicationDB oc) (operators oc) q (batchSize oc).

Section Methods.

(** What calling a method of an operator does to the replication DB the
    operator was built with. *)
Variable effect : Operator → Method → ReplicationDB → ReplicationDB.

Definition call (o : Operator) (m : Method) (oc : Controller) : Controller :=
  set_db oc (effect o m (replicationDB oc)).

(** removeReplicaSet: if the replica set is removed, the controller removes
    the operator and adds the new one. *)
Definition removeReplicaSet (o : Operator) (oc : Controller) : Controller * list Event :=
  match operators oc !! op_ID o with
  | Some old =>
      let oc1 := call old OnTaskRemoved oc in
      let oc2 := set_operators oc1 (delete (op_ID o) (operators oc1)) in
      (set_operators oc2 (<[op_ID o := o]> (operators oc2)),
       [Log LInfo "replica set is removed , replace the old one"; Call old OnTaskRemoved])
  | None => (set_operators oc (<[op_ID o := o]> (operators oc)), [])
  end.

(** The loop shared by the three Remove* entry points:
    [for _, replicaSet := range removed { oc.removeReplicaSet(NewRemoveDispatcherOperator(db, replicaSet)) }]. *)
Definition removeReplicaSets (removed : list SpanReplication) (oc : Controller)
  : Controller * list Event :=
  foldl (λ acc replicaSet,
           let '(oc', evs) := removeReplicaSet (NewRemoveDispatcherOperator replicaSet) acc.1 in
           (oc', acc.2 ++ evs))
        (oc, []) removed.

Definition RemoveAllTasks (oc : Controller) : Controller * list Event :=
  let '(removed, db) := TryRemoveAll (replicationDB oc) in
  removeReplicaSets removed (set_db oc db).

Definition RemoveTasksBySchemaID (schemaID : Z) (oc : Controller) : Controller * list Event :=
  let '(removed, db) := TryRemoveBySchemaID schemaID (replicationDB oc) in
  removeReplicaSets removed (set_db oc db).

Definition RemoveTasksByTableIDs (tables : list Z) (oc : Controller) : Controller * list Event :=
  let '(removed, db) := TryRemoveByTableIDs tables (replicationDB oc) in
  removeReplicaSets removed (set_db oc db).

(** AddOperator adds an operator to the controller; if the operator already
    exists, return false.  [now] is the reading of time.Now(). *)
Definition AddOperator (now : Z) (o : Operator) (oc : Controller)
  : bool * Controller * list Event :=
  match operators oc !! op_ID o with
  | Some _ =>
      (false, oc, [Log LInfo "add operator failed, operator already exists"])
  | None =>
      match GetTaskByID (replicationDB oc) (op_ID o) with
      | None => (false, oc, [Log LWarn "add operator failed, span not found"])
      | Some span =>
          let oc1 := set_operators oc (<[op_ID o := o]> (operators oc)) in
          let oc2 := call o Start oc1 in
          (true, set_queue oc2 (heapPush (mkOperatorWithTime o now) (runningQueue oc2)),
           [Log LInfo "add operator to running queue"; Call o Start])
      end
  end.

Definition GetOperator (oc : Controller) (id : DispatcherID) : option Operator :=
  operators oc !! id.

Definition OperatorSize (oc : Controller) : nat := size (operators oc).

(** pollQueueingOperator returns the operator to execute; "next" is true when
    another attempt may find one.  [isFinished] is what each operator answers
    to IsFinished() at the time of the call. *)
Definition pollQueueingOperator (isFinished : Operator → bool) (now : Z) (oc : Controller)
  : (option Operator * bool) * Controller * list Event :=
  match heapPop (runningQueue oc) with
  | None => ((None, false), oc, [])
  | Some (item, q) =>
      let oc0 := set_queue oc q in
      let o := op item in
      let opID := op_ID o in
      if isFinished o then
        let oc1 := call o PostFinish oc0 in
        ((None, true), set_operators oc1 (delete opID (operators oc1)),
         [Call o PostFinish; Log LInfo "operator finished"])
      else if bool_decide (now < time item)%Z then
        ((None, false), set_queue oc0 (heapPush item q), [])
      else
        let item' := mkOperatorWithTime o (now + Millisecond * 500)%Z in
        ((Some o, true), set_queue oc0 (heapPush item' q), [])
  end.

End Methods.

(** Every operator sits in the map under its own ID. *)
Definition keyed (oc : Controller) : Prop :=
  ∀ k o, operators oc !! k = Some o → op_ID o = k.

(** The operators the controller holds for one dispatcher. *)
Definition operatorsFor (oc : Controller) (d : DispatcherID) : list (DispatcherID * Operator) :=
  filter (λ p, op_ID p.2 = d) (map_to_list (operators oc)).

(** A controller over one absent span, holding an add operator for it. *)
Definition noEffect (o : Operator) (m : Method) (db : ReplicationDB) : ReplicationDB := db.

Definition span1 : SpanReplication :=
  mkSpanReplication (mkDispatcherID 0 1) (mkTableSpan 1 "" "") "test" 1 "" Absent 1.

Definition addOp1 : Operator := mkOperator AddDispatcher (mkDispatcherID 0 1) "add dispatcher".

Definition oc0 : Controller :=
  NewOperatorController "test" (AddAbsentReplicaSet span1 NewReplicaSetDB) 1000.

Definition oc1 : Controller := (AddOperator noEffect 0 addOp1 oc0).1.2.

End Operator.

(** ** pkg/messaging: target.go, newMessage *)

Module Target.

(** messaging.TargetMessage as target.go fills it, and proto.Message. *)
Record TargetMessage (Payload : Type) := mkTargetMessage {
  From : string;
  To : string;
  Topic : string;
  Epoch : N;
  Sequence : N;
  Type_ : Z;
  Message : list Payload;
}.
Arguments From {_} _.
Arguments To {_} _.
Arguments Topic {_} _.
Arguments Epoch {_} _.
Arguments Sequence {_} _.
Arguments Type_ {_} _.
Arguments Message {_} _.

Record protoMessage := mkProtoMessage {
  pFrom : string;
  pTo : string;
  pEpoch : N;
  pTopic : string;
  pType : Z;
  pPayload : list (list Byte.byte);
}.

(** The fields of remoteMessageTarget that newMessage reads. *)
Record remoteMessageTarget := mkRemoteMessageTarget {
  messageCenterID : string;
  messageCenterEpoch : N;
  targetId : string;
}.

Section NewMessage.

(** The payload type and its Marshal method; [None] is an error. *)
Variable Payload : Type.
Variable Marshal : Payload → option (list Byte.byte).

(** The inner loop: marshal every message of one TargetMessage after the
    bytes gathered so far. *)
Definition marshalInto (msgBytes : M (list (list Byte.byte))) (tm : TargetMessage Payload)
  : M (list (list Byte.byte)) :=
  foldl (λ acc im,
           bytes ← acc;
           match Marshal im with
           | None => logPanic "marshal message failed "
           | Some buf => mret (bytes ++ [buf])
           end) msgBytes (Message tm).

(** newMessage; [msg[0]] of an empty argument list is a run-time panic. *)
Definition newMessage (s : remoteMessageTarget) (msg : list (TargetMessage Payload))
  : M protoMessage :=
  msgBytes ← foldl marshalInto (mret []) msg;
  match msg with
  | [] => logPanic "index out of range [0] with length 0"
  | first :: _ =>
      mret (mkProtoMessage (messageCenterID s) (targetId s) (messageCenterEpoch s)
              (Topic first) (Type_ first) msgBytes)
  end.

End NewMessage.

(** Two messages for one target, on different topics. *)
Definition sampleTarget : remoteMessageTarget := mkRemoteMessageTarget "node-a" 3 "node-b".

Definition sampleMessages : list (TargetMessage (list Byte.byte)) :=
  [mkTargetMessage _ "" "" "heartbeat" 0 0 1 [[Byte.x01]; [Byte.x02]];
   mkTargetMessage _ "" "" "command" 0 0 2 [[Byte.x03]]].

End Target.

(** ** The maintainer's controller and the barrier block event *)

Module Maintainer.
Import Replica.

(** Modelled from the spec: the maintainer's Controller (NewController,
    AddNewTable, GetTasksBySchemaID, GetTasksByTableIDs) is missing from the
    tree; only its test is there.  It owns the operator controller, which
    holds the one replication DB both share, and hands out the DispatcherIDs
    of the spans it creates. *)
Record Controller := mkController {
  changefeedID : string;
  operatorController : Operator.Controller;
  nextDispatcherID : N;
}.

(** Modelled from the spec: the controller's replicationDB field is the DB of
    its operator controller. *)
Definition replicationDB (c : Controller) : ReplicationDB :=
  Operator.replicationDB (operatorController c).

(** Modelled from the spec: NewController starts from an empty DB and an empty
    operator controller. *)
Definition NewController (cf : string) (batchSize : Z) : Controller :=
  mkController cf (Operator.NewOperatorController cf NewReplicaSetDB batchSize) 1.

(** Modelled from the spec: the operator controller is shared, so what it
    does to itself and to the DB shows in the controller. *)
Definition set_oc (c : Controller) (oc : Operator.Controller) : Controller :=
  mkController (changefeedID c) oc (nextDispatcherID c).

(** Modelled from the spec: "allocate a new SpanReplication and insert
    absent" (section 4.4, phase 2, step 1). *)
Definition AddNewTable (table : Table) (startTs : N) (c : Controller) : Controller :=
  let span := mkSpanReplication (mkDispatcherID 0 (nextDispatcherID c))
                (mkTableSpan (tbl_TableID table) "" "") (changefeedID c)
                (tbl_SchemaID table) "" Absent startTs in
  mkController (changefeedID c)
    (Operator.set_db (operatorController c) (AddAbsentReplicaSet span (replicationDB c)))
    (nextDispatcherID c + 1)%N.

(** Modelled from the spec: the controller's GetTasksBySchemaID asks the DB. *)
Definition GetTasksBySchemaID (c : Controller) (schemaID : Z) : list SpanReplication :=
  Replica.GetTasksBySchemaID (replicationDB c) schemaID.

(** Modelled from the spec: the controller's GetTasksByTableIDs asks the DB. *)
Definition GetTasksByTableIDs (c : Controller) (tableIDs : list Z) : list SpanReplication :=
  Replica.GetTasksByTableIDs (replicationDB c) tableIDs.

(** Modelled from the spec: UpdateSchemaID on the controller's DB. *)
Definition UpdateSchemaID (tableID newSchemaID : Z) (c : Controller) : Controller :=
  set_oc c (Operator.set_db (operatorController c)
              (Replica.UpdateSchemaID tableID newSchemaID (replicationDB c))).

(** Modelled from the spec: the BlockEvent of section 3, "identified by
    (changefeedID, blockTs)", holding the influenced dispatchers, the tables
    to add and drop, the writer dispatcher and the flags selected,
    writerDispatcherAdvanced, lastResendTime.  barrier_event.go is missing
    from the tree. *)
Record BarrierEvent := mkBarrierEvent {
  cfID : string;
  commitTs : N;
  blockedDispatchers : InfluencedTables;
  dropDispatchers : option InfluencedTables;
  newTables : list Table;
  schemaIDChange : list SchemaIDChange;
  writerDispatcher : DispatcherID;
  selected : bool;
  writerDispatcherAdvanced : bool;
  lastResendTime : Z;
}.

(** Modelled from the spec: NewBlockEvent takes the reported State; the flags
    start false and lastResendTime at the zero time.  A nil BlockTables reads
    as the zero message, as protobuf getters do. *)
Definition NewBlockEvent (cf : string) (status : State) : BarrierEvent :=
  mkBarrierEvent cf (BlockTs status)
    (default (mkInfluencedTables All [] 0) (BlockTables status))
    (NeedDroppedTables status) (NeedAddedTables status) (UpdatedSchemas status)
    (mkDispatcherID 0 0) false false 0.

(** Modelled from the spec: assignments to the fields the test sets
    (selected, writerDispatcherAdvanced, writerDispatcher, lastResendTime). *)
Definition set_selected (e : BarrierEvent) (b : bool) : BarrierEvent :=
  mkBarrierEvent (cfID e) (commitTs e) (blockedDispatchers e) (dropDispatchers e)
    (newTables e) (schemaIDChange e) (writerDispatcher e) b
    (writerDispatcherAdvanced e) (lastResendTime e).
Definition set_writerDispatcherAdvanced (e : BarrierEvent) (b : bool) : BarrierEvent :=
  mkBarrierEvent (cfID e) (commitTs e) (blockedDispatchers e) (dropDispatchers e)
    (newTables e) (schemaIDChange e) (writerDispatcher e) (selected e) b (lastResendTime e).
Definition set_writerDispatcher (e : BarrierEvent) (d : DispatcherID) : BarrierEvent :=
  mkBarrierEvent (cfID e) (commitTs e) (blockedDispatchers e) (dropDispatchers e)
    (newTables e) (schemaIDChange e) d (selected e)
    (writerDispatcherAdvanced e) (lastResendTime e).
Definition set_lastResendTime (e : BarrierEvent) (t : Z) : BarrierEvent :=
  mkBarrierEvent (cfID e) (commitTs e) (blockedDispatchers e) (dropDispatchers e)
    (newTables e) (schemaIDChange e) (writerDispatcher e) (selected e)
    (writerDispatcherAdvanced e) t.

Section Schedule.

Variable effect : Operator.Operator → Operator.Method → ReplicationDB → ReplicationDB.

(** Modelled from the spec: "Apply structural changes first.  For every table
    in NeedDroppedTables, schedule a Remove operator.  For every table in
    NeedAddedTables, allocate a new SpanReplication and insert absent.  For
    every entry in UpdatedSchemas, call UpdateSchemaID." *)
Definition dropTables (e : BarrierEvent) (c : Controller) : Controller :=
  match dropDispatchers e with
  | None => c
  | Some drop =>
      let oc := operatorController c in
      set_oc c
        (match it_InfluenceType drop with
         | All => Operator.RemoveAllTasks effect oc
         | DB => Operator.RemoveTasksBySchemaID effect (it_SchemaID drop) oc
         | Normal => Operator.RemoveTasksByTableIDs effect (it_TableIDs drop) oc
         end).1
  end.

(** Modelled from the spec: the tables of NeedAddedTables, added with the
    event's commit ts. *)
Definition addTables (e : BarrierEvent) (c : Controller) : Controller :=
  foldl (λ acc table, AddNewTable table (commitTs e) acc) c (newTables e).

(** Modelled from the spec: UpdateSchemaID for every entry of
    UpdatedSchemas. *)
Definition updateSchemas (e : BarrierEvent) (c : Controller) : Controller :=
  foldl (λ acc change, UpdateSchemaID (sc_TableID change) (sc_NewSchemaID change) acc)
        c (schemaIDChange e).

(** Modelled from the spec: scheduleBlockEvent, drops first, then adds, then
    schema updates. *)
Definition scheduleBlockEvent (e : BarrierEvent) (c : Controller) : Controller :=
  updateSchemas e (addTables e (dropTables e c)).

End Schedule.

(** messaging.NewTargetMessage is declared outside the tree.  Its callers
    (part_001, lines 55 and 81) give it the node to send to, the topic and
    the one message; the IOType it records for the message is [ioType], and
    the fields it is not given are left at their zero values. *)
Definition NewTargetMessage {Payload} (ioType : Z) (to topic : string) (m : Payload)
  : Target.TargetMessage Payload :=
  Target.mkTargetMessage Payload "" to topic 0 0 ioType [m].

(** Modelled from the spec: "every 500 ms". *)
Definition resendWindow : Z := Operator.Millisecond * 500.

(** Modelled from the spec: the node a dispatcher runs on, empty when the
    dispatcher is bound to none or is not known. *)
Definition nodeOf (c : Controller) (d : DispatcherID) : string :=
  match GetTaskByID (replicationDB c) d with
  | Some span => nodeID span
  | None => ""
  end.

(** Modelled from the spec: influence resolution (section 4.4, phase 1):
    Normal is the enumerated tables, DB every span currently in that schema,
    All every span. *)
Definition influenced (e : BarrierEvent) (c : Controller) : list SpanReplication :=
  let blocked := blockedDispatchers e in
  match it_InfluenceType blocked with
  | All => GetAllTasks (replicationDB c)
  | DB => GetTasksBySchemaID c (it_SchemaID blocked)
  | Normal => GetTasksByTableIDs c (it_TableIDs blocked)
  end.

(** Modelled from the spec: the passers are "the remaining influenced
    dispatchers", the influenced ones but the writer. *)
Definition passers (e : BarrierEvent) (c : Controller) : list SpanReplication :=
  filter (λ span, ID span ≠ writerDispatcher e) (influenced e c).

(** Modelled from the spec: the nodes the passers run on, each once; a
    passer bound to no node cannot be sent to. *)
Definition passerNodes (e : BarrierEvent) (c : Controller) : list string :=
  remove_dups (filter (λ node, node ≠ "") (nodeID <$> passers e c)).

(** Modelled from the spec: DispatcherAction{Write, CommitTs = BlockTs} for
    the writer dispatcher. *)
Definition writeResponse (e : BarrierEvent) : HeartBeatResponse :=
  mkHeartBeatResponse (cfID e)
    [mkDispatcherStatus
       (mkInfluencedDispatchers Normal [writerDispatcher e] 0 None)
       (Some (mkDispatcherAction Write (commitTs e))) None].

(** Modelled from the spec: the influence of the Pass reuses the original
    InfluenceType, and names dispatchers one by one only for Normal: the
    dispatchers of the enumerated tables, the writer left out. *)
Definition passInfluence (e : BarrierEvent) (c : Controller) : InfluencedDispatchers :=
  let blocked := blockedDispatchers e in
  match it_InfluenceType blocked with
  | All => mkInfluencedDispatchers All [] 0 (Some (writerDispatcher e))
  | DB => mkInfluencedDispatchers DB [] (it_SchemaID blocked) (Some (writerDispatcher e))
  | Normal =>
      mkInfluencedDispatchers Normal
        (filter (λ d, d ≠ writerDispatcher e)
                (ID <$> GetTasksByTableIDs c (it_TableIDs blocked)))
        0 None
  end.

(** Modelled from the spec: DispatcherAction{Pass, CommitTs = BlockTs},
    "carried in a single HeartBeatResponse". *)
Definition passResponse (e : BarrierEvent) (c : Controller) : HeartBeatResponse :=
  mkHeartBeatResponse (cfID e)
    [mkDispatcherStatus (passInfluence e c)
       (Some (mkDispatcherAction Pass (commitTs e))) None].

Section Resend.

(** Modelled from the spec: the heartbeat topic of the changefeed and the
    IOType of a HeartBeatResponse, which the description does not name. *)
Variable topic : string.
Variable ioType : Z.

(** Modelled from the spec: the Write goes "to the writer", that is to the
    node the writer dispatcher runs on. *)
Definition newWriterActionMessage (e : BarrierEvent) (c : Controller)
  : list (Target.TargetMessage HeartBeatResponse) :=
  [NewTargetMessage ioType (nodeOf c (writerDispatcher e)) topic (writeResponse e)].

(** Modelled from the spec: the Pass goes "to passers": the one response is
    sent to every node a passer runs on. *)
Definition newPassActionMessage (e : BarrierEvent) (c : Controller)
  : list (Target.TargetMessage HeartBeatResponse) :=
  (λ node, NewTargetMessage ioType node topic (passResponse e c)) <$> passerNodes e c.

(** Modelled from the spec: the resend policy of section 4.4.  No resend if
    selected = false, none if lastResendTime is within the window; then
    the Write goes to the writer until writerDispatcherAdvanced, and the
    Pass to the passers after.  [now] is the reading of the clock. *)
Definition resend (now : Z) (e : BarrierEvent) (c : Controller)
  : list (Target.TargetMessage HeartBeatResponse) * BarrierEvent :=
  if negb (selected e) then ([], e)
  else if bool_decide (now - lastResendTime e < resendWindow)%Z then ([], e)
  else
    let e' := set_lastResendTime e now in
    if negb (writerDispatcherAdvanced e) then (newWriterActionMessage e c, e')
    else (newPassActionMessage e c, e').

End Resend.

(** Modelled from the spec: the DispatcherIDs AddNewTable hands out for the
    next [n] tables. *)
Definition allocated (c : Controller) (n : nat) : list DispatcherID :=
  (λ i, mkDispatcherID 0 (nextDispatcherID c + N.of_nat i)) <$> seq 0 n.

(** Modelled from the spec: the IDs handed out so far are below
    nextDispatcherID, so the next ones are not among the absent spans. *)
Definition fresh (c : Controller) : Prop :=
  ∀ n, (nextDispatcherID c ≤ n)%N → mkDispatcherID 0 n ∉ absent (replicationDB c).

(** Modelled from the spec: the spans NeedDroppedTables names, as the
    TryRemove* call of its influence type finds them. *)
Definition dropped (e : BarrierEvent) (c : Controller) : list SpanReplication :=
  match dropDispatchers e with
  | None => []
  | Some drop =>
      match it_InfluenceType drop with
      | All => GetAllTasks (replicationDB c)
      | DB => GetTasksBySchemaID c (it_SchemaID drop)
      | Normal => GetTasksByTableIDs c (it_TableIDs drop)
      end
  end.

(** The scenarios of barrier_event_test.go. *)
Definition afterAddTable : Controller :=
  AddNewTable (mkTable 1 1) 1 (NewController "test" 1000).

Definition dropAllEvent : BarrierEvent :=
  NewBlockEvent "test"
    (mkState true 10 None (Some (mkInfluencedTables All [] 0))
       [mkTable 2 1; mkTable 3 1] []).

Definition dropSchemaEvent : BarrierEvent :=
  NewBlockEvent "test"
    (mkState true 10 None (Some (mkInfluencedTables DB [] 1)) [mkTable 4 1] []).

Definition dropTablesEvent : BarrierEvent :=
  NewBlockEvent "test"
    (mkState true 10 None (Some (mkInfluencedTables Normal [4%Z] 0)) [mkTable 5 1] []).

(** A table of another schema, absent when the event that drops schema 1
    arrives. *)
Definition otherSchema : Controller :=
  AddNewTable (mkTable 7 2) 1 (NewController "test" 1000).

Definition updateSchemaEvent : BarrierEvent :=
  NewBlockEvent "test"
    (mkState true 10 (Some (mkInfluencedTables All [] 0)) None []
       [mkSchemaIDChange 1 1 2]).

(** Two tables; then, as TestResendAction does with the absent spans, both
    bound to node1 and marked replicating. *)
Definition twoTables : Controller :=
  AddNewTable (mkTable 2 1) 1 (AddNewTable (mkTable 1 1) 1 (NewController "test" 1000)).

Definition bindAbsent (node : string) (c : Controller) : Controller :=
  foldl (λ acc stm,
           set_oc acc (Operator.set_db (operatorController acc)
                         (MarkSpanReplicating stm
                            (BindSpanToNode "" node stm (replicationDB acc)))))
        c (spansOf (replicationDB c) (absent (replicationDB c))).

Definition onNode1 : Controller := bindAbsent "node1" twoTables.

Definition blockEventOn (blocked : InfluencedTables) : BarrierEvent :=
  NewBlockEvent "test" (mkState true 10 (Some blocked) None [] []).

Definition writerPending : BarrierEvent :=
  set_writerDispatcher (set_selected (blockEventOn (mkInfluencedTables All [] 0)) true)
    (mkDispatcherID 0 1).

Definition passSchema : BarrierEvent :=
  set_writerDispatcherAdvanced
    (set_selected (blockEventOn (mkInfluencedTables DB [] 1)) true) true.

Definition passAll : BarrierEvent :=
  set_writerDispatcherAdvanced
    (set_selected (blockEventOn (mkInfluencedTables All [] 1)) true) true.

Definition passTables : BarrierEvent :=
  set_writerDispatcherAdvanced
    (set_selected (blockEventOn (mkInfluencedTables Normal [1; 2]%Z 1)) true) true.

(** One second after the zero time. *)
Definition laterOn : Z := 1000000000.

End Maintainer.

(** ** coordinator.Supervisor: Schedule *)

Module Supervisor.

Definition wrapInt (z : Z) : Z := ((z + 2 ^ 63) `mod` 2 ^ 64 - 2 ^ 63)%Z.

Inductive Event (ScheduleTask : Type) :=
  | Log (lv : Level) (msg : string)
  | HandleScheduleTasks (tasks : list ScheduleTask).
Arguments Log {_} _ _.
Arguments HandleScheduleTasks {_} _.

Section Sup.

(** common.MaintainerID, scheduler.Inferior, CaptureStatus,
    scheduler.StateMachine, ScheduleTask and messaging.TargetMessage are
    declared outside the tree. *)
Context `{Countable MaintainerID}.
Variable Inferior CaptureStatus StateMachine ScheduleTask TargetMessage : Type.

(** The Scheduler interface: its Schedule method. *)
Definition Scheduler : Type :=
  gmap MaintainerID Inferior → gmap string CaptureStatus →
  gmap MaintainerID StateMachine → Z → list ScheduleTask.

Record Supervisor := mkSupervisor {
  StateMachines : gmap MaintainerID StateMachine;
  RunningTasks : gmap MaintainerID ScheduleTask;
  maxTaskConcurrency : Z;
  schedulers : list Scheduler;
  captures : gmap string CaptureStatus;
  initialized : bool;
}.

Definition set_RunningTasks (s : Supervisor) (r : gmap MaintainerID ScheduleTask) :=
  mkSupervisor (StateMachines s) r (maxTaskConcurrency s) (schedulers s)
               (captures s) (initialized s).

(** The methods of StateMachine and Supervisor that Schedule calls and the
    tree does not define.  checkRunningTasks calls GetSchedulingMessage on
    the nil pointer of a missing map entry too (line 201): what the method
    does with a nil receiver, a nil pointer dereference or an answer, is
    [GetSchedulingMessageOfNil]. *)
Variable HasRemoved : StateMachine → bool.
Variable isWorking : StateMachine → bool.   (* State == SchedulerStatusWorking *)
Variable GetSchedulingMessage : StateMachine → option TargetMessage.
Variable GetSchedulingMessageOfNil : Abort + option TargetMessage.
Variable CheckAllCaptureInitialized : Supervisor → bool.
Variable GetAllCaptures : Supervisor → gmap string CaptureStatus.
Variable GetInferiors : Supervisor → gmap MaintainerID StateMachine.
Variable handleScheduleTasks : list ScheduleTask → Supervisor → Supervisor.

(** schedule: the first scheduler of the chain with a non-empty answer. *)
Fixpoint scheduleChain (chain : list Scheduler)
    (allInferiors : gmap MaintainerID Inferior)
    (aliveCaptures : gmap string CaptureStatus)
    (stateMachines : gmap MaintainerID StateMachine)
    (maxTaskCount : Z) : list ScheduleTask :=
  match chain with
  | [] => []
  | sched :: rest =>
      let tasks := sched allInferiors aliveCaptures stateMachines maxTaskCount in
      if decide (length tasks ≠ 0) then tasks
      else scheduleChain rest allInferiors aliveCaptures stateMachines maxTaskCount
  end.

Definition schedule (s : Supervisor) := scheduleChain (schedulers s).

Definition taskDone (s : Supervisor) (id : MaintainerID) : bool :=
  match StateMachines s !! id with
  | None => true
  | Some stateMachine => HasRemoved stateMachine || isWorking stateMachine
  end.

(** [stateMachine.GetSchedulingMessage()] for the task [id]: the state
    machine is the map entry, nil when there is none. *)
Definition schedulingMessage (s : Supervisor) (id : MaintainerID)
  : Abort + option TargetMessage :=
  match StateMachines s !! id with
  | Some stateMachine => inr (GetSchedulingMessage stateMachine)
  | None => GetSchedulingMessageOfNil
  end.

(** The first loop of checkRunningTasks, as far as the messages go: the
    non-nil answers in the order of the visit, or the panic of the first call
    that panics. *)
Fixpoint collectMessages (s : Supervisor) (ids : list MaintainerID)
  : Abort + list TargetMessage :=
  match ids with
  | [] => inr []
  | id :: rest =>
      match schedulingMessage s id with
      | inl p => inl p
      | inr msg =>
          match collectMessages s rest with
          | inl p => inl p
          | inr msgs => inr (option_list msg ++ msgs)
          end
      end
  end.

(** checkRunningTasks: drop the running tasks that are finished, collect the
    scheduling message of every running task.  The deletions come after the
    loop, so a panic in the loop leaves the supervisor as it was. *)
Definition checkRunningTasks (s : Supervisor)
  : Abort + (list TargetMessage * Supervisor * list (Event ScheduleTask)) :=
  let ids := (map_to_list (RunningTasks s)).*1 in
  let toBeDeleted := filter (λ id, taskDone s id = true) ids in
  match collectMessages s ids with
  | inl p => inl p
  | inr msgs =>
      inr (msgs,
           set_RunningTasks s (foldl (λ m cf, delete cf m) (RunningTasks s) toBeDeleted),
           (λ _, Log LInfo "schedule finished, remove running task") <$> toBeDeleted)
  end.

Definition lenRunningTasks (s : Supervisor) : Z := Z.of_nat (size (RunningTasks s)).

Definition Schedule (allInferiors : gmap MaintainerID Inferior) (s : Supervisor)
  : Abort + (list TargetMessage * Supervisor * list (Event ScheduleTask)) :=
  match checkRunningTasks s with
  | inl p => inl p
  | inr (msgs, s1, evs) =>
      if negb (CheckAllCaptureInitialized s1) then
        inr (msgs, s1,
             evs ++ [Log LInfo "skip scheduling since not all captures are initialized"])
      else
        let maxTaskCount := wrapInt (maxTaskConcurrency s1 - lenRunningTasks s1) in
        if bool_decide (maxTaskCount ≤ 0)%Z then
          inr (msgs, s1,
               evs ++ [Log LWarn "Skip scheduling since there are too many running task"])
        else
          let tasks :=
            schedule s1 allInferiors (GetAllCaptures s1) (GetInferiors s1) maxTaskCount in
          inr (msgs, handleScheduleTasks tasks s1, evs ++ [HandleScheduleTasks tasks])
  end.

(** The task lists handed to handleScheduleTasks. *)
Definition handled (evs : list (Event ScheduleTask)) : list (list ScheduleTask) :=
  omap (λ e, match e with HandleScheduleTasks tasks => Some tasks | Log _ _ => None end) evs.

End Sup.

(** A supervisor over maintainers named by strings, with two schedulers: the
    first has nothing to do, the second proposes up to three tasks and cuts
    its answer at maxTaskCount. *)
Definition idleScheduler : Scheduler (MaintainerID := string) unit unit unit string :=
  λ _ _ _ _, [].

Definition eagerScheduler : Scheduler (MaintainerID := string) unit unit unit string :=
  λ _ _ _ maxTaskCount, take (Z.to_nat maxTaskCount) ["cf-a"; "cf-b"; "cf-c"].

Definition sampleSupervisor : Supervisor (MaintainerID := string) unit unit unit string :=
  mkSupervisor unit unit unit string {["cf-0" := tt]} {["cf-0" := "cf-0"]} 3
    [idleScheduler; eagerScheduler] ∅ true.

Definition sampleHandle (tasks : list string)
    (s : Supervisor (MaintainerID := string) unit unit unit string) :=
  set_RunningTasks unit unit unit string s
    (foldl (λ m t, <[t := t]> m) (RunningTasks unit unit unit string s) tasks).

(** A state machine that is still scheduling answers with a message, and the
    method dereferences its receiver. *)
Definition sampleMessage (sm : unit) : option string := Some "still scheduling".

Definition nilDereference : Abort + option string :=
  inl (Panic "invalid memory address or nil pointer dereference").

Definition sampleSchedule
    (s : Supervisor (MaintainerID := string) unit unit unit string) :=
  Schedule unit unit unit string string
    (λ _, false) (λ _, false) sampleMessage nilDereference
    (initialized unit unit unit string) (captures unit unit unit string)
    (StateMachines unit unit unit string) sampleHandle ∅ s.

(** The same supervisor with no room left: one task is running and the
    limit is one. *)
Definition fullSupervisor : Supervisor (MaintainerID := string) unit unit unit string :=
  mkSupervisor unit unit unit string {["cf-0" := tt]} {["cf-0" := "cf-0"]} 1
    [idleScheduler; eagerScheduler] ∅ true.

(** A supervisor with a running task that has no state machine. *)
Definition orphanSupervisor : Supervisor (MaintainerID := string) unit unit unit string :=
  mkSupervisor unit unit unit string ∅ {["cf-0" := "cf-0"]} 3
    [idleScheduler; eagerScheduler] ∅ true.



End Supervisor.

Arguments Supervisor.StateMachines {_ _ _ _ _ _ _} _.
Arguments Supervisor.RunningTasks {_ _ _ _ _ _ _} _.
Arguments Supervisor.maxTaskConcurrency {_ _ _ _ _ _ _} _.
Arguments Supervisor.schedulers {_ _ _ _ _ _ _} _.
Arguments Supervisor.captures {_ _ _ _ _ _ _} _.
Arguments Supervisor.initialized {_ _ _ _ _ _ _} _.
Arguments Supervisor.lenRunningTasks {_ _ _ _ _ _ _} _.
Arguments Supervisor.handled {_} _.

(** ** schemastore: histories of DDLs *)

Arguments SchemaStore.set_pendingDDLs {_ _} _ _.
Arguments SchemaStore.set_initialized {_ _} _ _.
Arguments SchemaStore.setTableInfoInitialized {_ _} _ _ _.
Arguments SchemaStore.applyDDLFromPersistStorage {_ _} _ _ _ _.
Arguments SchemaStore.addInitialTableInfo {_ _} _ _ _.
Arguments SchemaStore.assertNonDeleted {_ _} _.

Module SchemaStoreHistory.
Import SchemaStore.

(** Versions go strictly up along the slice: what the first guard of
    doApplyDDL asks of every DDL it lets through. *)
Definition increasing {TableInfo} (l : list (tableInfoItem TableInfo)) : Prop :=
  ∀ (i j : nat) a b, l !! i = Some a → l !! j = Some b → i < j → (version a < version b)%N.

(** Calling [f] on the store for each event in turn, as a caller's loop
    does; a panic ends the run. *)
Definition applyEach {TableInfo RawTableInfo}
    (f : versionedTableInfoStore TableInfo RawTableInfo →
         PersistedDDLEvent RawTableInfo → M (versionedTableInfoStore TableInfo RawTableInfo))
    (v : versionedTableInfoStore TableInfo RawTableInfo)
    (events : list (PersistedDDLEvent RawTableInfo)) :=
  foldl (λ acc event, w ← acc; f w event) (mret v) events.

(** A table still waiting for its snapshot, and a drop of table 1 at ts 12. *)
Definition waitingStore : versionedTableInfoStore string unit :=
  newEmptyVersionedTableInfoStore string unit 1.

Definition dropDDL : PersistedDDLEvent unit :=
  mkDDL ActionDropTable 1 1 "test" "drop table t1" 5 12%N tt.

End SchemaStoreHistory.

(** ** operator.Controller: Execute and the running queue *)

Module OperatorExecute.
Import Replica Operator.

(** What Execute does besides changing the controller: what its polls did,
    the Schedule calls, and the commands handed to the message center. *)
Inductive ExecEvent (Msg : Type) :=
  | Ctl (e : Event)
  | SendCommand (msg : Msg).
Arguments Ctl {_} _.
Arguments SendCommand {_} _.

Definition isScheduleCall {Msg} (e : ExecEvent Msg) : bool :=
  match e with
  | Ctl (Call _ Schedule) => true
  | _ => false
  end.

(** The number of operators an Execute has scheduled. *)
Definition scheduledCount {Msg} (evs : list (ExecEvent Msg)) : nat :=
  length (filter (λ e, isScheduleCall e = true) evs).




Section Execute.

(** messaging.TargetMessage, what [r.Schedule()] returns for each operator
    (nil is [None]), what each operator answers to IsFinished() during the
    k-th turn of the loop, and the readings of time.Now() in that turn: by
    pollQueueingOperator, and by Execute when it returns. *)
Variable Msg : Type.
Variable effect : Operator → Method → ReplicationDB → ReplicationDB.
Variable scheduleMsg : Operator → option Msg.
Variable isFinished : nat → Operator → bool.
Variable now : nat → Z.
Variable later : nat → Z.

(** Execute: the loop, [k] turns in and with [executedItem] operators
    scheduled so far.  The error of SendCommand is dropped, as in the
    source. *)
Fixpoint executeLoop (fuel k : nat) (executedItem : Z) (oc : Controller)
    (evs : list (ExecEvent Msg)) : option (Z * Controller * list (ExecEvent Msg)) :=
  match fuel with
  | O => None
  | S fuel' =>
      let '(r, next, oc1, pevs) := pollQueueingOperator effect (isFinished k) (now k) oc in
      let evs1 := evs ++ (Ctl <$> pevs) in
      if negb next then Some ((later k + Millisecond * 200)%Z, oc1, evs1)
      else
        match r with
        | None => executeLoop fuel' (S k) executedItem oc1 evs1
        | Some o =>
            let oc2 := call effect o Schedule oc1 in
            let evs2 := evs1 ++ Ctl (Call o Schedule)
                             :: match scheduleMsg o with
                                | Some msg => [SendCommand msg]
                                | None => []
                                end in
            let executedItem' := (executedItem + 1)%Z in
            if bool_decide (batchSize oc ≤ executedItem')%Z then
              Some ((later k + Millisecond * 50)%Z, oc2, evs2)
            else executeLoop fuel' (S k) executedItem' oc2 evs2
        end
  end.

(** Every turn that does not return takes an entry off the queue or counts
    one more scheduled operator, so this many turns are enough. *)
Definition Execute (oc : Controller) : option (Z * Controller * list (ExecEvent Msg)) :=
  executeLoop (S (length (runningQueue oc) + Z.to_nat (batchSize oc))) 0 0 oc [].

End Execute.

(** The running queue holds at most one entry per dispatcher, and only for
    dispatchers that have an operator in the map. *)
Definition queueWellFormed (oc : Controller) : Prop :=
  NoDup ((op_ID ∘ op) <$> runningQueue oc)
  ∧ ∀ item, item ∈ runningQueue oc → is_Some (operators oc !! op_ID (op item)).

(** Two operators queued on [oc0]: one for a second span, due at time 0. *)
Definition span2 : SpanReplication :=
  mkSpanReplication (mkDispatcherID 0 2) (mkTableSpan 2 "" "") "test" 1 "" Absent 1.

Definition addOp2 : Operator := mkOperator AddDispatcher (mkDispatcherID 0 2) "add dispatcher".

Definition oc2 : Controller :=
  (AddOperator noEffect 0 addOp2
     (set_db oc1 (AddAbsentReplicaSet span2 (replicationDB oc1)))).1.2.

End OperatorExecute.

(** ** pkg/sink/codec/open: the open-protocol messages *)

Module OpenProtocol.

(** model.MessageType of the upstream codec. *)
Inductive MessageType := MessageTypeUnknown | MessageTypeRow | MessageTypeDDL | MessageTypeResolved.

(** internal.MessageKey, with the fields these functions fill in. *)
Record MessageKey := mkMessageKey {
  Ts : N;
  Schema : string;
  Table : string;
  Partition : option Z;
  Type_ : MessageType;
  OnlyHandleKey : bool;
}.

(** ticommon.Config, with the switches rowChangeToMsg reads. *)
Record Config := mkConfig {
  DeleteOnlyHandleKeyColumns : bool;
  OpenOutputOldValue : bool;
  OnlyOutputUpdatedColumns : bool;
}.

Definition newResolvedMessage (ts : N) : MessageKey :=
  mkMessageKey ts "" "" None MessageTypeResolved false.

Section Rows.

(** common.Column and internal.Column are declared outside the tree: the
    sink column with its name and its handle-key flag, the codec column with
    its SQL type, the comparison of two column values, and the conversion
    between the two. *)
Variable Column CodecColumn : Type.
Variable colName : Column → string.
Variable IsHandleKey : Column → bool.
Variable FromRowChangeColumn : Column → CodecColumn.
Variable colType : CodecColumn → Z.
Variable IsColumnValueEqual : CodecColumn → CodecColumn → bool.

(** A nil map and an empty one are both [∅]: the functions below only ever
    ask for the length, and return nil for empty. *)
Record messageRow := mkMessageRow {
  Update : gmap string CodecColumn;
  PreColumns : gmap string CodecColumn;
  Delete : gmap string CodecColumn;
}.

(** The body of the loop of rowChangeColumns2CodecColumns; a nil pointer in
    the slice is [None]. *)
Definition toCodecStep (onlyHandleKeyColumns : bool) (jsonCols : gmap string CodecColumn)
    (col : option Column) : gmap string CodecColumn :=
  match col with
  | None => jsonCols
  | Some c =>
      if onlyHandleKeyColumns && negb (IsHandleKey c) then jsonCols
      else <[colName c := FromRowChangeColumn c]> jsonCols
  end.

Definition rowChangeColumns2CodecColumns (cols : list (option Column))
    (onlyHandleKeyColumns : bool) : gmap string CodecColumn :=
  foldl (toCodecStep onlyHandleKeyColumns) ∅ cols.

(** The body of the loop of dropNotUpdatedColumns, for one entry of Update. *)
Definition dropStep (pre : gmap string CodecColumn) (entry : string * CodecColumn)
  : gmap string CodecColumn :=
  let '(col, value) := entry in
  match pre !! col with
  | None => pre
  | Some oldValue =>
      if bool_decide (colType value ≠ colType oldValue) then pre
      else if IsColumnValueEqual oldValue value then delete col pre
      else pre
  end.

(** dropNotUpdatedColumns: if the column is not updated, do not output it.
    The loop ranges over Update and deletes from PreColumns. *)
Definition dropNotUpdatedColumns (m : messageRow) : messageRow :=
  mkMessageRow (Update m) (foldl dropStep (PreColumns m) (map_to_list (Update m))) (Delete m).

(** common.RowChangedEvent: what rowChangeToMsg reads from it, with the
    answers of IsDelete() and IsUpdate(). *)
Record RowChangedEvent := mkRowChangedEvent {
  CommitTs : N;
  SchemaName : string;
  TableName : string;
  IsPartitionTable : bool;
  GetTableID : Z;
  IsDelete : bool;
  IsUpdate : bool;
  GetColumns : list (option Column);
  GetPreColumns : list (option Column);
}.

Definition emptyRow : messageRow := mkMessageRow ∅ ∅ ∅.

Definition rowChangeToMsg (e : RowChangedEvent) (config : Config)
    (largeMessageOnlyHandleKeyColumns : bool) : string + (MessageKey * messageRow) :=
  let partition := if IsPartitionTable e then Some (GetTableID e) else None in
  let key := mkMessageKey (CommitTs e) (SchemaName e) (TableName e) partition
               MessageTypeRow largeMessageOnlyHandleKeyColumns in
  if IsDelete e then
    let onlyHandleKeyColumns :=
      DeleteOnlyHandleKeyColumns config || largeMessageOnlyHandleKeyColumns in
    let del := rowChangeColumns2CodecColumns (GetPreColumns e) onlyHandleKeyColumns in
    if onlyHandleKeyColumns && bool_decide (size del = 0) then
      inl "not found handle key columns for the delete event"
    else inr (key, mkMessageRow ∅ ∅ del)
  else if IsUpdate e then
    let upd := rowChangeColumns2CodecColumns (GetColumns e) largeMessageOnlyHandleKeyColumns in
    let pre := if OpenOutputOldValue config
               then rowChangeColumns2CodecColumns (GetPreColumns e)
                      largeMessageOnlyHandleKeyColumns
               else ∅ in
    if largeMessageOnlyHandleKeyColumns
       && (bool_decide (size upd = 0)
           || (bool_decide (size pre = 0) && OpenOutputOldValue config)) then
      inl "not found handle key columns for the update event"
    else
      let value := mkMessageRow upd pre ∅ in
      inr (key, if OnlyOutputUpdatedColumns config then dropNotUpdatedColumns value else value)
  else
    let upd := rowChangeColumns2CodecColumns (GetColumns e) largeMessageOnlyHandleKeyColumns in
    if largeMessageOnlyHandleKeyColumns && bool_decide (size upd = 0) then
      inl "not found handle key columns for the insert event"
    else inr (key, mkMessageRow upd ∅ ∅).

(** The slice has a handle-key column. *)
Definition hasHandleKey (cols : list (option Column)) : Prop :=
  ∃ c, Some c ∈ cols ∧ IsHandleKey c = true.

(** The columns of a slice that rowChangeColumns2CodecColumns lets through. *)
Definition outputColumn (onlyHandleKeyColumns : bool) (col : option Column) : Prop :=
  ∃ c, col = Some c ∧ (onlyHandleKeyColumns = true → IsHandleKey c = true).

End Rows.

(** A row of two columns, [id] the handle key, with strings for values. *)
Record sampleColumn := mkSampleColumn { sc_name : string; sc_key : bool; sc_value : string }.

Definition sampleFrom (c : sampleColumn) : Z * string := (15%Z, sc_value c).

Definition sampleUpdate : RowChangedEvent sampleColumn :=
  mkRowChangedEvent sampleColumn 100 "test" "t1" false 1 false true
    [Some (mkSampleColumn "id" true "1"); None; Some (mkSampleColumn "v" false "new")]
    [Some (mkSampleColumn "id" true "1"); Some (mkSampleColumn "v" false "old")].

Definition sampleRowToMsg :=
  rowChangeToMsg sampleColumn (Z * string) sc_name sc_key sampleFrom fst
    (λ a b, bool_decide (a.2 = b.2)).

(** The same update seen without its handle key, and the configuration that
    outputs old values and drops the columns that did not change. *)
Definition sampleNoKey : RowChangedEvent sampleColumn :=
  mkRowChangedEvent sampleColumn 100 "test" "t1" false 1 false true
    [Some (mkSampleColumn "v" false "new")] [Some (mkSampleColumn "v" false "old")].

Definition sampleConfig : Config := mkConfig false true true.

End OpenProtocol.

(** * Properties *)

(** ** sort.Search finds the boundary of a monotone predicate *)

Lemma half_between (i j : nat) : i < j → i ≤ (i + j) / 2 < j.
Proof.
  intros Hij. split.
  - apply Nat.div_le_lower_bound; lia.
  - apply Nat.Div0.div_lt_upper_bound; lia.
Qed.

(** The fuel is enough: once it covers [j - i], more of it changes nothing,
    whatever the predicate. *)
Lemma searchLoop_enough (f : nat → bool) (fuel fuel' i j : nat) :
  j - i ≤ fuel → j - i ≤ fuel' → searchLoop fuel f i j = searchLoop fuel' f i j.
Proof.
  revert fuel' i j.
  induction fuel as [|fuel IH]; intros fuel' i j Hf Hf'.
  - destruct fuel' as [|fuel']; cbn [searchLoop]; [done|].
    destruct (decide (i < j)); [lia|done].
  - destruct fuel' as [|fuel']; cbn [searchLoop].
    + destruct (decide (i < j)); [lia|done].
    + destruct (decide (i < j)) as [Hlt|]; [|done]. cbv zeta.
      pose proof (half_between i j Hlt) as [Hh1 Hh2].
      destruct (f ((i + j) / 2)); cbn [negb]; apply IH; lia.
Qed.

Lemma searchLoop_boundary (f : nat → bool) (n : nat) :
  (∀ a b, a ≤ b → b < n → f a = true → f b = true) →
  ∀ fuel i j,
    j - i ≤ fuel → i ≤ j → j ≤ n →
    (∀ k, k < i → f k = false) →
    (∀ k, j ≤ k → k < n → f k = true) →
    let r := searchLoop fuel f i j in
    r ≤ n ∧ (∀ k, k < r → f k = false) ∧ (∀ k, r ≤ k → k < n → f k = true).
Proof.
  intros Hmono fuel.
  induction fuel as [|fuel IH]; intros i j Hfuel Hij Hjn Hlo Hhi; cbn [searchLoop].
  - assert (i = j) by lia. subst. split; [lia|]. split; auto.
  - destruct (decide (i < j)) as [Hlt|Hge]; cbv zeta.
    + pose proof (half_between i j Hlt) as [Hh1 Hh2].
      destruct (f ((i + j) / 2)) eqn:Hf; cbn [negb].
      * apply IH; try lia; auto.
        intros k Hk1 Hk2. apply (Hmono ((i + j) / 2) k); auto.
      * apply IH; try lia; auto.
        intros k Hk. destruct (f k) eqn:Hfk; auto.
        rewrite <- Hf. symmetry. apply (Hmono k ((i + j) / 2)); auto; lia.
    + assert (i = j) by lia. subst. split; [lia|]. split; auto.
Qed.

Lemma Search_boundary (f : nat → bool) (n : nat) :
  (∀ a b, a ≤ b → b < n → f a = true → f b = true) →
  let r := Search n f in
  r ≤ n ∧ (∀ k, k < r → f k = false) ∧ (∀ k, r ≤ k → k < n → f k = true).
Proof.
  intros Hmono. unfold Search.
  apply (searchLoop_boundary f n Hmono n 0 n); lia.
Qed.

(** ** The versioned table-info store *)

Module SchemaStoreFacts.
Import SchemaStore.

Section Facts.

Context {TableInfo RawTableInfo : Type}.
Context (WrapTableInfo : Z → string → N → RawTableInfo → TableInfo).
Context (InitPreSQLs : TableInfo → TableInfo).

Abbreviation item := (tableInfoItem TableInfo).
Abbreviation store := (versionedTableInfoStore TableInfo RawTableInfo).
Abbreviation event := (PersistedDDLEvent RawTableInfo).

Lemma versionAfter_mono (l : list item) ts :
  ordered l →
  ∀ a b, a ≤ b → b < length l → versionAfter l ts a = true → versionAfter l ts b = true.
Proof.
  intros Hord a b Hab Hb. unfold versionAfter.
  destruct (l !! a) as [ia|] eqn:Ha; [|discriminate].
  destruct (lookup_lt_is_Some_2 l b Hb) as [ib Hib]. rewrite Hib.
  rewrite !bool_decide_eq_true. intros Hlt.
  pose proof (Hord a b ia ib Ha Hib Hab). lia.
Qed.

Lemma Search_is_boundary (l : list item) ts :
  ordered l → boundary l ts (Search (length l) (versionAfter l ts)).
Proof.
  intros Hord.
  destruct (Search_boundary (versionAfter l ts) (length l) (versionAfter_mono l ts Hord))
    as (Hle & Hlo & Hhi).
  split; [exact Hle|]. split.
  - intros k it Hk Hit. specialize (Hlo k Hk). unfold versionAfter in Hlo.
    rewrite Hit in Hlo. apply bool_decide_eq_false in Hlo. lia.
  - intros k it Hk Hit. pose proof (lookup_lt_Some _ _ _ Hit) as Hlen.
    specialize (Hhi k Hk Hlen). unfold versionAfter in Hhi.
    rewrite Hit in Hhi. by apply bool_decide_eq_true in Hhi.
Qed.

Lemma boundary_unique (l : list item) ts r1 r2 :
  boundary l ts r1 → boundary l ts r2 → r1 = r2.
Proof.
  intros (Hl1 & Hlo1 & Hhi1) (Hl2 & Hlo2 & Hhi2).
  destruct (decide (r1 = r2)) as [|Hne]; [done|exfalso].
  destruct (decide (r1 < r2)).
  - destruct (lookup_lt_is_Some_2 l r1) as [it Hit]; [lia|].
    pose proof (Hlo2 r1 it ltac:(lia) Hit). pose proof (Hhi1 r1 it ltac:(lia) Hit). lia.
  - destruct (lookup_lt_is_Some_2 l r2) as [it Hit]; [lia|].
    pose proof (Hlo1 r2 it ltac:(lia) Hit). pose proof (Hhi2 r2 it ltac:(lia) Hit). lia.
Qed.

Lemma boundary_zero (l : list item) ts r :
  boundary l ts r → (r = 0 ↔ ∀ it, it ∈ l → (ts < version it)%N).
Proof.
  intros (Hl & Hlo & Hhi). split.
  - intros -> it [k Hk]%list_elem_of_lookup. apply (Hhi k it); [lia|done].
  - intros Hall. destruct r as [|r]; [done|exfalso].
    destruct (lookup_lt_is_Some_2 l 0) as [it Hit]; [lia|].
    pose proof (Hlo 0 it ltac:(lia) Hit).
    pose proof (Hall it (list_elem_of_lookup_2 _ _ _ Hit)). lia.
Qed.

Lemma ordered_drop (l : list item) k : ordered l → ordered (drop k l).
Proof.
  intros Hord i j a b Ha Hb Hij. rewrite lookup_drop in Ha, Hb.
  apply (Hord (k + i) (k + j) a b Ha Hb). lia.
Qed.

Lemma boundary_drop (l : list item) ts r k :
  k ≤ r → boundary l ts r → boundary (drop k l) ts (r - k).
Proof.
  intros Hk (Hl & Hlo & Hhi). split; [rewrite length_drop; lia|]. split.
  - intros i it Hi Hit. rewrite lookup_drop in Hit. apply (Hlo (k + i) it); [lia|done].
  - intros i it Hi Hit. rewrite lookup_drop in Hit. apply (Hhi (k + i) it); [lia|done].
Qed.

Lemma boundary_le (l : list item) ts1 ts2 r1 r2 :
  (ts1 ≤ ts2)%N → boundary l ts1 r1 → boundary l ts2 r2 → r1 ≤ r2.
Proof.
  intros Hts (Hl1 & Hlo1 & Hhi1) (Hl2 & Hlo2 & Hhi2).
  destruct (decide (r1 ≤ r2)) as [|Hgt]; [done|exfalso].
  destruct (lookup_lt_is_Some_2 l r2) as [it Hit]; [lia|].
  pose proof (Hlo1 r2 it ltac:(lia) Hit). pose proof (Hhi2 r2 it ltac:(lia) Hit). lia.
Qed.

Lemma getTableInfo_unfold (v : store) ts :
  initialized v = true → (ts < deleteVersion v)%N →
  getTableInfo v ts =
    let target := Search (length (infos v)) (versionAfter (infos v) ts) in
    if decide (target = 0) then ([mkLog LError "no version found"], inr (inl errNoVersion))
    else match infos v !! (target - 1) with
         | Some it => ret (inr (info it))
         | None => logPanic "index out of range"
         end.
Proof.
  intros Hinit Hdel. unfold getTableInfo. rewrite Hinit. cbn [negb].
  rewrite bool_decide_eq_false_2 by lia. cbv zeta.
  destruct (decide (Search _ _ = 0)); reflexivity.
Qed.

(** C7. On an initialized store whose infos are ordered by version,
    getTableInfo(ts) answers with an error exactly when the table is deleted
    at or before ts (deleteVersion <= ts) or no stored version is <= ts;
    in every other case it returns, without panicking, the info of a stored
    entry whose version is the largest one <= ts. *)
Theorem getTableInfo_largest_version (v : store) (ts : N) :
  initialized v = true →
  ordered (infos v) →
  let deleted := (deleteVersion v ≤ ts)%N in
  let no_version := ∀ it, it ∈ infos v → (ts < version it)%N in
  ((∃ e, outcome (getTableInfo v ts) = inr (inl e)) ↔ deleted ∨ no_version)
  ∧ (¬ (deleted ∨ no_version) →
     ∃ it, getTableInfo v ts = ret (inr (info it))
           ∧ it ∈ infos v ∧ (version it ≤ ts)%N
           ∧ ∀ it', it' ∈ infos v → (version it' ≤ ts)%N → (version it' ≤ version it)%N).
Proof.
  intros Hinit Hord deleted no_version. subst deleted no_version.
  pose proof (Search_is_boundary (infos v) ts Hord) as Hb.
  pose proof (boundary_zero _ _ _ Hb) as Hzero.
  destruct (decide (deleteVersion v ≤ ts)%N) as [Hdel|Hdel].
  { split; [|intros Hn; exfalso; apply Hn; by left].
    split; [by left|]. intros _. exists errDeleted.
    unfold getTableInfo. rewrite Hinit. cbn [negb].
    by rewrite bool_decide_eq_true_2. }
  rewrite getTableInfo_unfold by (done || lia). cbv zeta.
  destruct Hb as (Hlen & Hlo & Hhi).
  destruct (decide (Search (length (infos v)) (versionAfter (infos v) ts) = 0)) as [Hz|Hnz].
  { split; [|intros Hn; exfalso; apply Hn; right; by apply Hzero].
    split; [intros _; right; by apply Hzero|]. intros _. by exists errNoVersion. }
  set (r := Search (length (infos v)) (versionAfter (infos v) ts)) in *.
  destruct (lookup_lt_is_Some_2 (infos v) (r - 1)) as [it Hit]; [lia|].
  rewrite Hit. split.
  - split.
    + intros [e He]. discriminate He.
    + intros [Hd|Hnv]; [done|]. exfalso. apply Hnz. by apply Hzero.
  - intros _. exists it. split; [done|]. split; [by eapply list_elem_of_lookup_2|].
    split; [apply (Hlo (r - 1) it); [lia|done]|].
    intros it' [k Hk]%list_elem_of_lookup Hle.
    destruct (decide (k < r)) as [Hkr|Hkr].
    + apply (Hord k (r - 1) it' it Hk Hit). lia.
    + pose proof (Hhi k it' ltac:(lia) Hk). lia.
Qed.

Lemma orderedb_cons (a : item) (l : list item) :
  orderedb (a :: l) = true →
  orderedb l = true ∧ ∀ b, l !! 0 = Some b → (version a ≤ version b)%N.
Proof.
  destruct l as [|b tl]; cbn [orderedb].
  - intros _. split; [done|]. intros b Hb. discriminate Hb.
  - intros [Hab Htl]%andb_true_iff. apply bool_decide_eq_true in Hab.
    split; [done|]. intros b' Hb'. cbn in Hb'. by simplify_eq.
Qed.

Lemma orderedb_ordered (l : list item) : orderedb l = true → ordered l.
Proof.
  induction l as [|a l IH]; intros Hb i j x y Hx Hy Hij.
  { discriminate Hx. }
  destruct (orderedb_cons a l Hb) as [Hl Hhd]. specialize (IH Hl).
  assert (Hfirst : ∀ k z, l !! k = Some z → (version a ≤ version z)%N).
  { intros k z Hz. destruct (lookup_lt_is_Some_2 l 0) as [b Hb0].
    { apply lookup_lt_Some in Hz. lia. }
    pose proof (Hhd b Hb0). pose proof (IH 0 k b z Hb0 Hz ltac:(lia)). lia. }
  destruct i as [|i], j as [|j]; cbn in Hx, Hy; simplify_eq; try lia.
  - by eapply Hfirst.
  - apply (IH i j x y Hx Hy). lia.
Qed.

(** C10. On an initialized, non-empty store ordered by version, gc(gcTs)
    returns a store that is not empty and whose infos are a suffix of the old
    ones: only entries with version <= gcTs are dropped, every entry with a
    later version stays, and so does an entry with the largest version
    <= gcTs when there is one.  Nothing else changes, and for every
    ts >= gcTs getTableInfo(ts) gives the same answer after as before. *)
Theorem gc_preserves_reads (v : store) (gcTs : N) :
  initialized v = true →
  infos v ≠ [] →
  ordered (infos v) →
  ∃ v' k,
    gc v gcTs = ret v'
    ∧ infos v' ≠ []
    ∧ infos v' = drop k (infos v)
    ∧ (∀ i it, i < k → infos v !! i = Some it → (version it ≤ gcTs)%N)
    ∧ (∀ it, it ∈ infos v → (gcTs < version it)%N → it ∈ infos v')
    ∧ ((∃ it, it ∈ infos v ∧ (version it ≤ gcTs)%N) →
       ∃ it, infos v' !! 0 = Some it ∧ (version it ≤ gcTs)%N
             ∧ ∀ it', it' ∈ infos v → (version it' ≤ gcTs)%N → (version it' ≤ version it)%N)
    ∧ tableID v' = tableID v ∧ deleteVersion v' = deleteVersion v
    ∧ initialized v' = true ∧ pendingDDLs v' = pendingDDLs v
    ∧ ∀ ts, (gcTs ≤ ts)%N → getTableInfo v' ts = getTableInfo v ts.
Proof.
  intros Hinit Hne Hord.
  pose proof (Search_is_boundary (infos v) gcTs Hord) as Hb.
  pose proof (boundary_zero _ _ _ Hb) as Hzero.
  assert (Hlen : length (infos v) ≠ 0) by (destruct (infos v); [done|cbn; lia]).
  unfold gc. rewrite Hinit. cbn [negb].
  destruct (decide (length (infos v) = 0)) as [|_]; [done|]. cbv zeta.
  set (r := Search (length (infos v)) (versionAfter (infos v) gcTs)) in *.
  destruct (decide (r = 0)) as [Hr|Hr].
  - exists v, 0. rewrite drop_0. repeat split; try done.
    + intros i it Hi. lia.
    + intros (it & Hin & Hle). pose proof (proj1 Hzero Hr it Hin). lia.
  - destruct Hb as (Hrl & Hlo & Hhi).
    exists (set_infos v (drop (r - 1) (infos v))), (r - 1).
    unfold set_infos. cbn [infos tableID deleteVersion initialized pendingDDLs].
    destruct (lookup_lt_is_Some_2 (infos v) (r - 1)) as [top Htop]; [lia|].
    repeat split; try done.
    + intros Hnil. apply (f_equal length) in Hnil. rewrite length_drop in Hnil.
      cbn in Hnil. lia.
    + intros i it Hi Hit. apply (Hlo i it); [lia|done].
    + intros it [i Hi]%list_elem_of_lookup Hlt.
      assert (r ≤ i).
      { destruct (decide (r ≤ i)); [done|]. pose proof (Hlo i it ltac:(lia) Hi). lia. }
      apply list_elem_of_lookup. exists (i - (r - 1)). rewrite lookup_drop.
      by replace (r - 1 + (i - (r - 1))) with i by lia.
    + intros _. exists top. rewrite lookup_drop, Nat.add_0_r. split; [done|].
      split; [apply (Hlo (r - 1) top); [lia|done]|].
      intros it' [i Hi]%list_elem_of_lookup Hle.
      destruct (decide (i < r)).
      * apply (Hord i (r - 1) it' top Hi Htop). lia.
      * pose proof (Hhi i it' ltac:(lia) Hi). lia.
    + intros ts Hts. unfold getTableInfo.
      cbn [infos tableID deleteVersion initialized pendingDDLs].
      rewrite Hinit. cbn [negb].
      destruct (bool_decide (deleteVersion v ≤ ts)%N); [done|].
      pose proof (Search_is_boundary (infos v) ts Hord) as Hbt.
      pose proof (boundary_le _ _ _ _ _ Hts (conj Hrl (conj Hlo Hhi)) Hbt) as Hrt.
      fold r in Hrt.
      pose proof (Search_is_boundary (drop (r - 1) (infos v)) ts
                    (ordered_drop _ (r - 1) Hord)) as Hbd.
      assert (Hk : r - 1 ≤ Search (length (infos v)) (versionAfter (infos v) ts)) by lia.
      pose proof (boundary_drop _ ts _ (r - 1) Hk Hbt) as Hbd'.
      pose proof (boundary_unique _ _ _ _ Hbd Hbd') as Heq.
      rewrite Heq.
      set (rt := Search (length (infos v)) (versionAfter (infos v) ts)) in *.
      destruct (decide (rt - (r - 1) = 0)) as [|_]; [lia|].
      destruct (decide (rt = 0)) as [|_]; [lia|].
      rewrite lookup_drop.
      by replace (r - 1 + (rt - (r - 1) - 1)) with (rt - 1) by lia.
Qed.

Lemma finishedNotAfterLast_spec (v : store) (ev : event) :
  finishedNotAfterLast v ev = true ↔
  ∃ lv, lastVersion (infos v) = Some lv ∧ (ev_FinishedTs ev ≤ lv)%N.
Proof.
  unfold finishedNotAfterLast. destruct (lastVersion (infos v)) as [lv|].
  - rewrite bool_decide_eq_true. split; [eauto|]. by intros (? & [= <-] & ?).
  - split; [done|]. by intros (? & ? & _).
Qed.

Lemma lastVersion_nonempty (l : list item) lv : lastVersion l = Some lv → length l ≠ 0.
Proof. destruct l; [done|]. cbn. lia. Qed.

(** What [doApplyDDL] appends is later than everything stored. *)
Lemma ordered_snoc (l : list item) (x : item) :
  ordered l →
  (∀ lv, lastVersion l = Some lv → (lv ≤ version x)%N) →
  ordered (l ++ [x]).
Proof.
  intros Hord Hlast i j a b Ha Hb Hij.
  destruct (decide (j < length l)) as [Hj|Hj].
  - rewrite lookup_app_l in Ha, Hb by lia. by apply (Hord i j).
  - rewrite (lookup_app_r l) in Hb by lia.
    destruct (j - length l) as [|n] eqn:Hjl; [|by destruct n].
    cbn in Hb. simplify_eq.
    destruct (decide (i < length l)) as [Hi|Hi].
    + rewrite lookup_app_l in Ha by lia.
      destruct (last l) as [z|] eqn:Hz.
      * pose proof (Hlast (version z)) as Hzx. unfold lastVersion in Hzx.
        rewrite Hz in Hzx. specialize (Hzx eq_refl).
        rewrite last_lookup in Hz.
        pose proof (Hord i (pred (length l)) a z Ha Hz ltac:(lia)). lia.
      * apply last_None in Hz. subst l. cbn in Hi. lia.
    + rewrite (lookup_app_r l) in Ha by lia.
      replace (i - length l) with 0 in Ha by lia. cbn in Ha. by simplify_eq.
Qed.

Lemma doApplyDDL_ordered (v v' : store) (ev : event) lg :
  ordered (infos v) →
  doApplyDDL WrapTableInfo InitPreSQLs v ev = (lg, inr v') →
  ordered (infos v').
Proof.
  intros Hord. unfold doApplyDDL.
  destruct (bool_decide (length (infos v) ≠ 0) && finishedNotAfterLast v ev) eqn:Hg1;
    [discriminate|].
  destruct (bool_decide (0 < length (infos v)) && finishedNotAfterLast v ev) eqn:Hg2.
  { intros [= _ <-]. done. }
  assert (Hsnoc : ordered (infos (appendInfo WrapTableInfo InitPreSQLs v ev))).
  { unfold appendInfo, set_infos. cbn [infos]. apply ordered_snoc; [done|].
    intros lv Hlv. cbn [version].
    apply andb_false_iff in Hg1 as [Hg1|Hg1].
    - apply bool_decide_eq_false in Hg1. exfalso. apply Hg1.
      by eapply lastVersion_nonempty.
    - unfold finishedNotAfterLast in Hg1. rewrite Hlv in Hg1.
      apply bool_decide_eq_false in Hg1. lia. }
  destruct (ev_Type ev).
  - destruct (decide (length (infos v) = 1)); [intros [= _ <-]; done|].
    unfold assertEmpty. destruct (decide (length (infos v) ≠ 0)); [discriminate|].
    intros [= _ <-]. done.
  - unfold assertNonEmpty. destruct (decide (length (infos v) = 0)); [discriminate|].
    intros [= _ <-]. done.
  - unfold assertNonEmpty. destruct (decide (length (infos v) = 0)); [discriminate|].
    intros [= _ <-]. done.
  - unfold assertNonEmpty. destruct (decide (length (infos v) = 0)); [discriminate|].
    intros [= _ <-]. done.
  - intros [= _ <-]. done.
  - intros [= _ <-]. done.
  - intros [= _ <-]. done.
Qed.

(** C8, as the code has it.  A DDL whose FinishedTs is lower than or equal to
    the version applied last meets the first guard of doApplyDDL and panics
    with "ddl job finished ts should be monotonically increasing": nothing is
    logged and no store comes back.  The "ignore job" branch behind that
    guard is never taken, whatever the store and the event. *)
Theorem doApplyDDL_stale_panics (v : store) (ev : event) (lv : N) :
  lastVersion (infos v) = Some lv →
  (ev_FinishedTs ev ≤ lv)%N →
  doApplyDDL WrapTableInfo InitPreSQLs v ev
    = ([], inl (Panic "ddl job finished ts should be monotonically increasing"))
  ∧ ∀ (w : store) (e : event),
      mkLog LInfo "ignore job" ∉ logs (doApplyDDL WrapTableInfo InitPreSQLs w e).
Proof.
  intros Hlv Hle. split.
  - unfold doApplyDDL.
    rewrite (bool_decide_eq_true_2 _ (lastVersion_nonempty _ _ Hlv)).
    rewrite (proj2 (finishedNotAfterLast_spec v ev)) by eauto. done.
  - intros w e. unfold doApplyDDL.
    destruct (finishedNotAfterLast w e) eqn:Hf.
    + apply finishedNotAfterLast_spec in Hf as (lw & Hlw & _).
      rewrite (bool_decide_eq_true_2 _ (lastVersion_nonempty _ _ Hlw)).
      cbn. apply not_elem_of_nil.
    + rewrite !andb_false_r. unfold assertEmpty, assertNonEmpty, logs.
      destruct (ev_Type e); repeat case_decide; cbn; intros Hin;
        repeat (apply elem_of_cons in Hin as [Hin|Hin]; [discriminate Hin|]);
        by apply elem_of_nil in Hin.
Qed.

End Facts.

Lemma sampleStore_ordered : ordered (infos sampleStore).
Proof. apply orderedb_ordered. reflexivity. Qed.

Lemma getTableInfo_largest_version_witness :
  ((∃ e, outcome (getTableInfo sampleStore 6%N) = inr (inl e)) ↔
     (deleteVersion sampleStore ≤ 6)%N
     ∨ (∀ it, it ∈ infos sampleStore → (6 < version it)%N))
  ∧ (¬ ((deleteVersion sampleStore ≤ 6)%N
        ∨ (∀ it, it ∈ infos sampleStore → (6 < version it)%N)) →
     ∃ it, getTableInfo sampleStore 6%N = ret (inr (info it))
           ∧ it ∈ infos sampleStore ∧ (version it ≤ 6)%N
           ∧ ∀ it', it' ∈ infos sampleStore → (version it' ≤ 6)%N →
                    (version it' ≤ version it)%N).
Proof.
  apply (getTableInfo_largest_version sampleStore 6%N);
    [reflexivity | exact sampleStore_ordered].
Defined.

Lemma gc_preserves_reads_witness :
  ∃ v' k,
    gc sampleStore 8%N = ret v'
    ∧ infos v' ≠ []
    ∧ infos v' = drop k (infos sampleStore)
    ∧ (∀ i it, i < k → infos sampleStore !! i = Some it → (version it ≤ 8)%N)
    ∧ (∀ it, it ∈ infos sampleStore → (8 < version it)%N → it ∈ infos v')
    ∧ ((∃ it, it ∈ infos sampleStore ∧ (version it ≤ 8)%N) →
       ∃ it, infos v' !! 0 = Some it ∧ (version it ≤ 8)%N
             ∧ ∀ it', it' ∈ infos sampleStore → (version it' ≤ 8)%N →
                      (version it' ≤ version it)%N)
    ∧ tableID v' = tableID sampleStore ∧ deleteVersion v' = deleteVersion sampleStore
    ∧ initialized v' = true ∧ pendingDDLs v' = pendingDDLs sampleStore
    ∧ ∀ ts, (8 ≤ ts)%N → getTableInfo v' ts = getTableInfo sampleStore ts.
Proof.
  apply (gc_preserves_reads sampleStore 8%N);
    [reflexivity | discriminate | exact sampleStore_ordered].
Defined.

Lemma doApplyDDL_stale_panics_witness :
  doApplyDDL sampleWrap id sampleStore staleDDL
    = ([], inl (Panic "ddl job finished ts should be monotonically increasing"))
  ∧ ∀ (w : versionedTableInfoStore string unit) (e : PersistedDDLEvent unit),
      mkLog LInfo "ignore job" ∉ logs (doApplyDDL sampleWrap id w e).
Proof.
  apply (doApplyDDL_stale_panics sampleWrap id sampleStore staleDDL 8%N);
    [reflexivity | vm_compute; discriminate].
Defined.

(** C8, as it is written, fails: the stale DDL on [sampleStore] is not
    ignored, the call panics and hands back no store. *)
Lemma doApplyDDL_stale_not_ignored :
  lastVersion (infos sampleStore) = Some 8%N
  ∧ (ev_FinishedTs staleDDL ≤ 8)%N
  ∧ outcome (doApplyDDL sampleWrap id sampleStore staleDDL)
      = inl (Panic "ddl job finished ts should be monotonically increasing")
  ∧ ¬ ∃ lg, doApplyDDL sampleWrap id sampleStore staleDDL = (lg, inr sampleStore).
Proof.
  split; [reflexivity|]. split; [vm_compute; discriminate|]. split; [reflexivity|].
  intros [lg Hlg]. vm_compute in Hlg. discriminate Hlg.
Qed.

(** The sample store at work. *)
Example getTableInfo_between : getTableInfo sampleStore 6%N = ret (inr "t1@5").
Proof. vm_compute. reflexivity. Qed.

Example getTableInfo_at_version : getTableInfo sampleStore 8%N = ret (inr "t1@8").
Proof. vm_compute. reflexivity. Qed.

Example getTableInfo_too_early :
  getTableInfo sampleStore 4%N
  = ([mkLog LError "no version found"], inr (inl "no version found")).
Proof. vm_compute. reflexivity. Qed.

Example getTableInfo_deleted :
  getTableInfo (set_deleteVersion sampleStore 7%N) 7%N = ret (inl "table info deleted").
Proof. vm_compute. reflexivity. Qed.

Example gc_sample :
  gc sampleStore 8%N = ret (set_infos sampleStore [mkItem 8%N "t1@8"]).
Proof. vm_compute. reflexivity. Qed.

Example doApplyDDL_next :
  doApplyDDL sampleWrap id sampleStore nextDDL
  = ret (set_infos sampleStore
           [mkItem 5%N "t1@5"; mkItem 8%N "t1@8"; mkItem 9%N "t1@9"]).
Proof. vm_compute. reflexivity. Qed.

End SchemaStoreFacts.

(** ** The operator controller *)

Module OperatorFacts.
Import Replica Operator.

Section Facts.

Context (effect : Operator → Method → ReplicationDB → ReplicationDB).

Lemma heapPush_elem (x : operatorWithTime) q : x ∈ heapPush x q.
Proof.
  induction q as [|y q IH]; cbn; [apply list_elem_of_singleton; done|].
  case_decide; rewrite elem_of_cons; auto.
Qed.

Lemma removeReplicaSet_operators o oc :
  operators (removeReplicaSet effect o oc).1 = <[op_ID o := o]> (operators oc).
Proof.
  unfold removeReplicaSet. destruct (operators oc !! op_ID o); cbn; [|done].
  apply insert_delete_eq.
Qed.

Lemma removeReplicaSet_events o oc e :
  e ∈ (removeReplicaSet effect o oc).2 →
  e = Log LInfo "replica set is removed , replace the old one"
  ∨ ∃ old, operators oc !! op_ID o = Some old ∧ e = Call old OnTaskRemoved.
Proof.
  unfold removeReplicaSet. destruct (operators oc !! op_ID o) as [old|]; cbn.
  - rewrite !elem_of_cons, elem_of_nil. intros [->|[->|[]]]; eauto.
  - by rewrite elem_of_nil.
Qed.

Lemma keyed_insert oc o :
  keyed oc → keyed (set_operators oc (<[op_ID o := o]> (operators oc))).
Proof.
  intros Hk k o'. cbn. destruct (decide (op_ID o = k)) as [<-|Hne].
  - rewrite lookup_insert_eq. by intros [= <-].
  - rewrite lookup_insert_ne by done. apply Hk.
Qed.

Lemma keyed_delete oc d :
  keyed oc → keyed (set_operators oc (delete d (operators oc))).
Proof.
  intros Hk k o'. cbn. destruct (decide (d = k)) as [<-|Hne].
  - by rewrite lookup_delete_eq.
  - rewrite lookup_delete_ne by done. apply Hk.
Qed.

Lemma keyed_operators oc oc' : operators oc' = operators oc → keyed oc → keyed oc'.
Proof. intros Heq Hk k o. rewrite Heq. apply Hk. Qed.

Lemma removeReplicaSet_keyed o oc : keyed oc → keyed (removeReplicaSet effect o oc).1.
Proof.
  intros Hk k o'. rewrite removeReplicaSet_operators.
  destruct (decide (op_ID o = k)) as [<-|Hne].
  - rewrite lookup_insert_eq. by intros [= <-].
  - rewrite lookup_insert_ne by done. apply Hk.
Qed.

(** The loop, one replica set at a time. *)
Lemma removeReplicaSets_acc rs oc evs0 :
  foldl (λ acc replicaSet,
           let '(oc', evs) :=
             removeReplicaSet effect (NewRemoveDispatcherOperator replicaSet) acc.1 in
           (oc', acc.2 ++ evs))
        (oc, evs0) rs
  = ((removeReplicaSets effect rs oc).1, evs0 ++ (removeReplicaSets effect rs oc).2).
Proof.
  unfold removeReplicaSets. revert oc evs0.
  induction rs as [|r rs IH]; intros oc evs0; cbn [foldl].
  - cbn. by rewrite app_nil_r.
  - cbn [fst snd].
    destruct (removeReplicaSet effect (NewRemoveDispatcherOperator r) oc) as [oc1 e1] eqn:Hr.
    rewrite (IH oc1 (evs0 ++ e1)), (IH oc1 ([] ++ e1)). cbn [fst snd].
    by rewrite <- app_assoc.
Qed.

Lemma removeReplicaSets_cons r rs oc :
  removeReplicaSets effect (r :: rs) oc
  = let step := removeReplicaSet effect (NewRemoveDispatcherOperator r) oc in
    ((removeReplicaSets effect rs step.1).1,
     step.2 ++ (removeReplicaSets effect rs step.1).2).
Proof.
  unfold removeReplicaSets at 1. cbn [foldl fst snd].
  destruct (removeReplicaSet effect (NewRemoveDispatcherOperator r) oc) as [oc1 e1] eqn:Hr.
  rewrite removeReplicaSets_acc. cbn. done.
Qed.

Lemma removeReplicaSets_keyed rs oc : keyed oc → keyed (removeReplicaSets effect rs oc).1.
Proof.
  revert oc. induction rs as [|r rs IH]; intros oc Hk; [done|].
  rewrite removeReplicaSets_cons. cbn. apply IH. by apply removeReplicaSet_keyed.
Qed.

Lemma removeReplicaSets_no_PostFinish rs oc o :
  Call o PostFinish ∉ (removeReplicaSets effect rs oc).2.
Proof.
  revert oc. induction rs as [|r rs IH]; intros oc.
  - cbn. apply not_elem_of_nil.
  - rewrite removeReplicaSets_cons. cbn. rewrite elem_of_app. intros [Hin|Hin].
    + apply removeReplicaSet_events in Hin as [Heq|(old & _ & Heq)]; discriminate Heq.
    + by apply (IH _ Hin).
Qed.

Lemma removeReplicaSets_other rs oc k :
  k ∉ ID <$> rs →
  operators (removeReplicaSets effect rs oc).1 !! k = operators oc !! k.
Proof.
  revert oc. induction rs as [|r rs IH]; intros oc Hk; [done|].
  rewrite removeReplicaSets_cons. cbn [fst snd].
  rewrite fmap_cons, not_elem_of_cons in Hk. destruct Hk as [Hne Hk].
  rewrite (IH _ Hk), removeReplicaSet_operators. cbn.
  by rewrite lookup_insert_ne.
Qed.

Lemma removeReplicaSets_installs rs oc r :
  NoDup (ID <$> rs) → r ∈ rs →
  operators (removeReplicaSets effect rs oc).1 !! ID r = Some (NewRemoveDispatcherOperator r).
Proof.
  revert oc. induction rs as [|h rs IH]; intros oc Hnd Hin.
  { by apply elem_of_nil in Hin. }
  rewrite fmap_cons in Hnd. apply NoDup_cons in Hnd as [Hh Hnd].
  rewrite removeReplicaSets_cons. cbn [fst snd].
  apply elem_of_cons in Hin as [->|Hin].
  - rewrite (removeReplicaSets_other _ _ _ Hh), removeReplicaSet_operators. cbn.
    by rewrite lookup_insert_eq.
  - by apply IH.
Qed.

Lemma removeReplicaSets_notifies rs oc r old :
  NoDup (ID <$> rs) → r ∈ rs → operators oc !! ID r = Some old →
  Call old OnTaskRemoved ∈ (removeReplicaSets effect rs oc).2.
Proof.
  revert oc. induction rs as [|h rs IH]; intros oc Hnd Hin Hold.
  { by apply elem_of_nil in Hin. }
  rewrite fmap_cons in Hnd. apply NoDup_cons in Hnd as [Hh Hnd].
  rewrite removeReplicaSets_cons. cbn [fst snd]. rewrite elem_of_app.
  apply elem_of_cons in Hin as [->|Hin].
  - left. unfold removeReplicaSet. cbn [op_ID NewRemoveDispatcherOperator].
    rewrite Hold. cbn. rewrite !elem_of_cons. auto.
  - right. apply IH; [done..|].
    rewrite removeReplicaSet_operators. cbn.
    rewrite lookup_insert_ne; [done|].
    intros Heq. apply Hh. rewrite Heq. by apply list_elem_of_fmap_2.
Qed.

Lemma operatorsFor_elem oc d p :
  keyed oc → p ∈ operatorsFor oc d → p.1 = d ∧ operators oc !! d = Some p.2.
Proof.
  intros Hk [Hid Hin]%list_elem_of_filter. destruct p as [k o]. cbn in *.
  apply elem_of_map_to_list in Hin. pose proof (Hk k o Hin) as Hko.
  assert (k = d) as -> by congruence. done.
Qed.

Lemma operatorsFor_length oc d : keyed oc → length (operatorsFor oc d) ≤ 1.
Proof.
  intros Hk.
  assert (Hnd : NoDup (operatorsFor oc d)).
  { apply NoDup_filter, NoDup_map_to_list. }
  destruct (operatorsFor oc d) as [|a [|b l]] eqn:Hl; cbn; [lia..|exfalso].
  assert (Ha : a ∈ operatorsFor oc d) by (rewrite Hl; apply elem_of_cons; auto).
  assert (Hb : b ∈ operatorsFor oc d).
  { rewrite Hl. apply elem_of_cons. right. apply elem_of_cons. auto. }
  destruct (operatorsFor_elem _ _ _ Hk Ha) as [Ha1 Ha2].
  destruct (operatorsFor_elem _ _ _ Hk Hb) as [Hb1 Hb2].
  assert (a = b).
  { destruct a, b. cbn in *. congruence. }
  subst b. apply NoDup_cons in Hnd as [Hnot _]. apply Hnot, elem_of_cons. auto.
Qed.

Lemma AddOperator_keyed now o oc : keyed oc → keyed (AddOperator effect now o oc).1.2.
Proof.
  intros Hk. unfold AddOperator.
  destruct (operators oc !! op_ID o); [done|].
  destruct (GetTaskByID (replicationDB oc) (op_ID o)); [|done].
  cbn. intros k o'. cbn. apply (keyed_insert oc o Hk).
Qed.

Lemma pollQueueingOperator_keyed fin now oc :
  keyed oc → keyed (pollQueueingOperator effect fin now oc).1.2.
Proof.
  intros Hk. unfold pollQueueingOperator.
  destruct (heapPop (runningQueue oc)) as [[item q]|]; [|done].
  destruct (fin (op item)); [|case_bool_decide; exact Hk].
  cbn. intros k o'. cbn. apply (keyed_delete oc (op_ID (op item)) Hk).
Qed.

(** C3. The controller keeps every operator under its own DispatcherID, so
    it holds at most one operator per DispatcherID.  A fresh controller is in
    that state, and AddOperator, pollQueueingOperator, removeReplicaSet and
    the three Remove* entry points built on it keep it; AddOperator leaves
    the map as it is when the ID already has an operator. *)
Theorem operator_singleton (oc : Controller) :
  keyed oc →
  (∀ d, length (operatorsFor oc d) ≤ 1)
  ∧ (∀ cf db batch, keyed (NewOperatorController cf db batch))
  ∧ (∀ now o, keyed (AddOperator effect now o oc).1.2)
  ∧ (∀ now o, is_Some (operators oc !! op_ID o) →
              operators (AddOperator effect now o oc).1.2 = operators oc)
  ∧ (∀ fin now, keyed (pollQueueingOperator effect fin now oc).1.2)
  ∧ (∀ o, keyed (removeReplicaSet effect o oc).1)
  ∧ keyed (RemoveAllTasks effect oc).1
  ∧ (∀ schema, keyed (RemoveTasksBySchemaID effect schema oc).1)
  ∧ (∀ tables, keyed (RemoveTasksByTableIDs effect tables oc).1).
Proof.
  intros Hk. repeat split.
  - intros d. by apply operatorsFor_length.
  - intros cf db batch k o. cbn. by rewrite lookup_empty.
  - intros now o. by apply AddOperator_keyed.
  - intros now o [old Hold]. unfold AddOperator. by rewrite Hold.
  - intros fin now. by apply pollQueueingOperator_keyed.
  - intros o. by apply removeReplicaSet_keyed.
  - unfold RemoveAllTasks, TryRemoveAll, tryRemove. by apply removeReplicaSets_keyed.
  - intros schema. unfold RemoveTasksBySchemaID, TryRemoveBySchemaID, tryRemove.
    by apply removeReplicaSets_keyed.
  - intros tables. unfold RemoveTasksByTableIDs, TryRemoveByTableIDs, tryRemove.
    by apply removeReplicaSets_keyed.
Qed.

(** C4. When the replica sets taken out of the replication DB are turned
    into remove operators and one of them meets an operator already held for
    its DispatcherID, that old operator gets OnTaskRemoved, no operator gets
    PostFinish during the call, and afterwards the map holds the new remove
    operator under that ID.  RemoveAllTasks, RemoveTasksBySchemaID and
    RemoveTasksByTableIDs are this loop over what TryRemove* returned. *)
Theorem remove_operator_supersedes (oc : Controller) (removed : list SpanReplication)
    (r : SpanReplication) (old : Operator) :
  NoDup (ID <$> removed) →
  r ∈ removed →
  operators oc !! ID r = Some old →
  (Call old OnTaskRemoved ∈ (removeReplicaSets effect removed oc).2
   ∧ (∀ o, Call o PostFinish ∉ (removeReplicaSets effect removed oc).2)
   ∧ operators (removeReplicaSets effect removed oc).1 !! ID r
       = Some (NewRemoveDispatcherOperator r)
   ∧ (removeReplicaSet effect (NewRemoveDispatcherOperator r) oc).2
       = [Log LInfo "replica set is removed , replace the old one"; Call old OnTaskRemoved])
  ∧ (∀ c : Controller,
       RemoveAllTasks effect c
         = removeReplicaSets effect (TryRemoveAll (replicationDB c)).1
             (set_db c (TryRemoveAll (replicationDB c)).2)
       ∧ (∀ schema, RemoveTasksBySchemaID effect schema c
            = removeReplicaSets effect (TryRemoveBySchemaID schema (replicationDB c)).1
                (set_db c (TryRemoveBySchemaID schema (replicationDB c)).2))
       ∧ (∀ tables, RemoveTasksByTableIDs effect tables c
            = removeReplicaSets effect (TryRemoveByTableIDs tables (replicationDB c)).1
                (set_db c (TryRemoveByTableIDs tables (replicationDB c)).2))).
Proof.
  intros Hnd Hin Hold. split; [|done].
  split; [by apply (removeReplicaSets_notifies removed oc r)|].
  split; [intros o; apply removeReplicaSets_no_PostFinish|].
  split; [by apply removeReplicaSets_installs|].
  unfold removeReplicaSet. cbn [op_ID NewRemoveDispatcherOperator]. by rewrite Hold.
Qed.

(** C5. AddOperator(op) returns false and hands back the controller as it
    was, calling no method of any operator, when the map already has an
    operator for op.ID() or the replication DB has no span with that ID.
    Otherwise it returns true: op is in the map under its ID, Start was
    called on it, and (op, now) is in the running queue. *)
Theorem AddOperator_rejects_or_installs (now : Z) (o : Operator) (oc : Controller) :
  (is_Some (operators oc !! op_ID o) ∨ GetTaskByID (replicationDB oc) (op_ID o) = None →
   ∃ evs, AddOperator effect now o oc = (false, oc, evs) ∧ ∀ o' m, Call o' m ∉ evs)
  ∧ (operators oc !! op_ID o = None →
     is_Some (GetTaskByID (replicationDB oc) (op_ID o)) →
     ∃ oc', AddOperator effect now o oc
              = (true, oc', [Log LInfo "add operator to running queue"; Call o Start])
            ∧ operators oc' = <[op_ID o := o]> (operators oc)
            ∧ replicationDB oc' = effect o Start (replicationDB oc)
            ∧ runningQueue oc' = heapPush (mkOperatorWithTime o now) (runningQueue oc)
            ∧ mkOperatorWithTime o now ∈ runningQueue oc').
Proof.
  unfold AddOperator. split.
  - intros Hrej. destruct (operators oc !! op_ID o) as [old|] eqn:Hold.
    + eexists. split; [done|]. intros o' m.
      rewrite list_elem_of_singleton. discriminate.
    + destruct Hrej as [[? [=]]|Hnone]. rewrite Hnone.
      eexists. split; [done|]. intros o' m.
      rewrite list_elem_of_singleton. discriminate.
  - intros Hnone [span Hspan]. rewrite Hnone, Hspan.
    eexists. split; [done|]. cbn. repeat split. apply heapPush_elem.
Qed.

End Facts.

Lemma oc1_keyed : keyed oc1.
Proof.
  apply AddOperator_keyed. intros k o. cbn. by rewrite lookup_empty.
Qed.

Lemma oc1_holds_addOp1 : operators oc1 !! ID span1 = Some addOp1.
Proof. vm_compute. reflexivity. Qed.

Lemma operator_singleton_witness :
  (∀ d, length (operatorsFor oc1 d) ≤ 1)
  ∧ (∀ cf db batch, keyed (NewOperatorController cf db batch))
  ∧ (∀ now o, keyed (AddOperator noEffect now o oc1).1.2)
  ∧ (∀ now o, is_Some (operators oc1 !! op_ID o) →
              operators (AddOperator noEffect now o oc1).1.2 = operators oc1)
  ∧ (∀ fin now, keyed (pollQueueingOperator noEffect fin now oc1).1.2)
  ∧ (∀ o, keyed (removeReplicaSet noEffect o oc1).1)
  ∧ keyed (RemoveAllTasks noEffect oc1).1
  ∧ (∀ schema, keyed (RemoveTasksBySchemaID noEffect schema oc1).1)
  ∧ (∀ tables, keyed (RemoveTasksByTableIDs noEffect tables oc1).1).
Proof. apply (operator_singleton noEffect oc1). exact oc1_keyed. Defined.

Lemma remove_operator_supersedes_witness :
  (Call addOp1 OnTaskRemoved ∈ (removeReplicaSets noEffect [span1] oc1).2
   ∧ (∀ o, Call o PostFinish ∉ (removeReplicaSets noEffect [span1] oc1).2)
   ∧ operators (removeReplicaSets noEffect [span1] oc1).1 !! ID span1
       = Some (NewRemoveDispatcherOperator span1)
   ∧ (removeReplicaSet noEffect (NewRemoveDispatcherOperator span1) oc1).2
       = [Log LInfo "replica set is removed , replace the old one";
          Call addOp1 OnTaskRemoved])
  ∧ (∀ c : Controller,
       RemoveAllTasks noEffect c
         = removeReplicaSets noEffect (TryRemoveAll (replicationDB c)).1
             (set_db c (TryRemoveAll (replicationDB c)).2)
       ∧ (∀ schema, RemoveTasksBySchemaID noEffect schema c
            = removeReplicaSets noEffect (TryRemoveBySchemaID schema (replicationDB c)).1
                (set_db c (TryRemoveBySchemaID schema (replicationDB c)).2))
       ∧ (∀ tables, RemoveTasksByTableIDs noEffect tables c
            = removeReplicaSets noEffect (TryRemoveByTableIDs tables (replicationDB c)).1
                (set_db c (TryRemoveByTableIDs tables (replicationDB c)).2))).
Proof.
  apply (remove_operator_supersedes noEffect oc1 [span1] span1 addOp1).
  - apply NoDup_singleton.
  - apply list_elem_of_singleton. reflexivity.
  - vm_compute. reflexivity.
Defined.

Lemma AddOperator_rejects_or_installs_witness :
  (∃ evs, AddOperator noEffect 7 addOp1 oc1 = (false, oc1, evs) ∧ ∀ o' m, Call o' m ∉ evs)
  ∧ (∃ oc', AddOperator noEffect 0 addOp1 oc0
              = (true, oc', [Log LInfo "add operator to running queue"; Call addOp1 Start])
            ∧ operators oc' = <[op_ID addOp1 := addOp1]> (operators oc0)
            ∧ replicationDB oc' = noEffect addOp1 Start (replicationDB oc0)
            ∧ runningQueue oc' = heapPush (mkOperatorWithTime addOp1 0) (runningQueue oc0)
            ∧ mkOperatorWithTime addOp1 0 ∈ runningQueue oc').
Proof.
  split.
  - apply (proj1 (AddOperator_rejects_or_installs noEffect 7 addOp1 oc1)).
    left. exists addOp1. vm_compute. reflexivity.
  - apply (proj2 (AddOperator_rejects_or_installs noEffect 0 addOp1 oc0)).
    + vm_compute. reflexivity.
    + exists (set_node span1 "" Absent). vm_compute. reflexivity.
Defined.

(** What the replacement leaves in the running queue: removeReplicaSet
    touches the map only, so the entry of the replaced operator is still
    queued; when that operator later reports finished, pollQueueingOperator
    calls its PostFinish and deletes the map entry of its ID. *)
Example replaced_operator_stays_queued :
  runningQueue (removeReplicaSets noEffect [span1] oc1).1 = runningQueue oc1
  ∧ op <$> runningQueue oc1 = [addOp1]
  ∧ (pollQueueingOperator noEffect (λ _, true) 0
       (removeReplicaSets noEffect [span1] oc1).1).2
    = [Call addOp1 PostFinish; Log LInfo "operator finished"]
  ∧ operators (pollQueueingOperator noEffect (λ _, true) 0
                 (removeReplicaSets noEffect [span1] oc1).1).1.2 = ∅.
Proof.
  split; [vm_compute; reflexivity|].
  split; [vm_compute; reflexivity|].
  split; vm_compute; reflexivity.
Qed.

End OperatorFacts.

(** ** The barrier block event *)

Module BarrierFacts.
Import Replica Maintainer OperatorFacts.

(** *** The reverse indexes *)

Section IndexFacts.
Context `{Countable K}.
Implicit Types (ix : gmap K (gset DispatcherID)) (k : K) (d : DispatcherID).

Lemma indexGet_indexAdd k d ix k' :
  indexGet k' (indexAdd k d ix) = if decide (k = k') then {[d]} ∪ indexGet k ix else indexGet k' ix.
Proof.
  unfold indexAdd, indexGet at 1. case_decide as Hk.
  - subst k'. by rewrite lookup_insert_eq.
  - by rewrite lookup_insert_ne.
Qed.

Lemma indexGet_indexDel k d ix k' :
  indexGet k' (indexDel k d ix) = if decide (k = k') then indexGet k ix ∖ {[d]} else indexGet k' ix.
Proof.
  unfold indexDel. destruct (decide (indexGet k ix ∖ {[d]} = ∅)) as [He|Hne].
  - unfold indexGet at 1. case_decide as Hk.
    + subst k'. by rewrite lookup_delete_eq, He.
    + by rewrite lookup_delete_ne.
  - unfold indexGet at 1. case_decide as Hk.
    + subst k'. by rewrite lookup_insert_eq.
    + by rewrite lookup_insert_ne.
Qed.

End IndexFacts.

(** *** Spans, indexes and the primary map *)

Lemma spansOf_elem db (S : gset DispatcherID) s :
  s ∈ spansOf db S ↔ ∃ d, d ∈ S ∧ allTasks db !! d = Some s.
Proof.
  unfold spansOf. rewrite list_elem_of_omap. split.
  - intros (d & Hd & Hs). exists d. split; [by apply elem_of_elements|done].
  - intros (d & Hd & Hs). exists d. split; [by apply elem_of_elements|done].
Qed.

Lemma spansOf_IDs db (S : gset DispatcherID) :
  (∀ d s, allTasks db !! d = Some s → ID s = d) →
  ID <$> spansOf db S = filter (λ d, is_Some (allTasks db !! d)) (elements S).
Proof.
  intros Hkeyed. unfold spansOf.
  induction (elements S) as [|d l IH]; [done|].
  cbn [omap list_omap]. rewrite filter_cons.
  destruct (allTasks db !! d) as [s|] eqn:Hs.
  - rewrite decide_True by eauto. cbn. rewrite IH. f_equal. by apply Hkeyed.
  - rewrite decide_False; [done|]. by intros [? ?].
Qed.

Lemma spansOf_NoDup db (S : gset DispatcherID) :
  (∀ d s, allTasks db !! d = Some s → ID s = d) →
  NoDup (ID <$> spansOf db S).
Proof.
  intros Hkeyed. rewrite spansOf_IDs by done.
  apply NoDup_filter, NoDup_elements.
Qed.

Lemma reindexSchema_consistent new db s :
  consistent db → allTasks db !! ID s = Some s →
  consistent (reindexSchema new db s).
Proof.
  intros (Hkeyed & Hschema & Htable) Hs. split; [|split].
  - intros d s'. cbn. destruct (decide (d = ID s)) as [->|Hne].
    + rewrite lookup_insert_eq. by intros [= <-].
    + rewrite lookup_insert_ne by done. apply Hkeyed.
  - intros sid d. cbn [reindexSchema schemaTasks allTasks].
    rewrite indexGet_indexAdd, !indexGet_indexDel.
    destruct (decide (d = ID s)) as [->|Hne].
    + rewrite lookup_insert_eq. split.
      * intros Hin. exists (set_schemaID s new). split; [done|]. cbn.
        destruct (decide (new = sid)) as [|Hnew]; [done|].
        destruct (decide (schemaID s = sid)) as [|Hold].
        -- apply elem_of_difference in Hin as [_ Hnot]. exfalso. apply Hnot.
           by apply elem_of_singleton.
        -- apply Hschema in Hin as (s0 & Hs0 & Hsid). congruence.
      * intros (s' & [= <-] & Hsid). cbn in Hsid. subst sid.
        rewrite decide_True by done. apply elem_of_union_l. by apply elem_of_singleton.
    + rewrite lookup_insert_ne by done. rewrite <- Hschema.
      assert (Hd : d ∉ ({[ID s]} : gset DispatcherID)) by by rewrite elem_of_singleton.
      destruct (decide (new = sid)) as [<-|Hnew];
        destruct (decide (schemaID s = _)) as [Hold|Hold];
        rewrite ?elem_of_union, ?elem_of_difference, ?Hold; tauto.
  - intros tid d. cbn [reindexSchema tableTasks allTasks]. rewrite Htable.
    destruct (decide (d = ID s)) as [->|Hne].
    + rewrite lookup_insert_eq, Hs. split.
      * intros (s' & [= <-] & Ht). by exists (set_schemaID s new).
      * intros (s' & [= <-] & Ht). by exists s.
    + by rewrite lookup_insert_ne.
Qed.

(** Reindexing a list of stored spans, each once. *)
Lemma reindexAll new l db :
  consistent db → NoDup (ID <$> l) → (∀ s, s ∈ l → allTasks db !! ID s = Some s) →
  consistent (foldl (reindexSchema new) db l)
  ∧ (∀ d, allTasks (foldl (reindexSchema new) db l) !! d
          = if decide (d ∈ ID <$> l) then (λ s, set_schemaID s new) <$> allTasks db !! d
            else allTasks db !! d)
  ∧ absent (foldl (reindexSchema new) db l) = absent db
  ∧ scheduling (foldl (reindexSchema new) db l) = scheduling db
  ∧ working (foldl (reindexSchema new) db l) = working db
  ∧ tableTasks (foldl (reindexSchema new) db l) = tableTasks db.
Proof.
  revert db. induction l as [|s l IH]; intros db Hc Hnd Hstored.
  { split; [done|]. split; [|done]. intros d. rewrite decide_False; [done|].
    apply not_elem_of_nil. }
  rewrite fmap_cons in Hnd. apply NoDup_cons in Hnd as [Hs Hnd].
  assert (Hhere : allTasks db !! ID s = Some s).
  { apply Hstored. apply elem_of_cons. by left. }
  cbn [foldl].
  destruct (IH (reindexSchema new db s)) as (Hc' & Hall & Habs & Hsch & Hwork & Htab).
  { by apply reindexSchema_consistent. }
  { done. }
  { intros s' Hs'. cbn. rewrite lookup_insert_ne.
    - apply Hstored. apply elem_of_cons. by right.
    - intros Heq. apply Hs. rewrite Heq. apply list_elem_of_fmap. by exists s'. }
  split; [done|]. split; [|by rewrite Habs, Hsch, Hwork, Htab].
  intros d. rewrite Hall. cbn [reindexSchema allTasks]. rewrite fmap_cons.
  destruct (decide (d = ID s)) as [->|Hne].
  - rewrite lookup_insert_eq, decide_False by done.
    rewrite decide_True by (apply elem_of_cons; by left). by rewrite Hhere.
  - rewrite lookup_insert_ne by done.
    destruct (decide (d ∈ ID <$> l)) as [Hin|Hnin].
    + rewrite decide_True; [done|]. apply elem_of_cons. by right.
    + rewrite decide_False; [done|]. rewrite elem_of_cons. by intros [?|?].
Qed.

(** The spans of a table, as the by-table index of a consistent DB lists
    them. *)
Lemma tableSpans db tid :
  consistent db →
  NoDup (ID <$> Replica.GetTasksByTableIDs db [tid])
  ∧ (∀ s, s ∈ Replica.GetTasksByTableIDs db [tid] ↔
          allTasks db !! ID s = Some s ∧ TableID (Span s) = tid).
Proof.
  intros (Hkeyed & _ & Htable). unfold Replica.GetTasksByTableIDs.
  cbn [mbind list_bind]. rewrite app_nil_r. split; [by apply spansOf_NoDup|].
  intros s. rewrite spansOf_elem. split.
  - intros (d & Hd & Hs). rewrite (Hkeyed _ _ Hs). split; [done|].
    apply Htable in Hd as (s' & Hs' & Ht). congruence.
  - intros [Hs Ht]. exists (ID s). split; [|done]. apply Htable. eauto.
Qed.

Lemma schemaSpans db sid :
  consistent db →
  NoDup (ID <$> Replica.GetTasksBySchemaID db sid)
  ∧ (∀ s, s ∈ Replica.GetTasksBySchemaID db sid ↔
          allTasks db !! ID s = Some s ∧ schemaID s = sid).
Proof.
  intros (Hkeyed & Hschema & _). unfold Replica.GetTasksBySchemaID.
  split; [by apply spansOf_NoDup|].
  intros s. rewrite spansOf_elem. split.
  - intros (d & Hd & Hs). rewrite (Hkeyed _ _ Hs). split; [done|].
    apply Hschema in Hd as (s' & Hs' & Ht). congruence.
  - intros [Hs Ht]. exists (ID s). split; [|done]. apply Hschema. eauto.
Qed.

(** UpdateSchemaID on a consistent DB: the spans of the table move to the
    new schema, nothing else changes, and the indexes follow. *)
Lemma UpdateSchemaID_spec tid new db :
  consistent db →
  consistent (Replica.UpdateSchemaID tid new db)
  ∧ (∀ d, allTasks (Replica.UpdateSchemaID tid new db) !! d
          = (λ s, if decide (TableID (Span s) = tid) then set_schemaID s new else s)
              <$> allTasks db !! d)
  ∧ absent (Replica.UpdateSchemaID tid new db) = absent db
  ∧ scheduling (Replica.UpdateSchemaID tid new db) = scheduling db
  ∧ working (Replica.UpdateSchemaID tid new db) = working db
  ∧ tableTasks (Replica.UpdateSchemaID tid new db) = tableTasks db.
Proof.
  intros Hc. pose proof Hc as (Hkeyed & _ & _).
  destruct (tableSpans db tid Hc) as [Hnd Hspans].
  unfold Replica.UpdateSchemaID.
  destruct (reindexAll new (Replica.GetTasksByTableIDs db [tid]) db Hc Hnd)
    as (Hc' & Hall & Hrest).
  { intros s Hs. by apply Hspans. }
  split; [done|]. split; [|done].
  intros d. rewrite Hall.
  destruct (allTasks db !! d) as [s|] eqn:Hs; cbn.
  - pose proof (Hkeyed _ _ Hs) as Hid.
    destruct (decide (TableID (Span s) = tid)) as [Ht|Ht].
    + rewrite decide_True; [done|]. apply list_elem_of_fmap. exists s.
      split; [done|]. apply Hspans. by rewrite Hid.
    + rewrite decide_False; [done|].
      intros (s' & Hd & Hs')%list_elem_of_fmap. apply Hspans in Hs' as [Hs' Ht'].
      rewrite <- Hd, Hs in Hs'. congruence.
  - by case_decide.
Qed.

Lemma list_only {A} (l : list A) (x : A) :
  NoDup l → (∀ y, y ∈ l ↔ y = x) → l = [x].
Proof.
  intros Hnd Hl. destruct l as [|a l].
  { exfalso. apply (not_elem_of_nil x). by apply Hl. }
  assert (a = x) as -> by (apply Hl, elem_of_cons; by left).
  destruct l as [|b l]; [done|].
  assert (b = x) as -> by (apply Hl; rewrite !elem_of_cons; auto).
  apply NoDup_cons in Hnd as [Hnot _]. exfalso. apply Hnot. apply elem_of_cons. by left.
Qed.

Lemma list_none {A} (l : list A) : (∀ y, y ∉ l) → l = [].
Proof.
  destruct l as [|a l]; [done|]. intros Hl. exfalso. apply (Hl a). apply elem_of_cons. by left.
Qed.

Lemma consistent_empty : consistent NewReplicaSetDB.
Proof.
  unfold consistent, NewReplicaSetDB, indexGet. cbn [allTasks schemaTasks tableTasks].
  split; [|split].
  - intros d s Hs. by rewrite lookup_empty in Hs.
  - intros sid d. rewrite lookup_empty. cbn. split.
    + intros Hd. by apply not_elem_of_empty in Hd.
    + intros (s & Hs & _). by rewrite lookup_empty in Hs.
  - intros tid d. rewrite lookup_empty. cbn. split.
    + intros Hd. by apply not_elem_of_empty in Hd.
    + intros (s & Hs & _). by rewrite lookup_empty in Hs.
Qed.

Lemma consistent_AddAbsentReplicaSet s db :
  consistent db → allTasks db !! ID s = None →
  consistent (AddAbsentReplicaSet s db).
Proof.
  intros (Hkeyed & Hschema & Htable) Hnew. unfold AddAbsentReplicaSet.
  cbn [set_node ID schemaID Span]. split; [|split].
  - intros d s'. cbn. destruct (decide (d = ID s)) as [->|Hne].
    + rewrite lookup_insert_eq. by intros [= <-].
    + rewrite lookup_insert_ne by done. apply Hkeyed.
  - intros sid d. cbn [schemaTasks allTasks ID]. rewrite indexGet_indexAdd.
    destruct (decide (d = ID s)) as [->|Hne].
    + rewrite lookup_insert_eq. split.
      * intros Hin. eexists. split; [done|]. cbn.
        destruct (decide (schemaID s = sid)) as [|Hsid]; [done|].
        apply Hschema in Hin as (s0 & Hs0 & _). congruence.
      * intros (s' & [= <-] & Hsid). cbn in Hsid. subst sid.
        rewrite decide_True by done. apply elem_of_union_l. by apply elem_of_singleton.
    + rewrite lookup_insert_ne by done. rewrite <- Hschema.
      assert (Hd : d ∉ ({[ID s]} : gset DispatcherID)) by by rewrite elem_of_singleton.
      destruct (decide (schemaID s = sid)) as [<-|Hsid]; [|done].
      rewrite elem_of_union. tauto.
  - intros tid d. cbn [tableTasks allTasks ID]. rewrite indexGet_indexAdd.
    destruct (decide (d = ID s)) as [->|Hne].
    + rewrite lookup_insert_eq. split.
      * intros Hin. eexists. split; [done|]. cbn.
        destruct (decide (TableID (Span s) = tid)) as [|Htid]; [done|].
        apply Htable in Hin as (s0 & Hs0 & _). congruence.
      * intros (s' & [= <-] & Htid). cbn in Htid. subst tid.
        rewrite decide_True by done. apply elem_of_union_l. by apply elem_of_singleton.
    + rewrite lookup_insert_ne by done. rewrite <- Htable.
      assert (Hd : d ∉ ({[ID s]} : gset DispatcherID)) by by rewrite elem_of_singleton.
      destruct (decide (TableID (Span s) = tid)) as [<-|Htid]; [|done].
      rewrite elem_of_union. tauto.
Qed.

Lemma afterAddTable_consistent : consistent (replicationDB afterAddTable).
Proof. apply consistent_AddAbsentReplicaSet; [apply consistent_empty|done]. Qed.

Lemma removeSpans_absent db victims :
  absent (foldl removeSpan db victims) = absent db ∖ list_to_set (ID <$> victims).
Proof.
  revert db. induction victims as [|s l IH]; intros db; cbn [foldl].
  - rewrite fmap_nil, list_to_set_nil. by rewrite difference_empty_L.
  - rewrite IH, fmap_cons, list_to_set_cons. cbn [removeSpan absent].
    apply set_eq. intros d. rewrite !elem_of_difference, elem_of_union. tauto.
Qed.

Lemma UpdateSchemaID_absent tid sid db :
  absent (Replica.UpdateSchemaID tid sid db) = absent db.
Proof.
  unfold Replica.UpdateSchemaID.
  generalize (Replica.GetTasksByTableIDs db [tid]). intros l. revert db.
  induction l as [|s l IH]; intros db; [done|].
  cbn [foldl]. by rewrite IH.
Qed.

Lemma updateSchemas_absent e c :
  absent (replicationDB (updateSchemas e c)) = absent (replicationDB c)
  ∧ nextDispatcherID (updateSchemas e c) = nextDispatcherID c.
Proof.
  unfold updateSchemas. revert c.
  induction (schemaIDChange e) as [|change l IH]; intros c; [done|].
  cbn [foldl]. destruct (IH (UpdateSchemaID (sc_TableID change) (sc_NewSchemaID change) c))
    as [-> ->].
  split; [|done]. apply UpdateSchemaID_absent.
Qed.

Lemma allocated_S c n :
  allocated c (S n)
  = mkDispatcherID 0 (nextDispatcherID c)
    :: ((λ i, mkDispatcherID 0 (nextDispatcherID c + 1 + N.of_nat i)) <$> seq 0 n).
Proof.
  unfold allocated. cbn [seq fmap list_fmap]. f_equal.
  - f_equal. lia.
  - rewrite <- fmap_S_seq, <- list_fmap_compose. apply list_fmap_ext.
    intros _ i _. cbn. f_equal. lia.
Qed.

Lemma allocated_elem c n d :
  d ∈ allocated c n ↔
  ∃ i, i < n ∧ d = mkDispatcherID 0 (nextDispatcherID c + N.of_nat i).
Proof.
  unfold allocated. rewrite list_elem_of_fmap. split.
  - intros (i & -> & Hi). apply elem_of_seq in Hi. exists i. split; [lia|done].
  - intros (i & Hi & ->). exists i. split; [done|]. apply elem_of_seq. lia.
Qed.

Lemma allocated_NoDup c n : NoDup (allocated c n).
Proof.
  unfold allocated. apply NoDup_fmap_2; [|apply NoDup_seq].
  intros i j [= Hij]. lia.
Qed.

(** AddNewTable over a list of tables: the spans go in under the next IDs,
    absent, and nothing else is touched. *)
Lemma addTables_spec ts tables c :
  let c' := foldl (λ acc table, AddNewTable table ts acc) c tables in
  absent (replicationDB c') = list_to_set (allocated c (length tables)) ∪ absent (replicationDB c)
  ∧ nextDispatcherID c' = (nextDispatcherID c + N.of_nat (length tables))%N
  ∧ (∀ d, d ∉ allocated c (length tables) →
          allTasks (replicationDB c') !! d = allTasks (replicationDB c) !! d)
  ∧ (∀ i table, tables !! i = Some table →
       allTasks (replicationDB c') !! mkDispatcherID 0 (nextDispatcherID c + N.of_nat i)
       = Some (mkSpanReplication (mkDispatcherID 0 (nextDispatcherID c + N.of_nat i))
                 (mkTableSpan (tbl_TableID table) "" "") (changefeedID c)
                 (tbl_SchemaID table) "" Absent ts)).
Proof.
  revert c. induction tables as [|table tables IH]; intros c; cbn [foldl length].
  { split; [|split; [|split]].
    - apply set_eq. intros d. rewrite elem_of_union, elem_of_list_to_set, allocated_elem.
      split; [auto|]. intros [(i & Hi & _)|?]; [lia|done].
    - cbn. lia.
    - done.
    - intros i t Hi. by rewrite lookup_nil in Hi. }
  destruct (IH (AddNewTable table ts c)) as (Habs & Hnext & Hother & Hstored).
  assert (Hn1 : nextDispatcherID (AddNewTable table ts c) = (nextDispatcherID c + 1)%N) by done.
  assert (Halloc : allocated (AddNewTable table ts c) (length tables)
                   = (λ i, mkDispatcherID 0 (nextDispatcherID c + 1 + N.of_nat i))
                       <$> seq 0 (length tables)).
  { unfold allocated. by rewrite Hn1. }
  split; [|split; [|split]].
  - rewrite Habs, allocated_S, list_to_set_cons, Halloc. cbn.
    apply set_eq. intros d. rewrite !elem_of_union. tauto.
  - rewrite Hnext, Hn1. lia.
  - intros d Hd. rewrite allocated_S, <- Halloc in Hd.
    apply not_elem_of_cons in Hd as [Hne Hd].
    rewrite Hother by done. cbn. by rewrite lookup_insert_ne.
  - intros [|i] t Hi.
    + cbn in Hi. injection Hi as ->. rewrite Hother.
      * cbn. rewrite N.add_0_r. by rewrite lookup_insert_eq.
      * rewrite allocated_elem. intros (j & _ & [= Hj]). cbn in Hj. lia.
    + cbn in Hi. specialize (Hstored i t Hi). rewrite Hn1 in Hstored.
      replace (nextDispatcherID c + N.of_nat (S i))%N
        with (nextDispatcherID c + 1 + N.of_nat i)%N by lia.
      exact Hstored.
Qed.

Section Facts.

Context (effect : Operator.Operator → Operator.Method → ReplicationDB → ReplicationDB).

Section Quiet.

(** OnTaskRemoved only tells the operator that its task is gone. *)
Hypothesis quiet : ∀ o db, effect o Operator.OnTaskRemoved db = db.

Lemma removeReplicaSet_db o oc :
  Operator.replicationDB (Operator.removeReplicaSet effect o oc).1 = Operator.replicationDB oc.
Proof.
  unfold Operator.removeReplicaSet.
  destruct (Operator.operators oc !! Operator.op_ID o); [|done].
  cbn. apply quiet.
Qed.

Lemma removeReplicaSets_db removed oc :
  Operator.replicationDB (Operator.removeReplicaSets effect removed oc).1
  = Operator.replicationDB oc.
Proof.
  revert oc. induction removed as [|r rs IH]; intros oc; [done|].
  rewrite removeReplicaSets_cons. cbn [fst]. by rewrite IH, removeReplicaSet_db.
Qed.

Lemma dropTables_spec e c :
  absent (replicationDB (dropTables effect e c))
  = absent (replicationDB c) ∖ list_to_set (ID <$> dropped e c)
  ∧ nextDispatcherID (dropTables effect e c) = nextDispatcherID c
  ∧ changefeedID (dropTables effect e c) = changefeedID c.
Proof.
  unfold dropTables, dropped.
  destruct (dropDispatchers e) as [drop|].
  - split; [|done].
    unfold replicationDB at 1. cbn [set_oc operatorController].
    destruct (it_InfluenceType drop);
      unfold Operator.RemoveAllTasks, Operator.RemoveTasksBySchemaID,
        Operator.RemoveTasksByTableIDs, TryRemoveAll, TryRemoveBySchemaID,
        TryRemoveByTableIDs, tryRemove;
      rewrite removeReplicaSets_db; cbn [Operator.set_db Operator.replicationDB];
      apply removeSpans_absent.
  - split; [|done]. rewrite fmap_nil, list_to_set_nil. by rewrite difference_empty_L.
Qed.

(** C1. scheduleBlockEvent runs the drops before the adds: afterwards the
    absent spans are those of the newly added tables, stored under the IDs
    handed out for them, together with the spans that were absent and that
    the drop does not name.  They are exactly the newly added tables when
    the drop names every span that was absent, as a drop of All does.  In
    the scenario of TestScheduleEvent this leaves 2 absent spans after the
    first event and 1 after the second. *)
Theorem scheduleBlockEvent_drop_then_add (c : Controller) (e : BarrierEvent) :
  fresh c →
  let c' := scheduleBlockEvent effect e c in
  let afterDrops := absent (replicationDB c) ∖ list_to_set (ID <$> dropped e c) in
  let added := allocated c (length (newTables e)) in
  absent (replicationDB (dropTables effect e c)) = afterDrops
  ∧ absent (replicationDB c') = list_to_set added ∪ afterDrops
  ∧ GetAbsentSize (replicationDB c') = length (newTables e) + size afterDrops
  ∧ (∀ i table, newTables e !! i = Some table →
       allTasks (replicationDB (addTables e (dropTables effect e c)))
         !! mkDispatcherID 0 (nextDispatcherID c + N.of_nat i)
       = Some (mkSpanReplication (mkDispatcherID 0 (nextDispatcherID c + N.of_nat i))
                 (mkTableSpan (tbl_TableID table) "" "") (changefeedID c)
                 (tbl_SchemaID table) "" Absent (commitTs e)))
  ∧ (absent (replicationDB c) ⊆ list_to_set (ID <$> dropped e c) →
     absent (replicationDB c') = list_to_set added
     ∧ GetAbsentSize (replicationDB c') = length (newTables e))
  ∧ ((∃ drop, dropDispatchers e = Some drop ∧ it_InfluenceType drop = All) →
     (∀ d, d ∈ absent (replicationDB c) →
           ∃ span, allTasks (replicationDB c) !! d = Some span ∧ ID span = d) →
     absent (replicationDB c) ⊆ list_to_set (ID <$> dropped e c))
  ∧ fresh c'
  ∧ GetAbsentSize
      (replicationDB (scheduleBlockEvent effect dropAllEvent afterAddTable)) = 2
  ∧ GetAbsentSize
      (replicationDB
         (scheduleBlockEvent effect dropSchemaEvent
            (scheduleBlockEvent effect dropAllEvent afterAddTable))) = 1.
Proof.
  intros Hfresh c' afterDrops added.
  destruct (dropTables_spec e c) as (Hdrop & Hnext & Hcf).
  destruct (addTables_spec (commitTs e) (newTables e) (dropTables effect e c))
    as (Hadd & Hnext' & _ & Hstored).
  fold (addTables e (dropTables effect e c)) in Hadd, Hnext', Hstored.
  destruct (updateSchemas_absent e (addTables e (dropTables effect e c))) as (Hupd & Hnext'').
  fold (scheduleBlockEvent effect e c) in Hupd, Hnext''. fold c' in Hupd, Hnext''.
  assert (Halloc : allocated (dropTables effect e c) (length (newTables e)) = added).
  { unfold added, allocated. by rewrite Hnext. }
  rewrite Halloc, Hdrop in Hadd. fold afterDrops in Hadd.
  assert (Habs : absent (replicationDB c') = list_to_set added ∪ afterDrops).
  { by rewrite Hupd. }
  assert (Hdisj : list_to_set added ## afterDrops).
  { intros d Hd Hd'. apply elem_of_list_to_set, allocated_elem in Hd as (i & _ & ->).
    apply elem_of_difference in Hd' as [Hd' _].
    apply (Hfresh (nextDispatcherID c + N.of_nat i)%N); [lia|done]. }
  assert (Hsize : GetAbsentSize (replicationDB c') = length (newTables e) + size afterDrops).
  { unfold GetAbsentSize. rewrite Habs, size_union by done.
    rewrite size_list_to_set by apply allocated_NoDup.
    unfold added, allocated. by rewrite length_fmap, length_seq. }
  split; [done|]. split; [done|]. split; [done|].
  split; [|split; [|split; [|split; [|split]]]].
  - intros i table Hi. specialize (Hstored i table Hi). by rewrite Hnext, Hcf in Hstored.
  - intros Hcover.
    assert (Hempty : afterDrops = ∅).
    { unfold afterDrops. apply set_eq. intros d. rewrite elem_of_difference.
      split; [|intros Hd; by apply not_elem_of_empty in Hd].
      intros [Hd Hnot]. exfalso. apply Hnot. by apply Hcover. }
    rewrite Hsize, Habs, Hempty, size_empty. split; [by rewrite union_empty_r_L|lia].
  - intros (drop & Hsome & Hall) Hin d Hd. unfold dropped. rewrite Hsome, Hall.
    apply elem_of_list_to_set.
    destruct (Hin d Hd) as (span & Hspan & <-).
    apply list_elem_of_fmap. exists span. split; [done|].
    unfold GetAllTasks. apply list_elem_of_fmap. exists (ID span, span).
    split; [done|]. by apply elem_of_map_to_list.
  - intros n Hn. rewrite Hnext'', Hnext', Hnext in Hn. rewrite Habs.
    rewrite elem_of_union, elem_of_list_to_set. unfold added. rewrite allocated_elem.
    intros [(i & Hi & [= Heq])|Hd]; [lia|].
    apply elem_of_difference in Hd as [Hd _]. apply (Hfresh n); [lia|done].
  - vm_compute. reflexivity.
  - vm_compute. reflexivity.
Qed.

End Quiet.

(** C6. A block event that carries the one schema change {tableID, old,
    new}, and no drops or adds, reindexes a consistent replication DB in one
    step: every span of the table reads the new schemaID and nothing else
    changes in the primary map, the by-schema index lists under each schema
    exactly the spans that now carry it, so the DB is consistent again, and
    the absent set is as it was.  For a present table with one span, alone
    under the old schema and with nothing yet under the new one,
    GetTasksBySchemaID(old) is empty afterwards and GetTasksBySchemaID(new)
    has that one span, with schemaID new. *)
Theorem scheduleBlockEvent_updates_schema (c : Controller) (e : BarrierEvent) (tid old new : Z) :
  consistent (replicationDB c) →
  dropDispatchers e = None →
  newTables e = [] →
  schemaIDChange e = [mkSchemaIDChange tid old new] →
  let c' := scheduleBlockEvent effect e c in
  let moved (s : SpanReplication) :=
    if decide (TableID (Span s) = tid) then set_schemaID s new else s in
  consistent (replicationDB c')
  ∧ (∀ d, allTasks (replicationDB c') !! d = moved <$> allTasks (replicationDB c) !! d)
  ∧ (∀ sid s, s ∈ GetTasksBySchemaID c' sid ↔
              allTasks (replicationDB c') !! ID s = Some s ∧ schemaID s = sid)
  ∧ GetTasksByTableIDs c' [tid] = (λ s, set_schemaID s new) <$> GetTasksByTableIDs c [tid]
  ∧ absent (replicationDB c') = absent (replicationDB c)
  ∧ GetAbsentSize (replicationDB c') = GetAbsentSize (replicationDB c)
  ∧ (∀ s, GetTasksByTableIDs c [tid] = [s] →
          GetTasksBySchemaID c old = [s] →
          GetTasksBySchemaID c new = [] →
          old ≠ new →
          GetTasksBySchemaID c' old = []
          ∧ GetTasksBySchemaID c' new = [set_schemaID s new]).
Proof.
  intros Hc Hdrop Hadd Hchange c' moved.
  assert (Hdb : replicationDB c' = Replica.UpdateSchemaID tid new (replicationDB c)).
  { unfold c', scheduleBlockEvent, updateSchemas, addTables, dropTables.
    by rewrite Hdrop, Hadd, Hchange. }
  destruct (UpdateSchemaID_spec tid new _ Hc) as (Hc' & Hall & Habs & _ & _ & Htab).
  rewrite <- Hdb in Hc', Hall, Habs, Htab.
  pose proof (λ sid, proj2 (schemaSpans (replicationDB c') sid Hc')) as Hschema'.
  pose proof (λ sid, proj1 (schemaSpans (replicationDB c') sid Hc')) as Hnd'.
  destruct (tableSpans (replicationDB c) tid Hc) as [_ Htable].
  pose proof (λ sid, proj2 (schemaSpans (replicationDB c) sid Hc)) as Hschema.
  split; [done|]. split; [done|]. split; [intros sid s; apply Hschema'|].
  split; [|split; [done|split; [unfold GetAbsentSize; by rewrite Habs|]]].
  - unfold GetTasksByTableIDs, Replica.GetTasksByTableIDs.
    cbn [mbind list_bind]. rewrite !app_nil_r, Htab. unfold spansOf.
    assert (Hin : ∀ d, d ∈ elements (indexGet tid (tableTasks (replicationDB c))) →
                       ∀ s, allTasks (replicationDB c) !! d = Some s → TableID (Span s) = tid).
    { intros d Hd s Hs. apply elem_of_elements in Hd.
      destruct Hc as (_ & _ & Ht). apply Ht in Hd as (s' & Hs' & Htid). congruence. }
    induction (elements (indexGet tid (tableTasks (replicationDB c)))) as [|d l IH]; [done|].
    cbn [omap list_omap]. rewrite Hall.
    destruct (allTasks (replicationDB c) !! d) as [s|] eqn:Hs; cbn.
    + rewrite IH by (intros d' Hd'; apply Hin; apply elem_of_cons; by right).
      f_equal. unfold moved. rewrite decide_True; [done|].
      apply (Hin d); [apply elem_of_cons; by left|done].
    + apply IH. intros d' Hd'. apply Hin. apply elem_of_cons. by right.
  - intros s Htid Hold Hnew Hne.
    assert (Hs : allTasks (replicationDB c) !! ID s = Some s ∧ TableID (Span s) = tid).
    { apply Htable. unfold GetTasksByTableIDs in Htid. rewrite Htid. apply elem_of_cons. by left. }
    split.
    + apply list_none. intros s' Hs'. apply Hschema' in Hs' as [Hs' Hsid].
      rewrite Hall in Hs'. destruct (allTasks (replicationDB c) !! ID s') as [s0|] eqn:Hs0;
        [|done]. cbn in Hs'. injection Hs' as Hs'. unfold moved in Hs'.
      case_decide as Ht.
      * subst s'. cbn in Hsid. congruence.
      * subst s0. assert (s' ∈ GetTasksBySchemaID c old) as Hin by (by apply Hschema).
        rewrite Hold in Hin. apply list_elem_of_singleton in Hin. subst s'. by destruct Hs.
    + apply list_only; [eapply NoDup_fmap_1, Hnd'|].
      intros s'. split.
      * intros Hs'. apply Hschema' in Hs' as [Hs' Hsid].
        rewrite Hall in Hs'. destruct (allTasks (replicationDB c) !! ID s') as [s0|] eqn:Hs0;
          [|done]. cbn in Hs'. injection Hs' as Hs'. unfold moved in Hs'.
        case_decide as Ht.
        -- assert (s0 ∈ GetTasksByTableIDs c [tid]) as Hin.
           { apply Htable. split; [|done].
             destruct Hc as (Hkeyed & _). by rewrite (Hkeyed _ _ Hs0). }
           rewrite Htid in Hin. apply list_elem_of_singleton in Hin. by subst.
        -- subst s0. assert (s' ∈ GetTasksBySchemaID c new) as Hin by (by apply Hschema).
           rewrite Hnew in Hin. by apply elem_of_nil in Hin.
      * intros ->. apply Hschema'. split; [|done]. cbn [ID set_schemaID].
        destruct Hs as [Hs Ht]. rewrite Hall, Hs. cbn. unfold moved.
        by rewrite decide_True.
Qed.



Section ResendFacts.

Context (topic : string) (ioType : Z).


End ResendFacts.

(** TestScheduleEvent and TestUpdateSchemaID, run: no operator is in
    flight there, so what the operators' methods do does not matter. *)
Example TestScheduleEvent_runs :
  GetAbsentSize
    (replicationDB
       (scheduleBlockEvent effect dropTablesEvent
          (scheduleBlockEvent effect dropSchemaEvent
             (scheduleBlockEvent effect dropAllEvent afterAddTable)))) = 1.
Proof. vm_compute. reflexivity. Qed.

Example TestUpdateSchemaID_runs :
  length (GetTasksBySchemaID afterAddTable 1) = 1
  ∧ GetTasksBySchemaID (scheduleBlockEvent effect updateSchemaEvent afterAddTable) 1 = []
  ∧ schemaID <$> GetTasksBySchemaID
                   (scheduleBlockEvent effect updateSchemaEvent afterAddTable) 2 = [2%Z].
Proof. split; [|split]; vm_compute; reflexivity. Qed.

End Facts.

Lemma fresh_afterAddTable : fresh afterAddTable.
Proof.
  intros n Hn Hin. cbn in Hn. unfold afterAddTable, AddNewTable, replicationDB in Hin.
  cbn in Hin. apply elem_of_union in Hin as [Hin|Hin].
  - apply elem_of_singleton in Hin. injection Hin as Hin. lia.
  - by apply not_elem_of_empty in Hin.
Qed.

Lemma scheduleBlockEvent_drop_then_add_witness :
  GetAbsentSize
    (replicationDB (scheduleBlockEvent Operator.noEffect dropAllEvent afterAddTable)) = 2
  ∧ GetAbsentSize
      (replicationDB
         (scheduleBlockEvent Operator.noEffect dropSchemaEvent
            (scheduleBlockEvent Operator.noEffect dropAllEvent afterAddTable))) = 1.
Proof.
  destruct (scheduleBlockEvent_drop_then_add Operator.noEffect (λ _ _, eq_refl)
              afterAddTable dropAllEvent fresh_afterAddTable)
    as (_ & _ & Hsize1 & _ & _ & _ & Hfresh1 & _).
  split.
  - rewrite Hsize1. vm_compute. reflexivity.
  - destruct (scheduleBlockEvent_drop_then_add Operator.noEffect (λ _ _, eq_refl)
                _ dropSchemaEvent Hfresh1)
      as (_ & _ & Hsize2 & _).
    rewrite Hsize2. vm_compute. reflexivity.
Defined.

Lemma scheduleBlockEvent_updates_schema_witness :
  GetTasksBySchemaID (scheduleBlockEvent Operator.noEffect updateSchemaEvent afterAddTable) 1
  = []
  ∧ length (GetTasksBySchemaID
              (scheduleBlockEvent Operator.noEffect updateSchemaEvent afterAddTable) 2) = 1
  ∧ schemaID <$> GetTasksByTableIDs
                   (scheduleBlockEvent Operator.noEffect updateSchemaEvent afterAddTable)
                   [1%Z] = [2%Z]
  ∧ GetAbsentSize
      (replicationDB (scheduleBlockEvent Operator.noEffect updateSchemaEvent afterAddTable))
    = 1.
Proof.
  destruct (scheduleBlockEvent_updates_schema Operator.noEffect afterAddTable
              updateSchemaEvent 1 1 2 afterAddTable_consistent eq_refl eq_refl eq_refl)
    as (_ & _ & _ & Htable & _ & Hsize & Hone).
  destruct (Hone (mkSpanReplication (mkDispatcherID 0 1) (mkTableSpan 1 "" "") "test" 1 ""
                    Absent 1)) as [Hold Hnew];
    [vm_compute; reflexivity | vm_compute; reflexivity | vm_compute; reflexivity
    | discriminate |].
  split; [exact Hold|]. split; [by rewrite Hnew|]. split.
  - rewrite Htable. vm_compute. reflexivity.
  - rewrite Hsize. vm_compute. reflexivity.
Defined.

(** The setup of TestResendAction: both spans working on node1. *)
Example onNode1_bound :
  (λ span, (TableID (Span span), nodeID span)) <$> GetAllTasks (replicationDB onNode1)
  ≡ₚ [(2%Z, "node1"); (1%Z, "node1")]
  ∧ working (replicationDB onNode1) = dom (allTasks (replicationDB onNode1))
  ∧ absent (replicationDB onNode1) = ∅.
Proof. split; [|split]; vm_compute; reflexivity. Qed.


(** C1, as it is written, fails: with table 7 of schema 2 absent, the event
    that drops schema 1 and adds table 4 leaves two absent spans, the added
    one and that of table 7. *)
Lemma scheduleBlockEvent_keeps_undropped_absent :
  GetAbsentSize (replicationDB otherSchema) = 1
  ∧ length (newTables dropSchemaEvent) = 1
  ∧ GetAbsentSize
      (replicationDB (scheduleBlockEvent Operator.noEffect dropSchemaEvent otherSchema)) = 2
  ∧ (TableID ∘ Span)
      <$> spansOf (replicationDB (scheduleBlockEvent Operator.noEffect dropSchemaEvent
                                    otherSchema))
            (absent (replicationDB (scheduleBlockEvent Operator.noEffect dropSchemaEvent
                                      otherSchema)))
    ≡ₚ [4%Z; 7%Z].
Proof.
  split; [vm_compute; reflexivity|]. split; [reflexivity|].
  split; [vm_compute; reflexivity|]. vm_compute. reflexivity.
Qed.

(** The scenarios S3, S4 and S5 of the test, run. *)
Example resend_write_action :
  (resend "heartbeat" 0 laterOn writerPending onNode1).1
  = [Target.mkTargetMessage _ "" "node1" "heartbeat" 0 0 0
       [mkHeartBeatResponse "test"
          [mkDispatcherStatus (mkInfluencedDispatchers Normal [mkDispatcherID 0 1] 0 None)
             (Some (mkDispatcherAction Write 10)) None]]].
Proof. vm_compute. reflexivity. Qed.

Example resend_pass_schema :
  (resend "heartbeat" 0 laterOn passSchema onNode1).1
  = [Target.mkTargetMessage _ "" "node1" "heartbeat" 0 0 0
       [mkHeartBeatResponse "test"
          [mkDispatcherStatus (mkInfluencedDispatchers DB [] 1 (Some (mkDispatcherID 0 0)))
             (Some (mkDispatcherAction Pass 10)) None]]].
Proof. vm_compute. reflexivity. Qed.

Example resend_pass_all :
  (resend "heartbeat" 0 laterOn passAll onNode1).1
  = [Target.mkTargetMessage _ "" "node1" "heartbeat" 0 0 0
       [mkHeartBeatResponse "test"
          [mkDispatcherStatus (mkInfluencedDispatchers All [] 0 (Some (mkDispatcherID 0 0)))
             (Some (mkDispatcherAction Pass 10)) None]]].
Proof. vm_compute. reflexivity. Qed.

Example resend_pass_tables :
  (resend "heartbeat" 0 laterOn passTables onNode1).1
  = [Target.mkTargetMessage _ "" "node1" "heartbeat" 0 0 0
       [mkHeartBeatResponse "test"
          [mkDispatcherStatus
             (mkInfluencedDispatchers Normal [mkDispatcherID 0 1; mkDispatcherID 0 2] 0 None)
             (Some (mkDispatcherAction Pass 10)) None]]].
Proof. vm_compute. reflexivity. Qed.

Example resend_within_window :
  (resend "heartbeat" 0 laterOn (set_lastResendTime writerPending (laterOn - 1)) onNode1).1
  = [].
Proof. vm_compute. reflexivity. Qed.

End BarrierFacts.

(** ** The supervisor *)

Module SupervisorFacts.
Import Supervisor.


Section Facts.

Context `{Countable MaintainerID}.
Context {Inferior CaptureStatus StateMachine ScheduleTask TargetMessage : Type}.

Abbreviation Sup :=
  (Supervisor (MaintainerID := MaintainerID) Inferior CaptureStatus StateMachine ScheduleTask).

Context (HasRemoved isWorking : StateMachine → bool).
Context (GetSchedulingMessage : StateMachine → option TargetMessage).
Context (GetSchedulingMessageOfNil : Abort + option TargetMessage).
Context (CheckAllCaptureInitialized : Sup → bool).
Context (GetAllCaptures : Sup → gmap string CaptureStatus).
Context (GetInferiors : Sup → gmap MaintainerID StateMachine).
Context (handleScheduleTasks : list ScheduleTask → Sup → Sup).

Abbreviation message :=
  (schedulingMessage Inferior CaptureStatus StateMachine ScheduleTask TargetMessage
     GetSchedulingMessage GetSchedulingMessageOfNil).

Abbreviation collect :=
  (collectMessages Inferior CaptureStatus StateMachine ScheduleTask TargetMessage
     GetSchedulingMessage GetSchedulingMessageOfNil).

Abbreviation check :=
  (checkRunningTasks Inferior CaptureStatus StateMachine ScheduleTask TargetMessage
     HasRemoved isWorking GetSchedulingMessage GetSchedulingMessageOfNil).

Abbreviation isDone :=
  (taskDone Inferior CaptureStatus StateMachine ScheduleTask HasRemoved isWorking).

Abbreviation run :=
  (Schedule Inferior CaptureStatus StateMachine ScheduleTask TargetMessage
     HasRemoved isWorking GetSchedulingMessage GetSchedulingMessageOfNil
     CheckAllCaptureInitialized GetAllCaptures GetInferiors handleScheduleTasks).

(** The message a call that returned has answered with, if any. *)
Abbreviation answer := (λ (s : Sup) id, match message s id with inr msg => msg | inl _ => None end).


Lemma handled_logs {A} (l : list A) lv text :
  handled ((λ _, Log (ScheduleTask := ScheduleTask) lv text) <$> l) = [].
Proof. induction l as [|x l IH]; [done|]. cbn. exact IH. Qed.

Lemma lookup_foldl_delete {A} (m : gmap MaintainerID A) (ks : list MaintainerID) id :
  foldl (λ m cf, delete cf m) m ks !! id = if decide (id ∈ ks) then None else m !! id.
Proof.
  revert m. induction ks as [|k ks IH]; intros m; cbn [foldl].
  - rewrite decide_False; [done|]. apply not_elem_of_nil.
  - rewrite IH. destruct (decide (id ∈ ks)) as [Hin|Hnin].
    + rewrite decide_True; [done|]. apply elem_of_cons. by right.
    + destruct (decide (id = k)) as [->|Hne].
      * rewrite lookup_delete_eq. rewrite decide_True; [done|]. apply elem_of_cons. by left.
      * rewrite lookup_delete_ne by done. rewrite decide_False; [done|].
        rewrite elem_of_cons. by intros [?|?].
Qed.

(** The map the second loop of checkRunningTasks leaves: the done tasks are
    gone, the others are as they were. *)
Lemma pruned_lookup (s : Sup) id :
  foldl (λ m cf, delete cf m) (RunningTasks s)
        (filter (λ id, isDone s id = true) (map_to_list (RunningTasks s)).*1) !! id
  = if isDone s id then None else RunningTasks s !! id.
Proof.
  rewrite lookup_foldl_delete.
  destruct (isDone s id) eqn:Hd.
  - destruct (RunningTasks s !! id) as [t|] eqn:Hrun.
    + rewrite decide_True; [done|]. apply list_elem_of_filter. split; [done|].
      apply list_elem_of_fmap. exists (id, t). split; [done|].
      by apply elem_of_map_to_list.
    + by case_decide.
  - rewrite decide_False; [done|]. intros [Hd' _]%list_elem_of_filter. congruence.
Qed.

(** The first loop returns when every call does, with the answers in the
    order of the visit. *)
Lemma collect_returns (s : Sup) ids :
  (∀ id, id ∈ ids → ∃ msg, message s id = inr msg) →
  collect s ids = inr (omap (answer s) ids).
Proof.
  induction ids as [|id ids IH]; intros Hall; [done|].
  destruct (Hall id) as [msg Hmsg]; [apply elem_of_cons; by left|].
  cbn. rewrite Hmsg, IH.
  - by destruct msg.
  - intros id' Hid'. apply Hall. apply elem_of_cons. by right.
Qed.

(** It panics as soon as one of the tasks has no state machine and the
    method does not stand a nil receiver. *)
Lemma collect_panics (s : Sup) ids p id :
  GetSchedulingMessageOfNil = inl p →
  id ∈ ids → StateMachines s !! id = None →
  collect s ids = inl p.
Proof.
  intros Hnil Hin Hnone.
  induction ids as [|id' ids IH]; [by apply elem_of_nil in Hin|].
  cbn [collectMessages]. unfold schedulingMessage at 1.
  destruct (StateMachines s !! id') as [sm|] eqn:Hsm.
  - apply elem_of_cons in Hin as [->|Hin]; [congruence|].
    by rewrite IH.
  - by rewrite Hnil.
Qed.

Lemma running_ids (s : Sup) id :
  id ∈ (map_to_list (RunningTasks s)).*1 ↔ is_Some (RunningTasks s !! id).
Proof.
  rewrite list_elem_of_fmap. split.
  - intros ([k t] & -> & Hkt). apply elem_of_map_to_list in Hkt. cbn. eauto.
  - intros [t Ht]. exists (id, t). split; [done|]. by apply elem_of_map_to_list.
Qed.

Lemma answers_elem_of (s : Sup) (ids : list MaintainerID) (msg : TargetMessage) :
  msg ∈ omap (answer s) ids ↔ ∃ id, id ∈ ids ∧ answer s id = Some msg.
Proof. apply list_elem_of_omap. Qed.

(** checkRunningTasks when every call returns. *)
Lemma check_returns (s : Sup) :
  (∀ id, is_Some (RunningTasks s !! id) → ∃ msg, message s id = inr msg) →
  ∃ pruned evs,
    check s = inr (omap (answer s) (map_to_list (RunningTasks s)).*1,
                   set_RunningTasks _ _ _ _ s pruned, evs)
    ∧ (∀ id, pruned !! id = if isDone s id then None else RunningTasks s !! id)
    ∧ handled evs = [].
Proof.
  intros Hall. unfold checkRunningTasks.
  rewrite collect_returns; [|intros id Hid; apply Hall; by apply running_ids].
  eexists _, _. split; [reflexivity|]. split; [apply pruned_lookup|apply handled_logs].
Qed.

Lemma check_panics (s : Sup) p id :
  GetSchedulingMessageOfNil = inl p →
  is_Some (RunningTasks s !! id) → StateMachines s !! id = None →
  check s = inl p.
Proof.
  intros Hnil Hrun Hnone. unfold checkRunningTasks.
  by rewrite (collect_panics s _ p id Hnil) by (by apply running_ids || done).
Qed.




End Facts.

(** Supervisors whose one running task, cf-0, has a state machine that is
    neither removed nor Working: every call returns and nothing is pruned. *)
Lemma oneTask_returns (s : Supervisor (MaintainerID := string) unit unit unit string) id :
  RunningTasks s = {["cf-0" := "cf-0"]} → StateMachines s = {["cf-0" := tt]} →
  is_Some (RunningTasks s !! id) →
  ∃ msg, schedulingMessage unit unit unit string string sampleMessage nilDereference
           s id = inr msg.
Proof.
  intros Hrun Hsm [t Ht]. rewrite Hrun in Ht.
  apply lookup_singleton_Some in Ht as [<- _].
  exists (Some "still scheduling"). unfold schedulingMessage. by rewrite Hsm.
Qed.




(** The sample runs: with one task running and room for three, two of the
    three on offer are scheduled, by the second scheduler; with room for one
    nothing is. *)
Example sampleSchedule_runs :
  match sampleSchedule sampleSupervisor with
  | inr res => Some (res.1.1, handled res.2)
  | inl _ => None
  end = Some (["still scheduling"], [["cf-a"; "cf-b"]]).
Proof. vm_compute. reflexivity. Qed.

Example fullSchedule_skips :
  match sampleSchedule fullSupervisor with
  | inr res => Some (res.1.1, handled res.2)
  | inl _ => None
  end = Some (["still scheduling"], []).
Proof. vm_compute. reflexivity. Qed.

End SupervisorFacts.

(** ** The versioned table-info store: histories *)

Module SchemaStoreHistoryFacts.
Import SchemaStore SchemaStoreHistory SchemaStoreFacts.

Lemma bind_ret_l {A B} (a : A) (f : A → M B) : (mret a ≫= f) = f a.
Proof. unfold mbind, M_bind, mret, M_ret. by destruct (f a). Qed.

Lemma bind_ret_r {A} (m : M A) : (m ≫= mret) = m.
Proof.
  unfold mbind, M_bind, mret, M_ret. destruct m as [l [e|a]]; [done|].
  by rewrite app_nil_r.
Qed.

Lemma bind_ext {A B} (m : M A) (f g : A → M B) :
  (∀ a, f a = g a) → (m ≫= f) = (m ≫= g).
Proof.
  intros Hfg. unfold mbind, M_bind. destruct m as [l [e|a]]; [done|]. by rewrite Hfg.
Qed.

Lemma bind_assoc {A B C} (m : M A) (f : A → M B) (g : B → M C) :
  ((m ≫= f) ≫= g) = (m ≫= λ a, f a ≫= g).
Proof.
  unfold mbind, M_bind. destruct m as [l [e|a]]; [done|].
  destruct (f a) as [l1 [e1|b]]; [done|].
  destruct (g b) as [l2 r]. by rewrite app_assoc.
Qed.

Section Facts.

Context {TableInfo RawTableInfo : Type}.
Context (WrapTableInfo : Z → string → N → RawTableInfo → TableInfo).
Context (InitPreSQLs : TableInfo → TableInfo).

Abbreviation item := (tableInfoItem TableInfo).
Abbreviation store := (versionedTableInfoStore TableInfo RawTableInfo).
Abbreviation event := (PersistedDDLEvent RawTableInfo).
Abbreviation apply := (doApplyDDL WrapTableInfo InitPreSQLs).

Lemma increasing_ordered (l : list item) : increasing l → ordered l.
Proof.
  intros Hinc i j a b Ha Hb Hij. destruct (decide (i = j)) as [->|Hne].
  - rewrite Ha in Hb. injection Hb as ->. lia.
  - pose proof (Hinc i j a b Ha Hb ltac:(lia)). lia.
Qed.

Lemma increasing_snoc (l : list item) (x : item) :
  increasing l →
  (∀ lv, lastVersion l = Some lv → (lv < version x)%N) →
  increasing (l ++ [x]).
Proof.
  intros Hinc Hlast i j a b Ha Hb Hij.
  pose proof (lookup_lt_Some _ _ _ Hb) as Hjlen. rewrite length_app in Hjlen. cbn in Hjlen.
  rewrite lookup_app_l in Ha by lia.
  destruct (decide (j < length l)) as [Hj|Hj].
  - rewrite lookup_app_l in Hb by lia. by apply (Hinc i j).
  - rewrite (lookup_app_r l) in Hb by lia.
    replace (j - length l) with 0 in Hb by lia. cbn in Hb. injection Hb as <-.
    destruct (last l) as [z|] eqn:Hz.
    + pose proof (Hlast (version z)) as Hzx. unfold lastVersion in Hzx.
      rewrite Hz in Hzx. specialize (Hzx eq_refl). rewrite last_lookup in Hz.
      pose proof (increasing_ordered l Hinc i (pred (length l)) a z Ha Hz ltac:(lia)). lia.
    + apply last_None in Hz. subst l. discriminate Ha.
Qed.

(** What a call of doApplyDDL that returns can have done. *)
Lemma doApplyDDL_cases (v v' : store) (ev : event) lg :
  apply v ev = (lg, inr v') →
  (∀ lv, lastVersion (infos v) = Some lv → (lv < ev_FinishedTs ev)%N)
  ∧ (v' = v
     ∨ v' = appendInfo WrapTableInfo InitPreSQLs v ev
     ∨ (v' = set_deleteVersion v (ev_FinishedTs ev)
        ∧ (ev_Type ev = ActionDropTable ∨ ev_Type ev = ActionTruncateTable))).
Proof.
  unfold doApplyDDL.
  destruct (bool_decide (length (infos v) ≠ 0) && finishedNotAfterLast v ev) eqn:Hg1;
    [discriminate|].
  assert (Hfresh : ∀ lv, lastVersion (infos v) = Some lv → (lv < ev_FinishedTs ev)%N).
  { intros lv Hlv. apply andb_false_iff in Hg1 as [Hg1|Hg1].
    - apply bool_decide_eq_false in Hg1. exfalso. apply Hg1.
      by eapply lastVersion_nonempty.
    - unfold finishedNotAfterLast in Hg1. rewrite Hlv in Hg1.
      apply bool_decide_eq_false in Hg1. lia. }
  assert (Hg2 : bool_decide (0 < length (infos v)) && finishedNotAfterLast v ev = false).
  { destruct (finishedNotAfterLast v ev) eqn:Hf; [|by rewrite andb_false_r].
    apply finishedNotAfterLast_spec in Hf as (lv & Hlv & Hle).
    pose proof (Hfresh lv Hlv). lia. }
  rewrite Hg2. intros Hres. split; [exact Hfresh|].
  unfold assertEmpty, assertNonEmpty in Hres.
  destruct (ev_Type ev) eqn:Hty; repeat case_decide;
    cbv [ret mret M_ret mbind M_bind logAt logPanic] in Hres; simplify_eq;
    try (by left); try (by right; left); right; right; split; auto.
Qed.

Lemma ordered_prefix (l k : list item) : ordered (l ++ k) → ordered l.
Proof.
  intros Hord i j a b Ha Hb Hij. apply (Hord i j a b); [| |done].
  - rewrite lookup_app_l; [done|]. by eapply lookup_lt_Some.
  - rewrite lookup_app_l; [done|]. by eapply lookup_lt_Some.
Qed.

Lemma boundary_snoc (l : list item) (x : item) ts r :
  boundary l ts r → (ts < version x)%N → boundary (l ++ [x]) ts r.
Proof.
  intros (Hl & Hlo & Hhi) Hx. split; [rewrite length_app; lia|]. split.
  - intros k it Hk Hit. rewrite lookup_app_l in Hit by lia. by apply (Hlo k).
  - intros k it Hk Hit. destruct (decide (k < length l)).
    + rewrite lookup_app_l in Hit by lia. by apply (Hhi k).
    + rewrite (lookup_app_r l) in Hit by lia.
      destruct (k - length l) as [|m]; cbn in Hit; [|by destruct m].
      by injection Hit as <-.
Qed.

(** An entry appended with a later version is invisible to earlier reads. *)
Lemma getTableInfo_snoc_before (v : store) (x : item) ts :
  ordered (infos v ++ [x]) → (ts < version x)%N →
  getTableInfo (set_infos v (infos v ++ [x])) ts = getTableInfo v ts.
Proof.
  intros Hord Hx. pose proof (ordered_prefix _ _ Hord) as Hord0.
  unfold getTableInfo, set_infos. cbn [infos deleteVersion initialized].
  destruct (initialized v); cbn [negb]; [|done].
  destruct (bool_decide (deleteVersion v ≤ ts)%N); [done|].
  pose proof (Search_is_boundary (infos v) ts Hord0) as Hb.
  pose proof (Search_is_boundary (infos v ++ [x]) ts Hord) as Hb'.
  rewrite (boundary_unique _ _ _ _ Hb' (boundary_snoc _ x _ _ Hb Hx)).
  destruct Hb as (Hlen & _).
  destruct (decide (Search (length (infos v)) (versionAfter (infos v) ts) = 0)); [done|].
  by rewrite lookup_app_l by lia.
Qed.

(** A read at or after the version of the last entry finds that entry. *)
Lemma getTableInfo_snoc_after (v : store) (x : item) ts :
  initialized v = true → ordered (infos v ++ [x]) →
  (version x ≤ ts)%N → (ts < deleteVersion v)%N →
  getTableInfo (set_infos v (infos v ++ [x])) ts = mret (inr (info x)).
Proof.
  intros Hinit Hord Hx Hdel.
  unfold getTableInfo, set_infos. cbn [infos deleteVersion initialized].
  rewrite Hinit. cbn [negb]. rewrite bool_decide_eq_false_2 by lia.
  assert (Hb : boundary (infos v ++ [x]) ts (length (infos v ++ [x]))).
  { split; [done|]. split.
    - intros k it Hk Hit.
      assert (Hlast : (infos v ++ [x]) !! length (infos v) = Some x).
      { rewrite lookup_app_r by lia. by rewrite Nat.sub_diag. }
      rewrite length_app in Hk. cbn in Hk.
      pose proof (Hord k (length (infos v)) it x Hit Hlast ltac:(lia)). lia.
    - intros k it Hk Hit. apply lookup_lt_Some in Hit. lia. }
  rewrite (boundary_unique _ _ _ _ (Search_is_boundary _ ts Hord) Hb).
  rewrite length_app. cbn [length].
  destruct (decide (length (infos v) + 1 = 0)); [lia|].
  rewrite lookup_app_r by lia.
  by replace (length (infos v) + 1 - 1 - length (infos v)) with 0 by lia.
Qed.

Lemma appendInfo_ordered (v : store) (ev : event) :
  ordered (infos v) →
  (∀ lv, lastVersion (infos v) = Some lv → (lv < ev_FinishedTs ev)%N) →
  ordered (infos (appendInfo WrapTableInfo InitPreSQLs v ev)).
Proof.
  intros Hord Hfresh. unfold appendInfo, set_infos. cbn [infos].
  apply ordered_snoc; [done|]. intros lv Hlv. cbn [version].
  pose proof (Hfresh lv Hlv). lia.
Qed.

(** X1. doApplyDDL only ever appends: when it returns, the new infos are the
    old ones followed by at most one entry, whose version is the event's
    FinishedTs; every version already stored is below that FinishedTs, so
    infos that were strictly increasing in version stay so. *)
Theorem doApplyDDL_history (v v' : store) (ev : event) lg :
  increasing (infos v) →
  apply v ev = (lg, inr v') →
  increasing (infos v')
  ∧ (∃ added, infos v' = infos v ++ added ∧ length added ≤ 1
              ∧ ∀ it, it ∈ added → version it = ev_FinishedTs ev)
  ∧ (∀ it, it ∈ infos v → (version it < ev_FinishedTs ev)%N).
Proof.
  intros Hinc Hres. destruct (doApplyDDL_cases _ _ _ _ Hres) as [Hfresh Hcases].
  assert (Hbelow : ∀ it, it ∈ infos v → (version it < ev_FinishedTs ev)%N).
  { intros it [i Hi]%list_elem_of_lookup.
    destruct (last (infos v)) as [z|] eqn:Hz.
    - pose proof (Hfresh (version z)) as Hzx. unfold lastVersion in Hzx.
      rewrite Hz in Hzx. specialize (Hzx eq_refl). rewrite last_lookup in Hz.
      pose proof (lookup_lt_Some _ _ _ Hi).
      pose proof (increasing_ordered _ Hinc i (pred (length (infos v))) it z Hi Hz
                    ltac:(lia)). lia.
    - apply last_None in Hz. rewrite Hz in Hi. discriminate Hi. }
  split; [|split; [|exact Hbelow]].
  - destruct Hcases as [->|[->|[-> _]]]; [done| |done].
    unfold appendInfo, set_infos. cbn [infos]. by apply increasing_snoc.
  - destruct Hcases as [->|[->|[-> _]]].
    + exists []. rewrite app_nil_r. split; [done|]. split; [cbn; lia|].
      intros it Hit. by apply elem_of_nil in Hit.
    + eexists [_]. unfold appendInfo, set_infos. cbn [infos]. split; [done|].
      split; [cbn; lia|]. intros it Hit. apply list_elem_of_singleton in Hit. by subst.
    + exists []. cbn [set_deleteVersion infos]. rewrite app_nil_r. split; [done|].
      split; [cbn; lia|]. intros it Hit. by apply elem_of_nil in Hit.
Qed.

(** X2. A DDL applied through applyDDL to an initialized store does not
    change the past: for every ts below the event's FinishedTs, getTableInfo
    answers after the call as it did before, logs included. *)
Theorem applyDDL_keeps_past_reads (v v' : store) (ev : event) lg :
  initialized v = true →
  ordered (infos v) →
  (ev_FinishedTs ev ≤ MaxUint64)%N →
  applyDDL WrapTableInfo InitPreSQLs v ev = (lg, inr v') →
  ∀ ts, (ts < ev_FinishedTs ev)%N → getTableInfo v' ts = getTableInfo v ts.
Proof.
  intros Hinit Hord Hmax Hres ts Hts. unfold applyDDL in Hres.
  unfold assertNonDeleted in Hres.
  destruct (decide (deleteVersion v ≠ MaxUint64)) as [|Hdel]; [discriminate|].
  apply dec_stable in Hdel. rewrite bind_ret_l, Hinit in Hres. cbn [negb] in Hres.
  destruct (doApplyDDL_cases _ _ _ _ Hres) as [Hfresh [->|[->|[-> _]]]]; [done| |].
  - unfold appendInfo. apply getTableInfo_snoc_before; [|done].
    by apply (appendInfo_ordered v ev).
  - unfold getTableInfo, set_deleteVersion. cbn [infos deleteVersion initialized].
    rewrite Hdel. rewrite !bool_decide_eq_false_2 by lia. done.
Qed.

(** X3. Read your write: whenever doApplyDDL returns with the infos changed,
    the new last entry carries the event's FinishedTs, and every read at a ts
    from that FinishedTs on (below the delete version) returns its info. *)
Theorem doApplyDDL_read_back (v v' : store) (ev : event) lg :
  initialized v = true →
  ordered (infos v) →
  apply v ev = (lg, inr v') →
  infos v' ≠ infos v →
  ∃ it, last (infos v') = Some it
        ∧ version it = ev_FinishedTs ev
        ∧ ∀ ts, (ev_FinishedTs ev ≤ ts)%N → (ts < deleteVersion v')%N →
                getTableInfo v' ts = mret (inr (info it)).
Proof.
  intros Hinit Hord Hres Hchg.
  destruct (doApplyDDL_cases _ _ _ _ Hres) as [Hfresh [->|[->|[-> _]]]]; [done| |done].
  unfold appendInfo. eexists. split; [apply last_snoc|]. split; [done|].
  intros ts Hts Hdel. apply getTableInfo_snoc_after; try done.
  by apply (appendInfo_ordered v ev).
Qed.

Lemma applyEach_from (f : store → event → M store) (m : M store) (es : list event) :
  foldl (λ acc e, w ← acc; f w e) m es = (w ← m; applyEach f w es).
Proof.
  revert m. induction es as [|e es IH]; intros m; cbn [foldl].
  - unfold applyEach. cbn [foldl]. by rewrite bind_ret_r.
  - rewrite IH, bind_assoc. apply bind_ext. intros w.
    unfold applyEach at 2. cbn [foldl]. by rewrite IH, bind_ret_l.
Qed.

Lemma applyEach_cons (f : store → event → M store) (v : store) e es :
  applyEach f v (e :: es) = (w ← f v e; applyEach f w es).
Proof.
  unfold applyEach at 1. cbn [foldl]. rewrite applyEach_from. by rewrite bind_ret_l.
Qed.

(** X4. Once a drop or truncate of the table with FinishedTs below
    MaxUint64 has been applied, every read at a ts from that FinishedTs on
    answers "table info deleted", and every further applyDDL panics. *)
Theorem dropped_table_is_gone (v : store) (ev : event) :
  initialized v = true →
  ev_Type ev = ActionDropTable ∨ ev_Type ev = ActionTruncateTable →
  (∀ lv, lastVersion (infos v) = Some lv → (lv < ev_FinishedTs ev)%N) →
  (ev_FinishedTs ev < MaxUint64)%N →
  apply v ev = mret (set_deleteVersion v (ev_FinishedTs ev))
  ∧ (∀ ts, (ev_FinishedTs ev ≤ ts)%N →
       getTableInfo (set_deleteVersion v (ev_FinishedTs ev)) ts = mret (inl errDeleted))
  ∧ (∀ later, applyDDL WrapTableInfo InitPreSQLs (set_deleteVersion v (ev_FinishedTs ev)) later
              = logPanic "shouldn't happen").
Proof.
  intros Hinit Hty Hfresh Hmax.
  assert (Hf : finishedNotAfterLast v ev = false).
  { destruct (finishedNotAfterLast v ev) eqn:Hf; [|done].
    apply finishedNotAfterLast_spec in Hf as (lv & Hlv & Hle).
    pose proof (Hfresh lv Hlv). lia. }
  split; [|split].
  - unfold doApplyDDL. rewrite Hf, !andb_false_r. by destruct Hty as [->| ->].
  - intros ts Hts. unfold getTableInfo, set_deleteVersion.
    cbn [infos deleteVersion initialized]. rewrite Hinit. cbn [negb].
    by rewrite bool_decide_eq_true_2.
  - intros later. unfold applyDDL, assertNonDeleted, set_deleteVersion.
    cbn [deleteVersion]. destruct (decide (ev_FinishedTs ev ≠ MaxUint64)); [done|lia].
Qed.

Lemma applyDDL_waiting (v : store) (e : event) :
  initialized v = false → deleteVersion v = MaxUint64 →
  applyDDL WrapTableInfo InitPreSQLs v e
  = mret (set_pendingDDLs v (pendingDDLs v ++ [e])).
Proof.
  intros Hinit Hdel. unfold applyDDL, assertNonDeleted.
  destruct (decide (deleteVersion v ≠ MaxUint64)) as [|_]; [done|].
  unfold ret. by rewrite bind_ret_l, Hinit.
Qed.

(** X5. DDLs that reach applyDDL before the store is initialized are not
    applied: they are queued behind the pending ones, in arrival order, with
    no log and no panic.  setTableInfoInitialized then runs doApplyDDL over
    exactly that queue, in that order, and marks the store initialized. *)
Theorem applyDDL_queues_before_init (v : store) (es : list event) :
  initialized v = false →
  deleteVersion v = MaxUint64 →
  let queued := set_pendingDDLs v (pendingDDLs v ++ es) in
  applyEach (applyDDL WrapTableInfo InitPreSQLs) v es = mret queued
  ∧ infos queued = infos v
  ∧ setTableInfoInitialized WrapTableInfo InitPreSQLs queued
    = (w ← applyEach apply queued (pendingDDLs v ++ es); mret (set_initialized w true)).
Proof.
  intros Hinit Hdel. cbv zeta. split; [|split; reflexivity].
  revert v Hinit Hdel. induction es as [|e es IH]; intros v Hinit Hdel.
  - unfold applyEach. cbn [foldl]. rewrite app_nil_r. by destruct v.
  - rewrite applyEach_cons, (applyDDL_waiting v e Hinit Hdel), bind_ret_l.
    rewrite IH by done. unfold set_pendingDDLs.
    cbn [tableID infos deleteVersion initialized pendingDDLs].
    by rewrite <- app_assoc.
Qed.

Lemma gc_unfold (v : store) g :
  initialized v = true → infos v ≠ [] →
  gc v g = mret (set_infos v
                   (drop (Search (length (infos v)) (versionAfter (infos v) g) - 1)
                         (infos v))).
Proof.
  intros Hinit Hne. unfold gc. rewrite Hinit. cbn [negb].
  destruct (decide (length (infos v) = 0)) as [Hz|_].
  { destruct (infos v); [done|discriminate Hz]. }
  cbv zeta. destruct (decide (Search _ _ = 0)) as [->|_]; [|done].
  cbn [Nat.sub]. rewrite drop_0. by destruct v.
Qed.

(** X6. Collecting garbage twice is collecting once at the later ts: on an
    initialized, non-empty store ordered by version, gc(a) followed by gc(b)
    with a <= b leaves what gc(b) alone leaves.  In particular gc is
    idempotent. *)
Theorem gc_then_gc (v : store) (a b : N) :
  initialized v = true →
  infos v ≠ [] →
  ordered (infos v) →
  (a ≤ b)%N →
  (v1 ← gc v a; gc v1 b) = gc v b.
Proof.
  intros Hinit Hne Hord Hab.
  pose proof (Search_is_boundary (infos v) a Hord) as Ha.
  pose proof (Search_is_boundary (infos v) b Hord) as Hb.
  pose proof (boundary_le _ _ _ _ _ Hab Ha Hb) as Hle.
  rewrite (gc_unfold v a Hinit Hne), bind_ret_l.
  set (ra := Search (length (infos v)) (versionAfter (infos v) a)) in *.
  set (rb := Search (length (infos v)) (versionAfter (infos v) b)) in *.
  assert (Hlen : length (infos v) ≠ 0) by (destruct (infos v); [done|cbn; lia]).
  destruct Ha as (Hra & _).
  rewrite gc_unfold; [|done|].
  2:{ unfold set_infos. cbn [infos]. intros Hnil. apply (f_equal length) in Hnil.
      rewrite length_drop in Hnil. cbn in Hnil. lia. }
  rewrite (gc_unfold v b Hinit Hne). fold rb.
  unfold set_infos. cbn [infos tableID deleteVersion initialized pendingDDLs].
  assert (Hk : ra - 1 ≤ rb) by lia.
  pose proof (boundary_unique _ _ _ _
                (Search_is_boundary (drop (ra - 1) (infos v)) b (ordered_drop _ _ Hord))
                (boundary_drop _ b _ (ra - 1) Hk Hb)) as ->.
  rewrite drop_drop.
  by replace (ra - 1 + (rb - (ra - 1) - 1)) with (rb - 1) by lia.
Qed.

(** X7. gc keeps only one entry with version <= gcTs: in the store it
    returns, an entry whose version is <= gcTs can only be the first. *)
Theorem gc_keeps_one_old_entry (v : store) (gcTs : N) :
  initialized v = true →
  infos v ≠ [] →
  ordered (infos v) →
  ∃ v', gc v gcTs = mret v'
        ∧ ∀ i it, infos v' !! i = Some it → (version it ≤ gcTs)%N → i = 0.
Proof.
  intros Hinit Hne Hord. eexists. split; [by apply gc_unfold|].
  destruct (Search_is_boundary (infos v) gcTs Hord) as (Hlen & Hlo & Hhi).
  set (r := Search (length (infos v)) (versionAfter (infos v) gcTs)) in *.
  unfold set_infos. cbn [infos]. intros i it Hit Hle. rewrite lookup_drop in Hit.
  destruct (decide (r - 1 + i < r)) as [|Hge]; [lia|].
  pose proof (Hhi (r - 1 + i) it ltac:(lia) Hit). lia.
Qed.

End Facts.

Lemma sampleStore_increasing : increasing (infos sampleStore).
Proof.
  intros i j a b Ha Hb Hij.
  destruct i as [|[|i]], j as [|[|j]]; cbn in Ha, Hb; simplify_eq; cbn; lia.
Qed.

Lemma sampleStore_fresh (ts : N) :
  (8 < ts)%N → ∀ lv, lastVersion (infos sampleStore) = Some lv → (lv < ts)%N.
Proof. intros Hts lv Hlv. cbn in Hlv. injection Hlv as <-. exact Hts. Qed.

Lemma doApplyDDL_history_witness :
  increasing (infos (appendInfo sampleWrap id sampleStore nextDDL))
  ∧ (∃ added, infos (appendInfo sampleWrap id sampleStore nextDDL)
                = infos sampleStore ++ added
              ∧ length added ≤ 1
              ∧ ∀ it, it ∈ added → version it = ev_FinishedTs nextDDL)
  ∧ (∀ it, it ∈ infos sampleStore → (version it < ev_FinishedTs nextDDL)%N).
Proof.
  apply (doApplyDDL_history sampleWrap id sampleStore _ nextDDL []);
    [exact sampleStore_increasing | vm_compute; reflexivity].
Defined.

Lemma applyDDL_keeps_past_reads_witness :
  getTableInfo (appendInfo sampleWrap id sampleStore nextDDL) 8%N
  = getTableInfo sampleStore 8%N.
Proof.
  apply (applyDDL_keeps_past_reads sampleWrap id sampleStore _ nextDDL []);
    [reflexivity | exact sampleStore_ordered | vm_compute; discriminate
    | vm_compute; reflexivity | vm_compute; reflexivity].
Defined.

Lemma doApplyDDL_read_back_witness :
  ∃ it, last (infos (appendInfo sampleWrap id sampleStore nextDDL)) = Some it
        ∧ version it = ev_FinishedTs nextDDL
        ∧ ∀ ts, (ev_FinishedTs nextDDL ≤ ts)%N →
                (ts < deleteVersion (appendInfo sampleWrap id sampleStore nextDDL))%N →
                getTableInfo (appendInfo sampleWrap id sampleStore nextDDL) ts
                = mret (inr (info it)).
Proof.
  apply (doApplyDDL_read_back sampleWrap id sampleStore _ nextDDL []);
    [reflexivity | exact sampleStore_ordered | vm_compute; reflexivity
    | vm_compute; discriminate].
Defined.

Lemma dropped_table_is_gone_witness :
  doApplyDDL sampleWrap id sampleStore dropDDL
    = mret (set_deleteVersion sampleStore (ev_FinishedTs dropDDL))
  ∧ (∀ ts, (ev_FinishedTs dropDDL ≤ ts)%N →
       getTableInfo (set_deleteVersion sampleStore (ev_FinishedTs dropDDL)) ts
       = mret (inl errDeleted))
  ∧ (∀ later, applyDDL sampleWrap id
                (set_deleteVersion sampleStore (ev_FinishedTs dropDDL)) later
              = logPanic "shouldn't happen").
Proof.
  apply (dropped_table_is_gone sampleWrap id sampleStore dropDDL);
    [reflexivity | left; reflexivity | apply sampleStore_fresh; vm_compute; reflexivity
    | vm_compute; reflexivity].
Defined.

Lemma applyDDL_queues_before_init_witness :
  applyEach (applyDDL sampleWrap id) waitingStore [nextDDL; dropDDL]
    = mret (set_pendingDDLs waitingStore (pendingDDLs waitingStore ++ [nextDDL; dropDDL]))
  ∧ infos (set_pendingDDLs waitingStore (pendingDDLs waitingStore ++ [nextDDL; dropDDL]))
    = infos waitingStore
  ∧ setTableInfoInitialized sampleWrap id
      (set_pendingDDLs waitingStore (pendingDDLs waitingStore ++ [nextDDL; dropDDL]))
    = (w ← applyEach (doApplyDDL sampleWrap id)
             (set_pendingDDLs waitingStore (pendingDDLs waitingStore ++ [nextDDL; dropDDL]))
             (pendingDDLs waitingStore ++ [nextDDL; dropDDL]);
       mret (set_initialized w true)).
Proof.
  apply (applyDDL_queues_before_init sampleWrap id waitingStore [nextDDL; dropDDL]);
    reflexivity.
Defined.

Lemma gc_then_gc_witness : (v1 ← gc sampleStore 6%N; gc v1 8%N) = gc sampleStore 8%N.
Proof.
  apply (gc_then_gc sampleStore 6%N 8%N);
    [reflexivity | discriminate | exact sampleStore_ordered | vm_compute; discriminate].
Defined.

Lemma gc_keeps_one_old_entry_witness :
  ∃ v', gc sampleStore 8%N = mret v'
        ∧ ∀ i it, infos v' !! i = Some it → (version it ≤ 8)%N → i = 0.
Proof.
  apply (gc_keeps_one_old_entry sampleStore 8%N);
    [reflexivity | discriminate | exact sampleStore_ordered].
Defined.

(** The pending queue replayed: an add column on an empty store panics in
    assertNonEmpty, so initialization of such a table stops there. *)
Example replay_needs_a_snapshot :
  outcome (setTableInfoInitialized sampleWrap id
             (set_pendingDDLs waitingStore [nextDDL]))
  = inl (Panic "shouldn't happen").
Proof. vm_compute. reflexivity. Qed.

End SchemaStoreHistoryFacts.

(** ** The operator controller: Execute and the running queue *)

Module OperatorExecuteFacts.
Import Replica Operator OperatorExecute OperatorFacts.

Lemma heapPush_perm (x : operatorWithTime) q : heapPush x q ≡ₚ x :: q.
Proof.
  induction q as [|y q IH]; cbn; [done|].
  case_decide; [done|]. rewrite IH. apply perm_swap.
Qed.


Section Facts.

Context {Msg : Type}.
Context (effect : Operator → Method → ReplicationDB → ReplicationDB).

Abbreviation poll := (pollQueueingOperator effect).









Section Loop.

Context (scheduleMsg : Operator → option Msg).
Context (isFinished : nat → Operator → bool).
Context (now later : nat → Z).

Abbreviation loop := (executeLoop Msg effect scheduleMsg isFinished now later).

(** Whatever the polls and the Schedule calls keep, Execute keeps. *)
Lemma executeLoop_inv (Inv : Controller → Prop) :
  (∀ fin t oc, Inv oc → Inv (poll fin t oc).1.2) →
  (∀ o m oc, Inv oc → Inv (call effect o m oc)) →
  ∀ fuel k n oc evs res,
    loop fuel k n oc evs = Some res → Inv oc → Inv res.1.2.
Proof.
  intros Hpoll Hcall fuel.
  induction fuel as [|fuel IH]; intros k n oc evs res Hres Hoc; [discriminate|].
  cbn [executeLoop] in Hres.
  pose proof (Hpoll (isFinished k) (now k) oc Hoc) as Hoc1.
  destruct (poll (isFinished k) (now k) oc) as [[[r next] oc1] pevs].
  cbn [fst snd] in Hoc1.
  destruct next; cbn [negb] in Hres; [|by injection Hres as <-].
  destruct r as [o|]; [|by eapply IH].
  case_bool_decide.
  - injection Hres as <-. cbn. by apply Hcall.
  - eapply IH; [exact Hres|]. by apply Hcall.
Qed.


End Loop.



(** X9. AddOperator and the readers: after an AddOperator that returns true,
    GetOperator finds the operator under its ID, every other ID reads as
    before and OperatorSize has grown by one; after one that returns false
    both readers answer as before. *)
Theorem AddOperator_then_GetOperator (t : Z) (o : Operator) (oc : Controller) :
  ((AddOperator effect t o oc).1.1 = true →
     GetOperator (AddOperator effect t o oc).1.2 (op_ID o) = Some o
     ∧ (∀ d, d ≠ op_ID o →
             GetOperator (AddOperator effect t o oc).1.2 d = GetOperator oc d)
     ∧ OperatorSize (AddOperator effect t o oc).1.2 = S (OperatorSize oc))
  ∧ ((AddOperator effect t o oc).1.1 = false →
     (∀ d, GetOperator (AddOperator effect t o oc).1.2 d = GetOperator oc d)
     ∧ OperatorSize (AddOperator effect t o oc).1.2 = OperatorSize oc).
Proof.
  unfold AddOperator, GetOperator, OperatorSize.
  destruct (operators oc !! op_ID o) eqn:Hold; [by split|].
  destruct (GetTaskByID (replicationDB oc) (op_ID o)); [|by split].
  cbn. split; [|done]. intros _. split; [apply lookup_insert_eq|].
  split; [intros d Hd; by apply lookup_insert_ne|].
  by apply map_size_insert_None.
Qed.

Lemma queueWellFormed_perm oc q :
  queueWellFormed oc → q ≡ₚ runningQueue oc → queueWellFormed (set_queue oc q).
Proof.
  intros [Hnd Hin] Hq. split; cbn.
  - by rewrite Hq.
  - intros item Hitem. rewrite Hq in Hitem. by apply Hin.
Qed.

Lemma AddOperator_queueWellFormed t o oc :
  queueWellFormed oc → queueWellFormed (AddOperator effect t o oc).1.2.
Proof.
  intros [Hnd Hin]. unfold AddOperator.
  destruct (operators oc !! op_ID o) eqn:Hold; [done|].
  destruct (GetTaskByID (replicationDB oc) (op_ID o)); [|done].
  split; cbn.
  - rewrite heapPush_perm, fmap_cons. apply NoDup_cons. split; [|done].
    intros [item [Hid Hitem]]%list_elem_of_fmap. cbn in Hid.
    destruct (Hin item Hitem) as [x Hx]. rewrite <- Hid, Hold in Hx. discriminate Hx.
  - intros item Hitem. rewrite heapPush_perm in Hitem.
    apply elem_of_cons in Hitem as [->|Hitem]; cbn.
    + rewrite lookup_insert_eq. eauto.
    + destruct (Hin item Hitem) as [x Hx].
      destruct (decide (op_ID o = op_ID (op item))) as [Heq|Hne].
      * rewrite Heq, lookup_insert_eq. eauto.
      * rewrite lookup_insert_ne by done. eauto.
Qed.

Lemma poll_queueWellFormed fin t oc :
  queueWellFormed oc → queueWellFormed (poll fin t oc).1.2.
Proof.
  intros Hwf. pose proof Hwf as [Hnd Hin]. unfold pollQueueingOperator.
  destruct (runningQueue oc) as [|item q] eqn:Hq; cbn [heapPop]; [done|].
  destruct (fin (op item)).
  - rewrite fmap_cons in Hnd. apply NoDup_cons in Hnd as [Hnot Hnd].
    split; cbn; [done|]. intros it Hit.
    rewrite lookup_delete_ne.
    + apply Hin. apply elem_of_cons. by right.
    + intros Heq. apply Hnot. apply list_elem_of_fmap. exists it. by split.
  - case_bool_decide; cbn [fst snd].
    + split; cbn.
      * by rewrite heapPush_perm.
      * intros it Hit. rewrite heapPush_perm in Hit. by apply Hin.
    + split; cbn.
      * rewrite heapPush_perm. by rewrite fmap_cons in *.
      * intros it Hit. rewrite heapPush_perm in Hit.
        apply elem_of_cons in Hit as [->|Hit]; cbn.
        -- apply (Hin item). apply elem_of_cons. by left.
        -- apply Hin. apply elem_of_cons. by right.
Qed.

Lemma removeReplicaSet_queueWellFormed o oc :
  queueWellFormed oc → queueWellFormed (removeReplicaSet effect o oc).1.
Proof.
  intros [Hnd Hin].
  assert (Hq : runningQueue (removeReplicaSet effect o oc).1 = runningQueue oc).
  { unfold removeReplicaSet. by destruct (operators oc !! op_ID o). }
  split; rewrite Hq; [done|]. intros item Hitem.
  rewrite removeReplicaSet_operators.
  destruct (Hin item Hitem) as [x Hx].
  destruct (decide (op_ID o = op_ID (op item))) as [Heq|Hne].
  - rewrite Heq, lookup_insert_eq. eauto.
  - rewrite lookup_insert_ne by done. eauto.
Qed.

Lemma removeReplicaSets_queueWellFormed rs oc :
  queueWellFormed oc → queueWellFormed (removeReplicaSets effect rs oc).1.
Proof.
  revert oc. induction rs as [|r rs IH]; intros oc Hwf; [done|].
  rewrite removeReplicaSets_cons. cbn. apply IH.
  by apply removeReplicaSet_queueWellFormed.
Qed.

(** X10. The running queue never holds two entries for one dispatcher, and
    every dispatcher it holds has an operator in the map: a new controller is
    in that state, and AddOperator, pollQueueingOperator, removeReplicaSet,
    the Remove* loop and Execute keep it. *)
Theorem running_queue_well_formed (oc : Controller) :
  queueWellFormed oc →
  (∀ cf db batch, queueWellFormed (NewOperatorController cf db batch))
  ∧ (∀ t o, queueWellFormed (AddOperator effect t o oc).1.2)
  ∧ (∀ fin t, queueWellFormed (poll fin t oc).1.2)
  ∧ (∀ o, queueWellFormed (removeReplicaSet effect o oc).1)
  ∧ (∀ removed, queueWellFormed (removeReplicaSets effect removed oc).1)
  ∧ (∀ scheduleMsg isFinished now later res,
       Execute Msg effect scheduleMsg isFinished now later oc = Some res →
       queueWellFormed res.1.2).
Proof.
  intros Hwf. split; [|split; [|split; [|split; [|split]]]].
  - intros cf db batch. split; cbn; [apply NoDup_nil_2|].
    intros item Hitem. by apply elem_of_nil in Hitem.
  - intros t o. by apply AddOperator_queueWellFormed.
  - intros fin t. by apply poll_queueWellFormed.
  - intros o. by apply removeReplicaSet_queueWellFormed.
  - intros removed. by apply removeReplicaSets_queueWellFormed.
  - intros scheduleMsg isFinished now later res Hres. unfold Execute in Hres.
    apply (executeLoop_inv scheduleMsg isFinished now later queueWellFormed) in Hres;
      [done| | |done].
    + intros fin t c Hc. by apply poll_queueWellFormed.
    + by intros o m c Hc.
Qed.

End Facts.

Lemma oc1_queueWellFormed : queueWellFormed oc1.
Proof.
  apply AddOperator_queueWellFormed. split; cbn; [apply NoDup_nil_2|].
  intros item Hitem. by apply elem_of_nil in Hitem.
Qed.

Lemma running_queue_well_formed_witness :
  (∀ cf db batch, queueWellFormed (NewOperatorController cf db batch))
  ∧ (∀ t o, queueWellFormed (AddOperator noEffect t o oc1).1.2)
  ∧ (∀ fin t, queueWellFormed (pollQueueingOperator noEffect fin t oc1).1.2)
  ∧ (∀ o, queueWellFormed (removeReplicaSet noEffect o oc1).1)
  ∧ (∀ removed, queueWellFormed (removeReplicaSets noEffect removed oc1).1)
  ∧ (∀ scheduleMsg isFinished now later res,
       Execute string noEffect scheduleMsg isFinished now later oc1 = Some res →
       queueWellFormed res.1.2).
Proof.
  apply (running_queue_well_formed (Msg := string) noEffect oc1).
  exact oc1_queueWellFormed.
Defined.

Lemma AddOperator_then_GetOperator_witness :
  (GetOperator (AddOperator noEffect 0 addOp1 oc0).1.2 (op_ID addOp1) = Some addOp1
   ∧ (∀ d, d ≠ op_ID addOp1 →
           GetOperator (AddOperator noEffect 0 addOp1 oc0).1.2 d = GetOperator oc0 d)
   ∧ OperatorSize (AddOperator noEffect 0 addOp1 oc0).1.2 = S (OperatorSize oc0))
  ∧ ((∀ d, GetOperator (AddOperator noEffect 7 addOp1 oc1).1.2 d = GetOperator oc1 d)
     ∧ OperatorSize (AddOperator noEffect 7 addOp1 oc1).1.2 = OperatorSize oc1).
Proof.
  split.
  - apply (proj1 (AddOperator_then_GetOperator noEffect 0 addOp1 oc0)).
    vm_compute. reflexivity.
  - apply (proj2 (AddOperator_then_GetOperator noEffect 7 addOp1 oc1)).
    vm_compute. reflexivity.
Defined.

(** Execute at work on two queued operators: both are due and scheduled, the
    one with a message has it sent, and with the batch of 1000 not filled the
    next run is asked for 200 ms later. *)
Example Execute_two_operators :
  (λ res, (res.1.1, scheduledCount res.2,
           filter (λ e, isScheduleCall e = false) res.2))
    <$> Execute string noEffect
          (λ o, if decide (o = addOp1) then Some "create dispatcher 1" else None)
          (λ _ _, false) (λ _, 5%Z) (λ _, 6%Z) oc2
  = Some ((6 + Millisecond * 200)%Z, 2, [SendCommand "create dispatcher 1"]).
Proof. vm_compute. reflexivity. Qed.

(** With a batch of one the first operator fills it, and the next run is
    asked for 50 ms later. *)
Example Execute_fills_batch :
  (λ res, (res.1.1, scheduledCount res.2))
    <$> Execute string noEffect (λ _, None) (λ _ _, false) (λ _, 5%Z) (λ _, 6%Z)
          (mkController "test" (replicationDB oc2) (operators oc2) (runningQueue oc2) 1)
  = Some ((6 + Millisecond * 50)%Z, 1).
Proof. vm_compute. reflexivity. Qed.

End OperatorExecuteFacts.

(** ** The supervisor: checkRunningTasks *)

Module SupervisorRunningFacts.
Import Supervisor SupervisorFacts.

Section Facts.

Context `{Countable MaintainerID}.
Context {Inferior CaptureStatus StateMachine ScheduleTask TargetMessage : Type}.

Abbreviation Sup :=
  (Supervisor (MaintainerID := MaintainerID) Inferior CaptureStatus StateMachine ScheduleTask).

Context (HasRemoved isWorking : StateMachine → bool).
Context (GetSchedulingMessage : StateMachine → option TargetMessage).
Context (GetSchedulingMessageOfNil : Abort + option TargetMessage).

Abbreviation message :=
  (schedulingMessage Inferior CaptureStatus StateMachine ScheduleTask TargetMessage
     GetSchedulingMessage GetSchedulingMessageOfNil).

Abbreviation isDone :=
  (taskDone Inferior CaptureStatus StateMachine ScheduleTask HasRemoved isWorking).

(** X11. checkRunningTasks calls GetSchedulingMessage for every running
    task, also for one whose state machine is missing: when the method does
    not stand a nil receiver the call panics and nothing is pruned.  When all
    the calls return it only prunes: afterwards a task is running exactly
    when it was running before and its state machine exists, has not been
    removed and is not Working; nothing else of the supervisor changes.  The
    messages returned are the scheduling messages of the tasks that were
    running when it was called, pruned ones included. *)
Theorem checkRunningTasks_prunes (s : Sup) :
  let checked :=
    checkRunningTasks Inferior CaptureStatus StateMachine ScheduleTask TargetMessage
      HasRemoved isWorking GetSchedulingMessage GetSchedulingMessageOfNil s in
  (∀ p id, GetSchedulingMessageOfNil = inl p →
           is_Some (RunningTasks s !! id) → StateMachines s !! id = None →
           checked = inl p)
  ∧ ((∀ id, is_Some (RunningTasks s !! id) → ∃ msg, message s id = inr msg) →
     ∃ msgs s1 evs,
       checked = inr (msgs, s1, evs)
       ∧ (∀ id, RunningTasks s1 !! id
                = if isDone s id then None else RunningTasks s !! id)
       ∧ StateMachines s1 = StateMachines s
       ∧ maxTaskConcurrency s1 = maxTaskConcurrency s
       ∧ schedulers s1 = schedulers s
       ∧ (∀ msg, msg ∈ msgs ↔
                 ∃ id, is_Some (RunningTasks s !! id) ∧ message s id = inr (Some msg))).
Proof.
  cbv zeta. split.
  - intros p id Hnil Hrun Hnone. by apply (check_panics _ _ _ _ s p id).
  - intros Hall.
    destruct (check_returns HasRemoved isWorking _ _ s Hall)
      as (pruned & evs & -> & Hpruned & _).
    eexists _, _, _. split; [reflexivity|]. split; [exact Hpruned|].
    split; [done|]. split; [done|]. split; [done|].
    intros msg. rewrite answers_elem_of. split.
    + intros (id & Hid & Hans). exists id. split; [by apply running_ids|].
      destruct (message s id) as [?|[?|]]; by simplify_eq.
    + intros (id & Hid & Hans). exists id. split; [by apply running_ids|].
      by rewrite Hans.
Qed.

End Facts.

Lemma checkRunningTasks_prunes_witness :
  checkRunningTasks unit unit unit string string (λ _, false) (λ _, false)
    sampleMessage nilDereference orphanSupervisor
  = inl (Panic "invalid memory address or nil pointer dereference")
  ∧ ∃ msgs s1 evs,
      checkRunningTasks unit unit unit string string (λ _, false) (λ _, true)
        sampleMessage nilDereference sampleSupervisor
      = inr (msgs, s1, evs)
      ∧ RunningTasks s1 !! "cf-0" = None
      ∧ "still scheduling" ∈ msgs.
Proof.
  split.
  - apply (proj1 (checkRunningTasks_prunes (λ _, false) (λ _, false) sampleMessage
                    nilDereference orphanSupervisor)
             (Panic "invalid memory address or nil pointer dereference") "cf-0");
      [reflexivity | vm_compute; eauto | reflexivity].
  - destruct (proj2 (checkRunningTasks_prunes (λ _, false) (λ _, true) sampleMessage
                       nilDereference sampleSupervisor)
                (λ id, oneTask_returns sampleSupervisor id eq_refl eq_refl))
      as (msgs & s1 & evs & Hrun & Hkept & _ & _ & _ & Hmsgs).
    exists msgs, s1, evs. split; [exact Hrun|]. split.
    + rewrite Hkept. reflexivity.
    + apply Hmsgs. exists "cf-0". split; [vm_compute; eauto|reflexivity].
Defined.

End SupervisorRunningFacts.

(** ** The open-protocol messages *)

Module OpenProtocolFacts.
Import OpenProtocol.

Section Facts.

Context {Column CodecColumn : Type}.
Context (colName : Column → string).
Context (IsHandleKey : Column → bool).
Context (FromRowChangeColumn : Column → CodecColumn).
Context (colType : CodecColumn → Z).
Context (IsColumnValueEqual : CodecColumn → CodecColumn → bool).

Abbreviation toCodec :=
  (rowChangeColumns2CodecColumns Column CodecColumn colName IsHandleKey FromRowChangeColumn).
Abbreviation output := (outputColumn Column IsHandleKey).

Abbreviation step := (toCodecStep Column CodecColumn colName IsHandleKey FromRowChangeColumn).
Abbreviation drop1 := (dropStep CodecColumn colType IsColumnValueEqual).

Lemma toCodec_keeps only cols (acc : gmap string CodecColumn) k :
  is_Some (acc !! k) → is_Some (foldl (step only) acc cols !! k).
Proof.
  revert acc. induction cols as [|col cols IH]; intros acc Hk; [done|].
  cbn [foldl]. apply IH. unfold toCodecStep. destruct col as [c|]; [|done].
  destruct (only && negb (IsHandleKey c)); [done|].
  destruct (decide (colName c = k)) as [->|Hne].
  - rewrite lookup_insert_eq. eauto.
  - by rewrite lookup_insert_ne.
Qed.

Lemma toCodec_untouched only cols (acc : gmap string CodecColumn) k :
  (∀ c, Some c ∈ cols → output only (Some c) → colName c ≠ k) →
  foldl (step only) acc cols !! k = acc !! k.
Proof.
  revert acc. induction cols as [|col cols IH]; intros acc Hk; [done|].
  cbn [foldl]. rewrite IH.
  - unfold toCodecStep. destruct col as [c|]; [|done].
    destruct (only && negb (IsHandleKey c)) eqn:Hskip; [done|].
    rewrite lookup_insert_ne; [done|]. apply Hk; [apply elem_of_cons; by left|].
    exists c. split; [done|]. intros ->. cbn in Hskip. by destruct (IsHandleKey c).
  - intros c Hc. apply Hk. apply elem_of_cons. by right.
Qed.

Lemma toCodec_origin only cols (acc : gmap string CodecColumn) name cc :
  foldl (step only) acc cols !! name = Some cc →
  acc !! name = Some cc
  ∨ ∃ c, Some c ∈ cols ∧ colName c = name ∧ cc = FromRowChangeColumn c
         ∧ (only = true → IsHandleKey c = true).
Proof.
  revert acc. induction cols as [|col cols IH]; intros acc Hres; [by left|].
  cbn [foldl] in Hres. destruct (IH _ Hres) as [Hacc|(c & Hc & Hrest)].
  - unfold toCodecStep in Hacc. destruct col as [c|]; [|by left].
    destruct (only && negb (IsHandleKey c)) eqn:Hskip; [by left|].
    destruct (decide (colName c = name)) as [Heq|Hne].
    + rewrite Heq, lookup_insert_eq in Hacc. injection Hacc as <-.
      right. exists c. split; [apply elem_of_cons; by left|]. split; [done|].
      split; [done|]. intros ->. cbn in Hskip. by destruct (IsHandleKey c).
    + rewrite lookup_insert_ne in Hacc by done. by left.
  - right. exists c. split; [apply elem_of_cons; by right|done].
Qed.

Lemma toCodec_present only cols (acc : gmap string CodecColumn) c :
  Some c ∈ cols → (only = true → IsHandleKey c = true) →
  is_Some (foldl (step only) acc cols !! colName c).
Proof.
  revert acc. induction cols as [|col cols IH]; intros acc Hc Hq.
  { by apply elem_of_nil in Hc. }
  cbn [foldl]. apply elem_of_cons in Hc as [<-|Hc]; [|by apply IH].
  apply toCodec_keeps. unfold toCodecStep.
  assert (only && negb (IsHandleKey c) = false) as ->.
  { destruct only; [|done]. by rewrite Hq. }
  rewrite lookup_insert_eq. eauto.
Qed.

Lemma toCodec_empty_iff (cols : list (option Column)) (only : bool) :
  size (toCodec cols only) = 0 ↔ ∀ col, col ∈ cols → ¬ output only col.
Proof.
  unfold rowChangeColumns2CodecColumns. rewrite map_size_empty_iff. split.
  - intros Hempty col Hcol (c & -> & Hq).
    destruct (toCodec_present only cols ∅ c Hcol Hq) as [cc Hcc].
    by rewrite Hempty, lookup_empty in Hcc.
  - intros Hnone. apply map_empty. intros name.
    destruct (foldl (step only) ∅ cols !! name) as [cc|] eqn:Hres; [|done].
    destruct (toCodec_origin _ _ _ _ _ Hres) as [Hempty|(c & Hc & _ & _ & Hq)].
    + by rewrite lookup_empty in Hempty.
    + exfalso. apply (Hnone (Some c) Hc). by exists c.
Qed.

(** X13. rowChangeColumns2CodecColumns outputs exactly the non-nil columns
    of the slice, only the handle-key ones when asked for those: every entry
    of the map comes from such a column, under its name; every such column
    has an entry; of two columns with one name the later one is kept; and the
    map is empty (nil) exactly when no column qualifies. *)
Theorem rowChangeColumns2CodecColumns_spec (cols : list (option Column)) (only : bool) :
  let jsonCols :=
    rowChangeColumns2CodecColumns Column CodecColumn colName IsHandleKey FromRowChangeColumn
      cols only in
  (∀ name cc, jsonCols !! name = Some cc →
     ∃ c, Some c ∈ cols ∧ colName c = name ∧ cc = FromRowChangeColumn c
          ∧ (only = true → IsHandleKey c = true))
  ∧ (∀ c, Some c ∈ cols → (only = true → IsHandleKey c = true) →
          is_Some (jsonCols !! colName c))
  ∧ (∀ before c after,
       cols = before ++ Some c :: after →
       (only = true → IsHandleKey c = true) →
       (∀ c', Some c' ∈ after → output only (Some c') → colName c' ≠ colName c) →
       jsonCols !! colName c = Some (FromRowChangeColumn c))
  ∧ (size jsonCols = 0 ↔ ∀ col, col ∈ cols → ¬ output only col).
Proof.
  cbv zeta. split; [|split; [|split]]; [unfold rowChangeColumns2CodecColumns..|].
  - intros name cc Hres. destruct (toCodec_origin _ _ _ _ _ Hres) as [Hempty|Hc]; [|done].
    by rewrite lookup_empty in Hempty.
  - intros c Hc Hq. by apply toCodec_present.
  - intros before c after -> Hq Hafter. rewrite foldl_app. cbn [foldl].
    rewrite toCodec_untouched by done. unfold toCodecStep at 1.
    assert (only && negb (IsHandleKey c) = false) as ->.
    { destruct only; [|done]. by rewrite Hq. }
    apply lookup_insert_eq.
  - apply toCodec_empty_iff.
Qed.

Lemma dropStep_fold (l : list (string * CodecColumn)) (pre : gmap string CodecColumn) :
  NoDup l.*1 →
  ∀ col,
    foldl drop1 pre l !! col
    = match pre !! col with
      | None => None
      | Some oldValue =>
          match (list_to_map l : gmap string CodecColumn) !! col with
          | None => Some oldValue
          | Some value =>
              if bool_decide (colType value ≠ colType oldValue) then Some oldValue
              else if IsColumnValueEqual oldValue value then None
              else Some oldValue
          end
      end.
Proof.
  revert pre. induction l as [|[k v] l IH]; intros pre Hnd col.
  { cbn. by destruct (pre !! col). }
  rewrite fmap_cons in Hnd. apply NoDup_cons in Hnd as [Hk Hnd]. cbn [foldl].
  rewrite (IH _ Hnd). cbn [list_to_map foldr fst snd]. unfold dropStep at 1.
  destruct (decide (k = col)) as [->|Hne].
  - rewrite lookup_insert_eq.
    rewrite (not_elem_of_list_to_map_1 (M := gmap string) l col Hk).
    destruct (pre !! col) as [old|] eqn:Hold; [|by rewrite Hold].
    case_bool_decide; [by rewrite Hold|].
    destruct (IsColumnValueEqual old v); [by rewrite lookup_delete_eq|by rewrite Hold].
  - rewrite lookup_insert_ne by done.
    assert (Hsame : ∀ m' : gmap string CodecColumn,
              m' = pre ∨ m' = delete k pre → m' !! col = pre !! col).
    { intros m' [->| ->]; [done|]. by rewrite lookup_delete_ne. }
    rewrite Hsame; [done|].
    destruct (pre !! k) as [old|]; [|by left].
    case_bool_decide; [by left|]. destruct (IsColumnValueEqual old v); auto.
Qed.

Abbreviation dropNotUpdated :=
  (dropNotUpdatedColumns CodecColumn colType IsColumnValueEqual).
Abbreviation toMsg :=
  (rowChangeToMsg Column CodecColumn colName IsHandleKey FromRowChangeColumn
     colType IsColumnValueEqual).
Abbreviation hasKey := (hasHandleKey Column IsHandleKey).

(** X14. dropNotUpdatedColumns leaves Update and Delete alone and takes out
    of PreColumns exactly the columns that Update also has, with the same SQL
    type and an equal value; every other old column stays as it was. *)
Theorem dropNotUpdatedColumns_spec (m : messageRow CodecColumn) :
  Update _ (dropNotUpdated m) = Update _ m
  ∧ Delete _ (dropNotUpdated m) = Delete _ m
  ∧ PreColumns _ (dropNotUpdated m) ⊆ PreColumns _ m
  ∧ ∀ col,
      PreColumns _ (dropNotUpdated m) !! col
      = match PreColumns _ m !! col with
        | None => None
        | Some oldValue =>
            match Update _ m !! col with
            | None => Some oldValue
            | Some value =>
                if bool_decide (colType value ≠ colType oldValue) then Some oldValue
                else if IsColumnValueEqual oldValue value then None
                else Some oldValue
            end
        end.
Proof.
  assert (Hlookup : ∀ col,
      PreColumns _ (dropNotUpdated m) !! col
      = match PreColumns _ m !! col with
        | None => None
        | Some oldValue =>
            match Update _ m !! col with
            | None => Some oldValue
            | Some value =>
                if bool_decide (colType value ≠ colType oldValue) then Some oldValue
                else if IsColumnValueEqual oldValue value then None
                else Some oldValue
            end
        end).
  { intros col. unfold dropNotUpdatedColumns. cbn [PreColumns].
    rewrite dropStep_fold by apply NoDup_fst_map_to_list.
    by rewrite list_to_map_to_list. }
  split; [done|]. split; [done|]. split; [|done].
  apply map_subseteq_spec. intros col cc. rewrite Hlookup.
  destruct (PreColumns _ m !! col) as [old|]; [|done].
  destruct (Update _ m !! col) as [value|]; [|done].
  case_bool_decide; [done|]. by destruct (IsColumnValueEqual old value).
Qed.

Lemma no_key_iff (cols : list (option Column)) :
  bool_decide (size (toCodec cols true) = 0) = true ↔ ¬ hasKey cols.
Proof.
  rewrite bool_decide_eq_true, toCodec_empty_iff. split.
  - intros Hnone (c & Hc & Hk). apply (Hnone (Some c) Hc). by exists c.
  - intros Hno col Hcol (c & -> & Hq). apply Hno. exists c. auto.
Qed.

(** X15. rowChangeToMsg fails exactly when only handle-key columns are to be
    output and a column set it needs has none: for a delete, when
    DeleteOnlyHandleKeyColumns or the large-message switch is on and the old
    columns have no handle key; otherwise, when the large-message switch is
    on and the new columns have no handle key or, for an update with old
    values output, the old columns have none.  When it succeeds the key
    carries the commit ts, the names, the partition of a partition table and
    the row type; a delete fills only Delete, the others never fill it. *)
Theorem rowChangeToMsg_errors (e : RowChangedEvent Column) (config : Config) (large : bool) :
  ((∃ err, toMsg e config large = inl err) ↔
     (IsDelete _ e = true
      ∧ DeleteOnlyHandleKeyColumns config || large = true
      ∧ ¬ hasKey (GetPreColumns _ e))
     ∨ (IsDelete _ e = false ∧ large = true
        ∧ (¬ hasKey (GetColumns _ e)
           ∨ (IsUpdate _ e = true ∧ OpenOutputOldValue config = true
              ∧ ¬ hasKey (GetPreColumns _ e)))))
  ∧ (∀ key value, toMsg e config large = inr (key, value) →
       key = mkMessageKey (CommitTs _ e) (SchemaName _ e) (TableName _ e)
               (if IsPartitionTable _ e then Some (GetTableID _ e) else None)
               MessageTypeRow large
       ∧ (IsDelete _ e = true →
          Update _ value = ∅ ∧ PreColumns _ value = ∅
          ∧ Delete _ value
            = toCodec (GetPreColumns _ e) (DeleteOnlyHandleKeyColumns config || large))
       ∧ (IsDelete _ e = false →
          Delete _ value = ∅ ∧ Update _ value = toCodec (GetColumns _ e) large)).
Proof.
  unfold rowChangeToMsg. cbv zeta.
  pose proof (no_key_iff (GetPreColumns _ e)) as Hpre.
  pose proof (no_key_iff (GetColumns _ e)) as Hcol.
  destruct (IsDelete _ e).
  - destruct (DeleteOnlyHandleKeyColumns config || large) eqn:Honly; cbn [andb].
    + destruct (bool_decide (size (toCodec (GetPreColumns _ e) true) = 0)) eqn:Hsz.
      * split; [|intros ? ? [=]]. split; [|eauto]. intros _. left.
        split; [done|]. split; [done|]. by apply Hpre.
      * split.
        -- split; [intros [? [=]]|]. intros [(_ & _ & Hno)|(Hd & _)]; [|done].
           apply Hpre in Hno. congruence.
        -- intros key value [= <- <-]. cbn. rewrite ?Honly. done.
    + split.
      * split; [intros [? [=]]|]. intros [(_ & Hd & _)|(Hd & _)]; done.
      * intros key value [= <- <-]. cbn. rewrite ?Honly. done.
  - destruct large; cbn [andb].
    + destruct (IsUpdate _ e).
      * destruct (bool_decide (size (toCodec (GetColumns _ e) true) = 0)) eqn:Hsz;
          cbn [orb].
        { split; [|intros ? ? [=]]. split; [|eauto]. intros _. right.
          split; [done|]. split; [done|]. left. by apply Hcol. }
        destruct (OpenOutputOldValue config) eqn:Hold; rewrite ?andb_true_r, ?andb_false_r.
        -- destruct (bool_decide (size (toCodec (GetPreColumns _ e) true) = 0)) eqn:Hsz2.
           ++ split; [|intros ? ? [=]]. split; [|eauto]. intros _. right.
              split; [done|]. split; [done|]. right. split; [done|]. split; [done|].
              by apply Hpre.
           ++ split.
              ** split; [intros [? [=]]|]. intros [(Hd & _)|(_ & _ & [Hno|(_ & _ & Hno)])];
                   [done|apply Hcol in Hno; congruence|apply Hpre in Hno; congruence].
              ** intros key value [= <- <-]. split; [done|]. split; [done|]. intros _.
                 by destruct (OnlyOutputUpdatedColumns config).
        -- assert (bool_decide (size (∅ : gmap string CodecColumn) = 0) = true) as Hz.
           { by apply bool_decide_eq_true_2. }
           split.
           ++ split; [intros [? [=]]|]. intros [(Hd & _)|(_ & _ & [Hno|(_ & Ho & _)])];
                [done|apply Hcol in Hno; congruence|done].
           ++ intros key value [= <- <-]. split; [done|]. split; [done|]. intros _.
              by destruct (OnlyOutputUpdatedColumns config).
      * destruct (bool_decide (size (toCodec (GetColumns _ e) true) = 0)) eqn:Hsz.
        -- split; [|intros ? ? [=]]. split; [|eauto]. intros _. right.
           split; [done|]. split; [done|]. left. by apply Hcol.
        -- split.
           ++ split; [intros [? [=]]|]. intros [(Hd & _)|(_ & _ & [Hno|(Hu & _)])];
                [done|apply Hcol in Hno; congruence|done].
           ++ intros key value [= <- <-]. done.
    + split.
      * split.
        -- destruct (IsUpdate _ e); intros [? [=]].
        -- intros [(Hd & _)|(_ & Hl & _)]; done.
      * destruct (IsUpdate _ e); intros key value [= <- <-]; split; try done;
          split; try done; intros _; by destruct (OnlyOutputUpdatedColumns config).
Qed.

End Facts.

Lemma rowChangeColumns2CodecColumns_spec_witness :
  is_Some (rowChangeColumns2CodecColumns sampleColumn (Z * string) sc_name sc_key sampleFrom
             (GetColumns _ sampleUpdate) true !! "id")
  ∧ rowChangeColumns2CodecColumns sampleColumn (Z * string) sc_name sc_key sampleFrom
      (GetColumns _ sampleUpdate) false !! "v" = Some (15%Z, "new").
Proof.
  split.
  - apply (proj1 (proj2 (rowChangeColumns2CodecColumns_spec sc_name sc_key sampleFrom
                           (GetColumns _ sampleUpdate) true))
             (mkSampleColumn "id" true "1")).
    + apply elem_of_cons. by left.
    + reflexivity.
  - apply (proj1 (proj2 (proj2 (rowChangeColumns2CodecColumns_spec sc_name sc_key sampleFrom
                                  (GetColumns _ sampleUpdate) false)))
             [Some (mkSampleColumn "id" true "1"); None] (mkSampleColumn "v" false "new") []).
    + reflexivity.
    + discriminate.
    + intros c' Hc'. by apply elem_of_nil in Hc'.
Defined.

Lemma sampleNoKey_has_no_key : ¬ hasHandleKey sampleColumn sc_key (GetColumns _ sampleNoKey).
Proof.
  intros (c & Hc & Hk). cbn in Hc. apply list_elem_of_singleton in Hc.
  injection Hc as ->. discriminate Hk.
Qed.

Lemma rowChangeToMsg_errors_witness :
  (∃ err, sampleRowToMsg sampleNoKey sampleConfig true = inl err)
  ∧ ∃ key value,
      sampleRowToMsg sampleUpdate sampleConfig false = inr (key, value)
      ∧ key = mkMessageKey 100 "test" "t1" None MessageTypeRow false
      ∧ Delete _ value = ∅.
Proof.
  split.
  - apply (proj1 (rowChangeToMsg_errors sc_name sc_key sampleFrom fst
                    (λ a b, bool_decide (a.2 = b.2)) sampleNoKey sampleConfig true)).
    right. split; [reflexivity|]. split; [reflexivity|]. left.
    exact sampleNoKey_has_no_key.
  - eexists _, _. split; [vm_compute; reflexivity|].
    destruct (proj2 (rowChangeToMsg_errors sc_name sc_key sampleFrom fst
                       (λ a b, bool_decide (a.2 = b.2)) sampleUpdate sampleConfig false)
                _ _ eq_refl) as (Hkey & _ & Hnot).
    split; [exact Hkey|]. exact (proj1 (Hnot eq_refl)).
Defined.

(** The sample update encoded: the old value of [id] did not change and is
    dropped, that of [v] stays. *)
Example sample_update_message :
  match sampleRowToMsg sampleUpdate sampleConfig false with
  | inr (_, value) =>
      (map_to_list (Update _ value)).*1 ≡ₚ ["id"; "v"]
      ∧ map_to_list (PreColumns _ value) = [("v", (15%Z, "old"))]
  | inl _ => False
  end.
Proof. vm_compute. split; [|reflexivity]. by repeat constructor. Qed.

End OpenProtocolFacts.

(** ** messaging: newMessage *)

Module TargetFacts.
Import Target.

Section Facts.

Context {Payload : Type}.
Context (Marshal : Payload → option (list Byte.byte)).

Abbreviation into := (marshalInto Payload Marshal).
Abbreviation marshalStep :=
  (λ (acc : M (list (list Byte.byte))) (im : Payload),
     bytes ← acc;
     match Marshal im with
     | None => logPanic "marshal message failed "
     | Some buf => mret (bytes ++ [buf])
     end).

Lemma marshal_stopped lg e (ims : list Payload) :
  foldl marshalStep (lg, inl e) ims = (lg, inl e).
Proof. induction ims as [|im ims IH]; [done|]. cbn [foldl]. exact IH. Qed.

Lemma marshalInto_stopped lg e (msg : list (TargetMessage Payload)) :
  foldl into (lg, inl e) msg = (lg, inl e).
Proof.
  induction msg as [|tm msg IH]; [done|]. cbn [foldl]. unfold marshalInto at 2.
  by rewrite marshal_stopped.
Qed.

Lemma marshal_all (ims : list Payload) bs acc :
  Forall2 (λ im buf, Marshal im = Some buf) ims bs →
  foldl marshalStep (mret acc) ims = mret (acc ++ bs).
Proof.
  intros Hall. revert acc. induction Hall as [|im buf ims bs Him _ IH]; intros acc.
  - cbn. by rewrite app_nil_r.
  - cbn [foldl]. cbn beta. rewrite SchemaStoreHistoryFacts.bind_ret_l, Him, IH.
    by rewrite <- app_assoc.
Qed.

Lemma marshal_fails (ims : list Payload) acc im :
  im ∈ ims → Marshal im = None →
  foldl marshalStep (mret acc) ims = logPanic "marshal message failed ".
Proof.
  revert acc. induction ims as [|h ims IH]; intros acc Hin Hnone.
  { by apply elem_of_nil in Hin. }
  cbn [foldl]. cbn beta. rewrite SchemaStoreHistoryFacts.bind_ret_l.
  destruct (Marshal h) as [buf|] eqn:Hh.
  - apply IH; [|done]. apply elem_of_cons in Hin as [->|Hin]; [congruence|done].
  - apply marshal_stopped.
Qed.

Lemma marshalInto_all (msg : list (TargetMessage Payload)) bs acc :
  Forall2 (λ im buf, Marshal im = Some buf) (msg ≫= Message) bs →
  foldl into (mret acc) msg = mret (acc ++ bs).
Proof.
  revert bs acc. induction msg as [|tm msg IH]; intros bs acc Hall.
  - cbn in Hall. apply Forall2_nil_inv_l in Hall as ->. cbn. by rewrite app_nil_r.
  - cbn in Hall. apply Forall2_app_inv_l in Hall as (b1 & b2 & H1 & H2 & ->).
    cbn [foldl]. unfold marshalInto at 2. rewrite (marshal_all _ _ _ H1).
    rewrite (IH _ _ H2). by rewrite <- app_assoc.
Qed.

Lemma marshalInto_fails (msg : list (TargetMessage Payload)) acc im :
  im ∈ msg ≫= Message → Marshal im = None →
  foldl into (mret acc) msg = logPanic "marshal message failed ".
Proof.
  revert acc. induction msg as [|tm msg IH]; intros acc Hin Hnone.
  { by apply elem_of_nil in Hin. }
  cbn in Hin. cbn [foldl]. unfold marshalInto at 2.
  destruct (mapM Marshal (Message tm)) as [bs|] eqn:Hm.
  - apply mapM_Some in Hm. rewrite (marshal_all _ _ _ Hm).
    apply elem_of_app in Hin as [Hin|Hin]; [|by apply IH].
    apply list_elem_of_lookup in Hin as [i Hi].
    destruct (Forall2_lookup_l _ _ _ _ _ Hm Hi) as (buf & _ & Hbuf). congruence.
  - apply mapM_None, Exists_exists in Hm as (bad & Hbad & Hnb).
    rewrite (marshal_fails _ acc bad Hbad Hnb). apply marshalInto_stopped.
Qed.

(** X17. newMessage packs a batch into one proto.Message: when every
    message marshals, the payload is the marshalled messages of all the
    TargetMessages in order, sent under the target's IDs and epoch and under
    the topic and type of the first TargetMessage alone.  A message that
    fails to marshal makes it panic, and so does an empty batch. *)
Theorem newMessage_spec (s : remoteMessageTarget) (msg : list (TargetMessage Payload)) :
  newMessage Payload Marshal s [] = logPanic "index out of range [0] with length 0"
  ∧ (∀ first rest payload,
       msg = first :: rest →
       Forall2 (λ im buf, Marshal im = Some buf) (msg ≫= Message) payload →
       newMessage Payload Marshal s msg
       = mret (mkProtoMessage (messageCenterID s) (targetId s) (messageCenterEpoch s)
                 (Topic first) (Type_ first) payload))
  ∧ (∀ im, im ∈ msg ≫= Message → Marshal im = None →
           newMessage Payload Marshal s msg = logPanic "marshal message failed ").
Proof.
  unfold newMessage. split; [done|]. split.
  - intros first rest payload -> Hall.
    rewrite (marshalInto_all _ _ [] Hall), SchemaStoreHistoryFacts.bind_ret_l. done.
  - intros im Hin Hnone. by rewrite (marshalInto_fails _ [] im Hin Hnone).
Qed.

End Facts.

Lemma newMessage_spec_witness :
  newMessage (list Byte.byte) Some sampleTarget sampleMessages
  = mret (mkProtoMessage "node-a" "node-b" 3 "heartbeat" 1
            [[Byte.x01]; [Byte.x02]; [Byte.x03]])
  ∧ newMessage (list Byte.byte) (λ _, None) sampleTarget sampleMessages
    = logPanic "marshal message failed ".
Proof.
  split.
  - apply (proj1 (proj2 (newMessage_spec Some sampleTarget sampleMessages))
             _ _ _ eq_refl).
    cbn. by repeat constructor.
  - apply (proj2 (proj2 (newMessage_spec (λ _, None) sampleTarget sampleMessages))
             [Byte.x01]); [|done].
    cbn. apply elem_of_cons. by left.
Defined.

End TargetFacts.
